(** * Zernike optics: index translation, mode objects, wavefronts and the
      3D point-spread-function propagator.

    Shallow embedding of [ZernikeOptics.py].

    - Python integers are [Z]; floor division and floor modulo are [Z.div]
      and [Z.modulo].
    - The set of valid descriptors is a [gset], the two reverse lookup tables
      are [gmap]s; a dictionary whose iteration order is observable (the
      [zernikes] of a wavefront) is an association list in insertion order.
    - A raised exception is the [Raise] result of a small error monad.
    - Objects are records of their attributes; [Zernike.__setattr__] is a
      function from the object and the assignment to the object afterwards
      and the outcome of the statement.
    - Methods that read class attributes take the class object as an
      argument ([Zernike_init_in]); [Zernike_init] supplies the class the
      class body evaluates to.
    - Floating-point numbers are idealised: a [float] is [NaN] or an exact
      real number and a [complex] is [CNaN] or a pair of reals, so rounding,
      overflow and infinities are outside the model.  Scalar parameters
      (voxel sizes, wavelength, refractive index, aperture) are Python
      floats and are real numbers here.
    - Arrays are nested lists; numpy's vectorised operations act
      elementwise on arrays of one shape.  Broadcasting of arrays of
      different shapes, and the error numpy raises when it cannot broadcast,
      are outside the model: a statement that asserts a result of such an
      operation on given arrays assumes that they have one shape.  The numpy
      and scipy functions the module calls are written out after their
      documented behaviour. *)

From Stdlib Require Import ZArith Lia Reals Lra Ascii String.
From stdpp Require Import gmap strings list fin_maps sorting.

Local Open Scope Z_scope.

(* [lia] understands division and modulo by constants. *)
Ltac Zify.zify_post_hook ::= Z.to_euclidean_division_equations.

(** ** Exceptions and the error monad *)

Inductive exn :=
  | ValueError (msg : string)
  | AttributeError (msg : string)
  | AssertionError
  | ZeroDivisionError
  | IndexError
  | KeyError.

Inductive result (A : Type) :=
  | Ok (a : A)
  | Raise (e : exn).
Arguments Ok {A} a.
Arguments Raise {A} e.

#[global] Instance result_ret : MRet result := λ A a, Ok a.
#[global] Instance result_bind : MBind result := λ A B f r,
  match r with Ok a => f a | Raise e => Raise e end.
#[global] Instance result_fmap : FMap result := λ A B f r,
  match r with Ok a => Ok (f a) | Raise e => Raise e end.

(** [cond or present(e)]: continue when [cond] holds, raise [e] otherwise. *)
Definition present {A} (e : exn) : result A := Raise e.
Definition or_present (cond : bool) (e : exn) : result unit :=
  if cond then Ok () else present e.

(** ** Python built-ins used by the module *)

(** [range(start, stop, step)] for a positive [step]. *)
Definition py_range (start stop step : Z) : list Z :=
  (λ i, start + i * step) <$> seqZ 0 ((stop - start + step - 1) `div` step).

(** [dict(zip(keys, values))]: later pairs overwrite earlier ones. *)
Definition dict_zip {V} (keys : list Z) (values : list V) : gmap Z V :=
  foldl (λ d kv, <[kv.1 := kv.2]> d) ∅ (zip keys values).

(** ** Index translator *)

Definition in_pair (x a b : Z) : bool := bool_decide (x = a) || bool_decide (x = b).

Definition nm_to_noll (n m : Z) : result Z :=
  let j := (n * (n + 1)) `div` 2 + Z.abs m in
  if bool_decide (m > 0) && in_pair (n `mod` 4) 0 1 then Ok j
  else if bool_decide (m < 0) && in_pair (n `mod` 4) 2 3 then Ok j
  else if bool_decide (m >= 0) && in_pair (n `mod` 4) 2 3 then Ok (j + 1)
  else if bool_decide (m <= 0) && in_pair (n `mod` 4) 0 1 then Ok (j + 1)
  else Raise AssertionError.

Definition nm_to_ansi (n m : Z) : Z := (n * (n + 2) + m) `div` 2.

(** Closed form of the value [nm_to_noll] returns (its last [assert] is
    never reached, see [nm_to_noll_ok]). *)
Definition noll (n m : Z) : Z :=
  (n * (n + 1)) `div` 2 + Z.abs m +
  (if bool_decide (m > 0) && in_pair (n `mod` 4) 0 1 then 0
   else if bool_decide (m < 0) && in_pair (n `mod` 4) 2 3 then 0 else 1).

(** ** The [Zernike] class body *)

Record ZernikeCls := {
  _ansi_names : list string;
  _nm_pairs : gset (Z * Z);
  _noll_to_nm : gmap Z (Z * Z);
  _ansi_to_nm : gmap Z (Z * Z)
}.

Definition ansi_names : list string :=
  ["piston"; "tilt"; "tip"; "oblique astigmatism"; "defocus";
   "vertical astigmatism"; "vertical trefoil"; "vertical coma";
   "horizontal coma"; "oblique trefoil"; "oblique quadrafoil";
   "oblique secondary astigmatism"; "primary spherical";
   "vertical secondary astigmatism"; "vertical quadrafoil"]%string.

Definition nm_pairs_list : list (Z * Z) :=
  n ← py_range 0 200 1; m ← py_range (- n) (n + 1) 2; [(n, m)].

Definition nm_pairs : gset (Z * Z) := list_to_set nm_pairs_list.

(** The statements of the class body, in order.  Iterating over the set
    visits [elements nm_pairs]; the theorems never depend on that order. *)
Definition Zernike_class : result ZernikeCls :=
  let pairs := elements nm_pairs in
  noll_keys ← mapM (λ nm, nm_to_noll nm.1 nm.2) pairs;
  let ansi_keys := (λ nm, nm_to_ansi nm.1 nm.2) <$> pairs in
  Ok {| _ansi_names := ansi_names;
        _nm_pairs := nm_pairs;
        _noll_to_nm := dict_zip noll_keys pairs;
        _ansi_to_nm := dict_zip ansi_keys pairs |}.

(** The class object the body evaluates to ([Zernike_class_ok]). *)
Definition Zernike_cls : ZernikeCls :=
  let pairs := elements nm_pairs in
  {| _ansi_names := ansi_names;
     _nm_pairs := nm_pairs;
     _noll_to_nm := dict_zip ((λ nm, noll nm.1 nm.2) <$> pairs) pairs;
     _ansi_to_nm := dict_zip ((λ nm, nm_to_ansi nm.1 nm.2) <$> pairs) pairs |}.

(** A descriptor of the enumerated set. *)
Definition valid_nm (n m : Z) : Prop :=
  0 ≤ n < 200 ∧ Z.abs m ≤ n ∧ (n - m) `mod` 2 = 0.

(** ** Idealised floating-point and complex numbers

    A [float] is [NaN] or an exact real; a [complex] is [CNaN] (some part is
    not a number) or a pair of reals.  There are no infinities: what IEEE
    arithmetic answers with an infinity is [NaN] here. *)

Inductive float := NaN | Fin (x : R).
Inductive complex := CNaN | Cx (re im : R).

#[global] Instance Rle_decision (x y : R) : Decision (x <= y)%R := Rle_dec x y.
#[global] Instance Rlt_decision (x y : R) : Decision (x < y)%R := Rlt_dec x y.
#[global] Instance Req_decision (x y : R) : Decision (x = y) := Req_dec_T x y.

Definition flift2 (f : R → R → R) (a b : float) : float :=
  match a, b with Fin x, Fin y => Fin (f x y) | _, _ => NaN end.
Definition fadd : float → float → float := flift2 Rplus.
Definition fsub : float → float → float := flift2 Rminus.
Definition fmul : float → float → float := flift2 Rmult.
Definition fdiv (a b : float) : float :=
  match a, b with
  | Fin x, Fin y => if decide (y = 0%R) then NaN else Fin (x / y)
  | _, _ => NaN
  end.
Definition fsqrt (a : float) : float :=
  match a with
  | Fin x => if decide (0 <= x)%R then Fin (sqrt x) else NaN
  | NaN => NaN
  end.
Definition fcos (a : float) : float :=
  match a with Fin x => Fin (cos x) | NaN => NaN end.
Definition fsin (a : float) : float :=
  match a with Fin x => Fin (sin x) | NaN => NaN end.
(** [a ** k] for an integer exponent. *)
Definition fpow (a : float) (k : Z) : float :=
  match a with
  | Fin x =>
      if bool_decide (0 ≤ k) then Fin (x ^ Z.to_nat k)
      else if decide (x = 0%R) then NaN else Fin (/ x ^ Z.to_nat (- k))
  | NaN => if bool_decide (k = 0) then Fin 1 else NaN
  end.
Definition fle (a b : float) : bool :=
  match a, b with Fin x, Fin y => bool_decide (x <= y)%R | _, _ => false end.
Definition flt (a b : float) : bool :=
  match a, b with Fin x, Fin y => bool_decide (x < y)%R | _, _ => false end.
Definition fisnan (a : float) : bool :=
  match a with NaN => true | Fin _ => false end.
Definition of_Z (z : Z) : float := Fin (IZR z).
Definition of_bool (b : bool) : float := Fin (if b then 1 else 0).

Definition of_float (a : float) : complex :=
  match a with Fin x => Cx x 0 | NaN => CNaN end.
Definition cmul (a b : complex) : complex :=
  match a, b with
  | Cx x y, Cx u v => Cx (x * u - y * v) (x * v + y * u)
  | _, _ => CNaN
  end.
Definition cadd (a b : complex) : complex :=
  match a, b with Cx x y, Cx u v => Cx (x + u) (y + v) | _, _ => CNaN end.
Definition cdiv (a b : complex) : complex :=
  match a, b with
  | Cx x y, Cx u v =>
      if decide ((u * u + v * v)%R = 0%R) then CNaN
      else Cx ((x * u + y * v) / (u * u + v * v))
              ((y * u - x * v) / (u * u + v * v))
  | _, _ => CNaN
  end.
Definition cexp (a : complex) : complex :=
  match a with
  | Cx x y => Cx (exp x * cos y) (exp x * sin y)
  | CNaN => CNaN
  end.
Definition cabs (a : complex) : float :=
  match a with Cx x y => Fin (sqrt (x * x + y * y)) | CNaN => NaN end.
Definition cisnan (a : complex) : bool :=
  match a with CNaN => true | Cx _ _ => false end.

(** ** Arrays

    One-, two- and three-dimensional arrays are (nested) lists; the
    vectorised numpy operations act elementwise on arrays of one shape. *)

Abbreviation lmap := (fmap (M:=list)).

Definition arr2_map {A B} (f : A → B) (a : list (list A)) : list (list B) :=
  lmap (lmap f) a.
Definition arr2_zip {A B C} (f : A → B → C) (a : list (list A)) (b : list (list B)) : list (list C) :=
  zip_with (zip_with f) a b.
Definition arr3_map {A B} (f : A → B) (a : list (list (list A))) : list (list (list B)) :=
  lmap (arr2_map f) a.
Definition arr3_zip {A B C} (f : A → B → C) (a : list (list (list A))) (b : list (list (list B))) : list (list (list C)) :=
  zip_with (arr2_zip f) a b.
(** A 3D array combined with a 2D array broadcast over its first axis. *)
Definition arr3_bcast {A B C} (f : A → B → C) (a : list (list (list A))) (b : list (list B)) : list (list (list C)) :=
  lmap (λ s, arr2_zip f s b) a.

Definition is_arr2 {A} (r c : nat) (a : list (list A)) : Prop :=
  length a = r ∧ Forall (λ row, length row = c) a.
Definition is_arr3 {A} (d r c : nat) (a : list (list (list A))) : Prop :=
  length a = d ∧ Forall (is_arr2 r c) a.

(** [a[mask] = v] *)
Definition arr2_set_where {A} (a : list (list A)) (mask : list (list bool)) (v : A) : list (list A) :=
  arr2_zip (λ x (b : bool), if b then v else x) a mask.
Definition arr3_set_where {A} (a : list (list (list A))) (mask : list (list (list bool))) (v : A) : list (list (list A)) :=
  arr3_zip (λ x (b : bool), if b then v else x) a mask.

(** [a[i, j]] and [a[i, j, k]], when the indices are in range. *)
Definition arr2_get {A} (a : list (list A)) (i j : nat) : option A :=
  a !! i ≫= λ row, row !! j.
Definition arr3_get {A} (a : list (list (list A))) (i j k : nat) : option A :=
  a !! i ≫= λ s, arr2_get s j k.

(** [np.meshgrid(.., indexing='ij')] *)
Definition meshgrid2 {A} (y x : list A) : list (list A) * list (list A) :=
  (lmap (λ yj, lmap (λ _, yj) x) y, lmap (λ _, x) y).
Definition meshgrid3 {A} (z y x : list A) : list (list (list A)) * list (list (list A)) * list (list (list A)) :=
  (lmap (λ zi, lmap (λ _, lmap (λ _, zi) x) y) z,
   lmap (λ _, lmap (λ yj, lmap (λ _, yj) x) y) z,
   lmap (λ _, lmap (λ _, x) y) z).

(** [np.sum(arrays, axis=0)] of a list of 2D arrays of one shape: the
    reduction starts from the first array.  (For an empty list numpy answers
    the 0-d scalar [0.0]; that degenerate case is the empty array here.) *)
Definition np_sum_axis0 (arrays : list (list (list float))) : list (list float) :=
  match arrays with
  | [] => []
  | a :: rest => foldl (arr2_zip fadd) a rest
  end.

(** ** numpy and scipy functions *)

Definition np_hypot (a b : float) : float := fsqrt (fadd (fmul a a) (fmul b b)).

Definition arctan2 (y x : R) : R :=
  if decide (0 < x)%R then atan (y / x)
  else if decide (x < 0)%R then
    if decide (0 <= y)%R then (atan (y / x) + PI)%R else (atan (y / x) - PI)%R
  else if decide (0 < y)%R then (PI / 2)%R
  else if decide (y < 0)%R then (- PI / 2)%R else 0%R.
Definition np_arctan2 (a b : float) : float := flift2 arctan2 a b.

(** [np.linspace(start, stop, num)] *)
Definition np_linspace (start stop : R) (num : Z) : result (list float) :=
  if bool_decide (num < 0) then Raise (ValueError "Number of samples must be non-negative")
  else if bool_decide (num = 1) then Ok [Fin start]
  else Ok ((λ i, Fin (IZR i * ((stop - start) / IZR (num - 1)) + start)) <$> seqZ 0 num).

(** [np.arange(n)] *)
Definition np_arange (n : Z) : list Z := seqZ 0 n.

(** [np.fft.fftfreq(n, d)]: [val = 1.0 / (n * d)] is a division of Python
    scalars, the frequencies are [0, 1, .., (n-1)//2, -(n//2), .., -1] * val. *)
Definition np_fftfreq (n : Z) (d : R) : result (list float) :=
  if decide ((IZR n * d)%R = 0%R) then Raise ZeroDivisionError
  else if bool_decide (n < 0) then Raise (ValueError "negative dimensions are not allowed")
  else
    let val := (1 / (IZR n * d))%R in
    let N := (n - 1) `div` 2 + 1 in
    Ok ((λ k, Fin (IZR k * val)) <$> (seqZ 0 N ++ seqZ (- (n `div` 2)) (n `div` 2))).

(** [np.roll(x, shift)] for [0 <= shift]: element [i] moves to [i + shift]. *)
Definition np_roll {A} (shift : nat) (x : list A) : list A :=
  let s := (length x - shift `mod` length x)%nat in
  drop s x ++ take s x.

(** The extents of a 3D array along its last two axes. *)
Definition shape_12 {A} (x : list (list (list A))) : nat * nat :=
  match x with
  | [] => (0, 0)%nat
  | s :: _ => (length s, match s with [] => 0%nat | row :: _ => length row end)
  end.

(** [np.fft.fftshift(x, axes=(1, 2))]: roll each axis by [dim // 2]. *)
Definition np_fftshift_12 {A} (x : list (list (list A))) : list (list (list A)) :=
  let '(d1, d2) := shape_12 x in
  lmap (λ s, np_roll (d1 `div` 2) (lmap (np_roll (d2 `div` 2)) s)) x.

(** [np.fft.ifftshift(x, axes=(1, 2))]: roll each axis by [-(dim // 2)]. *)
Definition np_ifftshift_12 {A} (x : list (list (list A))) : list (list (list A)) :=
  let '(d1, d2) := shape_12 x in
  lmap (λ s, np_roll (d1 - d1 `div` 2) (lmap (np_roll (d2 - d2 `div` 2)) s)) x.

Definition csum (l : list complex) : complex := foldl cadd (Cx 0 0) l.

(** One-dimensional inverse discrete Fourier transform:
    [out[j] = (1/n) * sum_k x[k] * exp(2 pi i j k / n)]. *)
Definition ifft1 (x : list complex) : list complex :=
  let n := length x in
  (λ j : nat,
     cdiv (csum (imap (λ (k : nat) xk,
                   cmul xk (cexp (Cx 0 (2 * PI * INR j * INR k / INR n)))) x))
          (Cx (INR n) 0)) <$> seq 0 n.

Definition transpose {A} (ncols : nat) (a : list (list A)) : list (list A) :=
  foldr (zip_with cons) (replicate ncols []) a.

(** [np.fft.ifftn(x, axes=(1, 2))]: the last axis is transformed first. *)
Definition ifft2 (s : list (list complex)) : list (list complex) :=
  let ncols := match s with [] => 0%nat | row :: _ => length row end in
  transpose (length s) (lmap ifft1 (transpose ncols (lmap ifft1 s))).
Definition np_ifftn_12 (x : list (list (list complex))) : list (list (list complex)) :=
  lmap ifft2 x.

Fixpoint binomial (n k : nat) : nat :=
  match n, k with
  | _, O => 1
  | O, S _ => 0
  | S n', S k' => binomial n' k' + binomial n' k
  end.

(** [scipy.special.binom] at integer arguments. *)
Definition sp_binom (n k : Z) : float :=
  if bool_decide (0 ≤ k ≤ n) then Fin (INR (binomial (Z.to_nat n) (Z.to_nat k)))
  else Fin 0.

(** ** Polynomial evaluator *)

(** The [k]-th term of the radial polynomial at one point. *)
Definition radial_term (rn rm k : Z) (rho : float) : float :=
  fmul (fmul (fmul (fpow (Fin (-1)) k) (sp_binom (rn - k) k))
             (sp_binom (rn - 2 * k) ((rn - rm) `div` 2 - k)))
       (fpow rho (rn - 2 * k)).

(** [nm_polynomial] at one point of the coordinate arrays, for [|zm| <= zn]. *)
Definition nm_polynomial_pt (zn zm : Z) (normed : bool) (rho theta : float) : float :=
  let rn := zn in
  let rm := Z.abs zm in
  if bool_decide ((rn - rm) `mod` 2 = 1) then
    fadd (fmul (of_Z 0) rho) (fmul (of_Z 0) theta)
  else
    let radial :=
      foldl (λ radial k, fadd radial (radial_term rn rm k rho)) (of_Z 0)
            (py_range 0 ((rn - rm) `div` 2 + 1) 1) in
    let radial := fmul radial (of_bool (fle rho (Fin 1))) in
    let prefac :=
      if normed then
        fdiv (fdiv (Fin 1)
                   (fsqrt (fdiv (fadd (Fin 1) (of_bool (bool_decide (rm = 0))))
                                (fadd (fmul (Fin 2) (of_Z rn)) (of_Z 2)))))
             (fsqrt (Fin PI))
      else Fin 1 in
    if bool_decide (zm >= 0) then
      fmul (fmul prefac radial) (fcos (fmul (of_Z rm) theta))
    else
      fmul (fmul prefac radial) (fsin (fmul (of_Z rm) theta)).

(** [nm_polynomial] on coordinate arrays [rho] and [theta] of one shape. *)
Definition nm_polynomial (zn zm : Z) (rho theta : list (list float)) (normed : bool)
  : result (list (list float)) :=
  if bool_decide (Z.abs zm > zn) then Raise (ValueError " |m| !<= n")
  else Ok (arr2_zip (nm_polynomial_pt zn zm normed) rho theta).

(** ** Coordinate cache

    [lru_cache] only memoises these pure functions; nothing mutates the
    arrays they return. *)

Definition rho_theta (size : Z) : result (list (list float) * list (list float)) :=
  dy ← np_linspace (-1) 1 size;
  dx ← np_linspace (-1) 1 size;
  let '(y, x) := meshgrid2 dy dx in
  Ok (arr2_zip np_hypot y x, arr2_zip np_arctan2 y x).

Definition outside_mask (size : Z) : result (list (list bool)) :=
  '(rho, theta) ← rho_theta size;
  p ← nm_polynomial 0 0 rho theta false;
  Ok (arr2_map (λ v, flt v (Fin 1)) p).

(** ** Python strings and sequences

    Strings are sequences of characters below 256, and the string functions
    are Python's on the ASCII ones ([str_isascii]); digits and letters beyond
    ASCII are not represented. *)

Definition ascii_lower (c : ascii) : ascii :=
  let k := nat_of_ascii c in
  if (65 <=? k)%nat && (k <=? 90)%nat then ascii_of_nat (k + 32) else c.
Fixpoint str_lower (s : string) : string :=
  match s with
  | EmptyString => EmptyString
  | String c s' => String (ascii_lower c) (str_lower s')
  end.
Definition is_digit (c : ascii) : bool :=
  let k := nat_of_ascii c in (48 <=? k)%nat && (k <=? 57)%nat.
Fixpoint all_digits (s : string) : bool :=
  match s with
  | EmptyString => true
  | String c s' => is_digit c && all_digits s'
  end.
Definition str_isdigit (s : string) : bool :=
  match s with EmptyString => false | _ => all_digits s end.
Fixpoint int_of_digits (acc : Z) (s : string) : Z :=
  match s with
  | EmptyString => acc
  | String c s' => int_of_digits (10 * acc + (Z.of_nat (nat_of_ascii c) - 48)) s'
  end.
Definition int_of_str (s : string) : Z := int_of_digits 0 s.

(** [l.index(x)] *)
Definition py_index (x : string) (l : list string) : result Z :=
  match list_find (λ y, y = x) l with
  | Some (i, _) => Ok (Z.of_nat i)
  | None => Raise (ValueError "x not in list")
  end.

(** Position of a (possibly negative) Python index in a list of length [len]. *)
Definition py_position (len : nat) (i : Z) : result nat :=
  let i' := if bool_decide (i < 0) then i + Z.of_nat len else i in
  if bool_decide (0 ≤ i' < Z.of_nat len) then Ok (Z.to_nat i') else Raise IndexError.
Definition py_getitem {A} (l : list A) (i : Z) : result A :=
  k ← py_position (length l) i;
  match l !! k with Some x => Ok x | None => Raise IndexError end.
Definition py_setitem {A} (l : list A) (i : Z) (v : A) : result (list A) :=
  k ← py_position (length l) i;
  Ok (<[k := v]> l).

Fixpoint foldlM {A B} (f : A → B → result A) (a : A) (l : list B) : result A :=
  match l with
  | [] => Ok a
  | x :: l' => a' ← f a x; foldlM f a' l'
  end.

(** A dictionary whose iteration order matters: items in insertion order.
    Assigning to a key that is already present (for the key equality [eqb])
    replaces the value in place. *)
Definition dict_setitem {K V} (eqb : K → K → bool)
    (d : list (K * V)) (k : K) (v : V) : list (K * V) :=
  if existsb (λ kv, eqb kv.1 k) d
  then (λ kv, if eqb kv.1 k then (kv.1, v) else kv) <$> d
  else d ++ [(k, v)].
Definition dict_getitem {K V} (eqb : K → K → bool)
    (d : list (K * V)) (k : K) : result V :=
  match list_find (λ kv, eqb kv.1 k = true) d with
  | Some (_, kv) => Ok kv.2
  | None => Raise KeyError
  end.

(** [max(keys)] *)
Definition py_max (l : list Z) : result Z :=
  match l with
  | [] => Raise (ValueError "max() arg is an empty sequence")
  | x :: l' => Ok (foldl Z.max x l')
  end.

(** [sorted(l)]: a stable sort that only asks [lt]. *)
Fixpoint insert_sorted {A} (lt : A → A → bool) (x : A) (l : list A) : list A :=
  match l with
  | [] => [x]
  | y :: l' => if lt x y then x :: y :: l' else y :: insert_sorted lt x l'
  end.
Definition sorted {A} (lt : A → A → bool) (l : list A) : list A :=
  foldl (λ acc x, insert_sorted lt x acc) [] l.

(** ** Single-mode polynomial object *)

Inductive PyVal :=
  | VNone
  | VBool (b : bool)
  | VInt (z : Z)
  | VFloat (x : float)
  | VStr (s : string).

(** The attributes [__init__] assigns, and the instance dictionary for any
    other attribute name. *)
Record Zernike := {
  z_n : Z;
  z_m : Z;
  z_index_noll : Z;
  z_index_ansi : Z;
  z_name : option string;
  z_mutable : bool;
  z_dict : gmap string PyVal
}.

(** An attribute assignment [obj.attr = value]. *)
Inductive ZernikeAttr :=
  | Attr_n (v : Z)
  | Attr_m (v : Z)
  | Attr_index_noll (v : Z)
  | Attr_index_ansi (v : Z)
  | Attr_name (v : option string)
  | Attr_mutable (v : bool)
  | Attr_other (attr : string) (v : PyVal).

(** [object.__setattr__] *)
Definition object_setattr (self : Zernike) (a : ZernikeAttr) : Zernike :=
  match a with
  | Attr_n v =>
      {| z_n := v; z_m := z_m self; z_index_noll := z_index_noll self;
         z_index_ansi := z_index_ansi self; z_name := z_name self;
         z_mutable := z_mutable self; z_dict := z_dict self |}
  | Attr_m v =>
      {| z_n := z_n self; z_m := v; z_index_noll := z_index_noll self;
         z_index_ansi := z_index_ansi self; z_name := z_name self;
         z_mutable := z_mutable self; z_dict := z_dict self |}
  | Attr_index_noll v =>
      {| z_n := z_n self; z_m := z_m self; z_index_noll := v;
         z_index_ansi := z_index_ansi self; z_name := z_name self;
         z_mutable := z_mutable self; z_dict := z_dict self |}
  | Attr_index_ansi v =>
      {| z_n := z_n self; z_m := z_m self; z_index_noll := z_index_noll self;
         z_index_ansi := v; z_name := z_name self;
         z_mutable := z_mutable self; z_dict := z_dict self |}
  | Attr_name v =>
      {| z_n := z_n self; z_m := z_m self; z_index_noll := z_index_noll self;
         z_index_ansi := z_index_ansi self; z_name := v;
         z_mutable := z_mutable self; z_dict := z_dict self |}
  | Attr_mutable v =>
      {| z_n := z_n self; z_m := z_m self; z_index_noll := z_index_noll self;
         z_index_ansi := z_index_ansi self; z_name := z_name self;
         z_mutable := v; z_dict := z_dict self |}
  | Attr_other attr v =>
      {| z_n := z_n self; z_m := z_m self; z_index_noll := z_index_noll self;
         z_index_ansi := z_index_ansi self; z_name := z_name self;
         z_mutable := z_mutable self; z_dict := <[attr := v]> (z_dict self) |}
  end.

(** [Zernike.__setattr__]: the object after the statement, and its outcome. *)
Definition Zernike_setattr (self : Zernike) (a : ZernikeAttr) : Zernike * result () :=
  if z_mutable self then (object_setattr self a, Ok ())
  else (self, Raise (AttributeError "Zernike is immutable")).

(** [self.attr = value] inside a method: go on with the updated object. *)
Definition assign (self : Zernike) (a : ZernikeAttr) : result Zernike :=
  let '(self', r) := Zernike_setattr self a in _ ← r; Ok self'.

(** The object before [__init__] runs; the placeholders stand for attributes
    that are not set yet and are never read before they are assigned. *)
Definition Zernike_new : Zernike :=
  {| z_n := 0; z_m := 0; z_index_noll := 0; z_index_ansi := 0; z_name := None;
     z_mutable := false; z_dict := ∅ |}.

(** The [index] argument: a string, an integer ([bool] included), a list or
    tuple of integers, or [IOther]: an object that is no string, no integer
    and no list or tuple of length two.  A list or tuple of length two whose
    items are not integers (on which [int(index[0])] may truncate or raise) is
    not represented. *)
Inductive PyIndex :=
  | IStr (s : string)
  | IInt (j : Z)
  | ISeq (l : list Z)
  | IOther.

Definition Zernike_init_in (cls : ZernikeCls) (index : PyIndex) (order : string)
  : result Zernike :=
  let self := object_setattr Zernike_new (Attr_mutable true) in
  '(index, order) ←
    match index with
    | IStr s =>
        if str_isdigit s then Ok (IInt (int_of_str s), order)
        else
          let name := str_lower s in
          _ ← or_present (bool_decide (name ∈ _ansi_names cls))
                (ValueError "Your input for index is string : Could not identify the name of Zernike polynomial");
          i ← py_index name (_ansi_names cls);
          Ok (IInt i, "ansi"%string)
    | _ => Ok (index, order)
    end;
  self ←
    match index with
    | ISeq [a; b] =>
        self ← assign self (Attr_n a);
        self ← assign self (Attr_m b);
        _ ← or_present (bool_decide ((z_n self, z_m self) ∈ _nm_pairs cls))
              (ValueError "Your input for index is list/tuple : Could not identify the n,m order of Zernike polynomial");
        Ok self
    | IInt j =>
        let order := str_lower order in
        _ ← or_present (bool_decide (order ∈ ["noll"; "ansi"]%string))
              (ValueError "Your input for index is int : Could not identify the Zernike nomenclature/order");
        if bool_decide (order = "noll"%string) then
          _ ← or_present (bool_decide (is_Some (_noll_to_nm cls !! j)))
                (ValueError "Your input for index is int and input for Zernike nomenclature is Noll: Could not identify the Zernike polynomial with this index");
          nm ← from_option Ok (Raise KeyError) (_noll_to_nm cls !! j);
          self ← assign self (Attr_n nm.1);
          assign self (Attr_m nm.2)
        else if bool_decide (order = "ansi"%string) then
          _ ← or_present (bool_decide (is_Some (_ansi_to_nm cls !! j)))
                (ValueError "Your input for index is int and input for Zernike nomenclature is ANSI: Could not identify the Zernike polynomial with this index");
          nm ← from_option Ok (Raise KeyError) (_ansi_to_nm cls !! j);
          self ← assign self (Attr_n nm.1);
          assign self (Attr_m nm.2)
        else Ok self
    | _ => Raise (ValueError "Could not identify your index input, we accept strings, lists and tuples only")
    end;
  index_noll ← nm_to_noll (z_n self) (z_m self);
  self ← assign self (Attr_index_noll index_noll);
  self ← assign self (Attr_index_ansi (nm_to_ansi (z_n self) (z_m self)));
  name ←
    (if bool_decide (z_index_ansi self < Z.of_nat (length (_ansi_names cls)))
     then Some <$> py_getitem (_ansi_names cls) (z_index_ansi self)
     else Ok None);
  self ← assign self (Attr_name name);
  assign self (Attr_mutable false).

(** [Zernike(index, order)]: the method reads the class attributes. *)
Definition Zernike_init : PyIndex → string → result Zernike :=
  Zernike_init_in Zernike_cls.
Arguments Zernike_init : simpl never.

Definition Zernike_polynomial (self : Zernike) (size : Z) (normed : bool)
    (outside : float) : result (list (list float)) :=
  _ ← or_present (bool_decide (size > 0)) (ValueError "");
  '(rho, theta) ← rho_theta size;
  ans ← nm_polynomial (z_n self) (z_m self) rho theta normed;
  mask ← outside_mask size;
  Ok (arr2_set_where ans mask outside).

Definition Zernike_phase (self : Zernike) (rho theta : list (list float))
    (normed : bool) (outside : option float) : result (list (list float)) :=
  ans ← nm_polynomial (z_n self) (z_m self) rho theta normed;
  match outside with
  | Some v =>
      p ← nm_polynomial 0 0 rho theta false;
      Ok (arr2_set_where ans (arr2_map (λ x, flt x (Fin 1)) p) v)
  | None => Ok ans
  end.

(** [__eq__] and [__lt__] *)
Definition Zernike_eq (self other : Zernike) : bool :=
  bool_decide ((z_n self, z_m self) = (z_n other, z_m other)).
Definition Zernike_lt (self other : Zernike) : bool :=
  bool_decide (z_index_ansi self < z_index_ansi other).

(** ** Wavefront composer *)

(** An amplitude is a scalar or something [np.isscalar] rejects. *)
Inductive PyAmp :=
  | AmpScalar (a : float)
  | AmpNonScalar.

(** The [amplitudes] argument: a dictionary (items in insertion order), an
    nd-array (its raveled entries), a tuple or list, or anything else. *)
Inductive PyAmplitudes :=
  | AmpDict (items : list (PyIndex * PyAmp))
  | AmpArray (values : list float)
  | AmpSeq (values : list PyAmp)
  | AmpOther.

Definition ensure_dict (values : PyAmplitudes) (order : string)
  : result (list (PyIndex * PyAmp)) :=
  match values with
  | AmpDict items => Ok items
  | AmpOther => Raise (ValueError "Could not identify the data type for dictionary formation")
  | _ =>
      let values :=
        match values with
        | AmpArray vs => AmpScalar <$> vs
        | AmpSeq vs => vs
        | _ => []
        end in
      let order := str_lower order in
      _ ← or_present (bool_decide (order ∈ ["noll"; "ansi"]%string))
            (ValueError "Could not identify the Zernike nomenclature/order");
      let offset := if bool_decide (order = "noll"%string) then 1 else 0 in
      let indices := py_range offset (offset + Z.of_nat (length values)) 1 in
      Ok (zip (IInt <$> indices) values)
  end.

Definition dict_to_list (kv : list (Z * float)) : result (list float) :=
  max_key ← py_max kv.*1;
  let out := replicate (Z.to_nat (max_key + 1)) (of_Z 0) in
  foldlM (λ out kv, py_setitem out kv.1 kv.2) out kv.

Record ZernikeWavefront := {
  zernikes : list (Zernike * float);
  amplitudes_noll : list float;
  amplitudes_ansi : list float;
  amplitudes_requested : list float
}.

Definition ZernikeWavefront_init_in (cls : ZernikeCls) (amplitudes : PyAmplitudes)
    (order : string) : result ZernikeWavefront :=
  amplitudes ← ensure_dict amplitudes order;
  amplitudes ← mapM (λ ja : PyIndex * PyAmp,
                  match ja.2 with
                  | AmpScalar a => Ok (ja.1, a)
                  | AmpNonScalar =>
                      Raise (ValueError "Could not identify scalar value for amplitudes after making a dictionary")
                  end) amplitudes;
  zernikes ← foldlM (λ d (ja : PyIndex * float),
                z ← Zernike_init_in cls ja.1 order;
                Ok (dict_setitem Zernike_eq d z ja.2)) [] amplitudes;
  let by_noll := foldl (λ d (za : Zernike * float),
                   dict_setitem Z.eqb d (z_index_noll za.1) za.2) [] zernikes in
  noll_list ← dict_to_list by_noll;
  let by_ansi := foldl (λ d (za : Zernike * float),
                   dict_setitem Z.eqb d (z_index_ansi za.1) za.2) [] zernikes in
  ansi_list ← dict_to_list by_ansi;
  requested ← mapM (dict_getitem Zernike_eq zernikes) (sorted Zernike_lt zernikes.*1);
  Ok {| zernikes := zernikes;
        amplitudes_noll := drop 1 noll_list;
        amplitudes_ansi := ansi_list;
        amplitudes_requested := requested |}.

(** [ZernikeWavefront(amplitudes, order)] *)
Definition ZernikeWavefront_init : PyAmplitudes → string → result ZernikeWavefront :=
  ZernikeWavefront_init_in Zernike_cls.
Arguments ZernikeWavefront_init : simpl never.

Definition ZernikeWavefront_len (self : ZernikeWavefront) : nat :=
  length (zernikes self).

Definition ZernikeWavefront_polynomial (self : ZernikeWavefront) (size : Z)
    (normed : bool) (outside : float) : result (list (list float)) :=
  terms ← mapM (λ za : Zernike * float,
             p ← Zernike_polynomial za.1 size normed outside;
             Ok (arr2_map (fmul za.2) p)) (zernikes self);
  Ok (np_sum_axis0 terms).

Definition ZernikeWavefront_phase (self : ZernikeWavefront)
    (rho theta : list (list float)) (normed : bool) (outside : option float)
  : result (list (list float)) :=
  terms ← mapM (λ za : Zernike * float,
             p ← Zernike_phase za.1 rho theta normed outside;
             Ok (arr2_map (fmul za.2) p)) (zernikes self);
  Ok (np_sum_axis0 terms).

(** The class defines no [__setattr__]: assignments go to
    [object.__setattr__] and always succeed. *)
Inductive WavefrontAttr :=
  | WAttr_zernikes (v : list (Zernike * float))
  | WAttr_amplitudes_noll (v : list float)
  | WAttr_amplitudes_ansi (v : list float)
  | WAttr_amplitudes_requested (v : list float).

Definition ZernikeWavefront_setattr (self : ZernikeWavefront) (a : WavefrontAttr)
  : ZernikeWavefront * result () :=
  (match a with
   | WAttr_zernikes v =>
       {| zernikes := v; amplitudes_noll := amplitudes_noll self;
          amplitudes_ansi := amplitudes_ansi self;
          amplitudes_requested := amplitudes_requested self |}
   | WAttr_amplitudes_noll v =>
       {| zernikes := zernikes self; amplitudes_noll := v;
          amplitudes_ansi := amplitudes_ansi self;
          amplitudes_requested := amplitudes_requested self |}
   | WAttr_amplitudes_ansi v =>
       {| zernikes := zernikes self; amplitudes_noll := amplitudes_noll self;
          amplitudes_ansi := v;
          amplitudes_requested := amplitudes_requested self |}
   | WAttr_amplitudes_requested v =>
       {| zernikes := zernikes self; amplitudes_noll := amplitudes_noll self;
          amplitudes_ansi := amplitudes_ansi self;
          amplitudes_requested := v |}
   end, Ok ()).

(** ** PSF propagator *)

Record PsfGenerator3D := {
  na_detection : R;
  p_n : R;
  lam_detection : R;
  nz : Z; ny : Z; nx : Z;
  dz : R; dy : R; dx : R;
  p_masked : bool;
  switch : bool;
  kz3 : list (list (list float));
  ky3 : list (list (list float));
  kx3 : list (list (list float));
  k_cut : R;
  k_mask3 : list (list (list bool));
  p_h : list (list (list float));
  k_prop : list (list (list complex));
  k_base : list (list (list complex));
  k_rho : list (list float);
  k_phi : list (list float);
  k_mask2 : list (list bool)
}.

(** [np.fft.fftshift] of a one-dimensional array. *)
Definition np_fftshift {A} (x : list A) : list A := np_roll (length x `div` 2) x.

(** Division of two Python floats. *)
Definition py_div (a b : R) : result R :=
  if decide (b = 0%R) then Raise ZeroDivisionError else Ok (a / b)%R.

(** [sqrt(ky ** 2 + kx ** 2)] and [sqrt(1. * n ** 2 - kr ** 2 * lam ** 2)] at
    one point. *)
Definition kr_pt (y x : float) : float := fsqrt (fadd (fpow y 2) (fpow x 2)).
Definition h_pt (n lam : R) (r : float) : float :=
  fsqrt (fsub (Fin (1 * n ^ 2)) (fmul (fpow r 2) (Fin (lam ^ 2)))).

(** The defocus phase factor [exp(-2j * pi * z / lam * h)] at one point. *)
Definition k_prop_pt (lam : R) (z h : float) : complex :=
  cexp (cmul (cdiv (cmul (cmul (Cx 0 (-2)) (Cx PI 0)) (of_float z)) (Cx lam 0))
             (of_float h)).

Definition PsfGenerator3D_init (psf_shape : Z * Z * Z) (units : R * R * R)
    (lam_detection n na_detection : R) (masked switch : bool)
  : result PsfGenerator3D :=
  let '(nz, ny, nx) := psf_shape in
  let '(dz, dy, dx) := units in
  ky ← np_fftshift <$> np_fftfreq ny dy;
  kx ← np_fftshift <$> np_fftfreq nx dx;
  let z :=
    if bool_decide (nz `mod` 2 = 0)
    then (λ i, fmul (Fin dz) (fsub (of_Z i) (Fin (IZR (nz - 1) / 2)))) <$> np_arange nz
    else (λ i, fmul (Fin dz) (fsub (of_Z i) (of_Z (nz `div` 2)))) <$> np_arange nz in
  let '(kz3, ky3, kx3) := meshgrid3 z ky kx in
  k_cut ← py_div (1 * na_detection) lam_detection;
  let kr3 := arr3_zip kr_pt ky3 kx3 in
  let k_mask3 := arr3_map (λ r, flt r (Fin k_cut)) kr3 in
  let h := arr3_map (h_pt n lam_detection) kr3 in
  let k_prop := arr3_zip (k_prop_pt lam_detection) kz3 h in
  let k_prop := arr3_set_where k_prop (arr3_map fisnan h) (Cx 0 0) in
  let k_base :=
    if masked
    then arr3_zip (λ (b : bool) p, cmul (of_float (of_bool b)) p) k_mask3 k_prop
    else k_prop in
  let '(ky2, kx2) := meshgrid2 ky kx in
  let kr2 := arr2_zip np_hypot ky2 kx2 in
  let k_rho := if switch then arr2_map (λ r, fdiv r (Fin k_cut)) kr2 else kr2 in
  Ok {| na_detection := na_detection; p_n := n; lam_detection := lam_detection;
        nz := nz; ny := ny; nx := nx; dz := dz; dy := dy; dx := dx;
        p_masked := masked; switch := switch;
        kz3 := kz3; ky3 := ky3; kx3 := kx3;
        k_cut := k_cut; k_mask3 := k_mask3; p_h := h;
        k_prop := k_prop; k_base := k_base;
        k_rho := k_rho;
        k_phi := arr2_zip np_arctan2 ky2 kx2;
        k_mask2 := arr2_map (λ r, flt r (Fin k_cut)) kr2 |}.

Definition my_ifftn : list (list (list complex)) → list (list (list complex)) :=
  np_ifftn_12.
(** The lambda is called [my_ifftshift]; it calls [np.fft.fftshift]. *)
Definition my_ifftshift {A} : list (list (list A)) → list (list (list A)) :=
  np_fftshift_12.

(** The [phi] argument: any object with a [phase] method. *)
Inductive Phi :=
  | PhiZernike (z : Zernike)
  | PhiWavefront (w : ZernikeWavefront).

Definition phi_phase (phi : Phi) (rho theta : list (list float)) (normed : bool)
    (outside : option float) : result (list (list float)) :=
  match phi with
  | PhiZernike z => Zernike_phase z rho theta normed outside
  | PhiWavefront w => ZernikeWavefront_phase w rho theta normed outside
  end.

Definition masked_phase (self : PsfGenerator3D) (phi : Phi) (normed masked : bool)
  : result (list (list float)) :=
  if masked then
    p ← phi_phase phi (k_rho self) (k_phi self) normed None;
    Ok (arr2_zip (λ (b : bool) x, fmul (of_bool b) x) (k_mask2 self) p)
  else phi_phase phi (k_rho self) (k_phi self) normed None.

(** The aberration factor [exp(2j * pi * phi / lam)] at one point. *)
Definition aberration_pt (lam : R) (phi : float) : complex :=
  cexp (cdiv (cmul (cmul (Cx 0 2) (Cx PI 0)) (of_float phi)) (Cx lam 0)).

Definition coherent_psf (self : PsfGenerator3D) (phi : Phi) (normed masked : bool)
  : result (list (list (list complex))) :=
  phi ← masked_phase self phi normed masked;
  let ku := arr3_bcast cmul (k_base self)
              (arr2_map (aberration_pt (lam_detection self)) phi) in
  Ok (my_ifftn ku).

Definition incoherent_psf (self : PsfGenerator3D) (phi : Phi) (normed masked : bool)
  : result (list (list (list complex))) :=
  psf ← coherent_psf self phi normed masked;
  Ok (my_ifftshift psf).

Definition incoherent_psf_abs (self : PsfGenerator3D) (phi : Phi) (normed masked : bool)
  : result (list (list (list float))) :=
  psf ← (arr3_map (λ c, fpow (cabs c) 2)) <$> coherent_psf self phi normed masked;
  Ok (my_ifftshift psf).

(** ** Values and predicates the statements use *)

(** The canonical name of an ANSI index, if it has one. *)
Definition ansi_name (j : Z) : option string :=
  if bool_decide (j < 15) then ansi_names !! Z.to_nat j else None.

(** The object with descriptor [(n, m)] that every construction path ends in. *)
Definition mk_zernike (n m : Z) : Zernike :=
  {| z_n := n; z_m := m; z_index_noll := noll n m;
     z_index_ansi := nm_to_ansi n m; z_name := ansi_name (nm_to_ansi n m);
     z_mutable := false; z_dict := ∅ |}.

(** What the methods rely on about the class attributes. *)
Record cls_spec (cls : ZernikeCls) : Prop := {
  cls_names : _ansi_names cls = ansi_names;
  cls_pairs : ∀ n m, (n, m) ∈ _nm_pairs cls ↔ valid_nm n m;
  cls_noll : ∀ j n m,
    _noll_to_nm cls !! j = Some (n, m) ↔ valid_nm n m ∧ noll n m = j;
  cls_ansi : ∀ j n m,
    _ansi_to_nm cls !! j = Some (n, m) ↔ valid_nm n m ∧ nm_to_ansi n m = j
}.

(** Keys of a [zernikes] dictionary: constructed objects, pairwise different. *)
Definition zkeys_ok (d : list (Zernike * float)) : Prop :=
  Forall (λ kv, ∃ n m, valid_nm n m ∧ kv.1 = mk_zernike n m) d ∧ NoDup d.*1.

(** [ZernikeWavefront([1., 2., 3.])] *)
Definition wavefront_123 : ZernikeWavefront :=
  {| zernikes := [(mk_zernike 0 0, Fin 1); (mk_zernike 1 1, Fin 2);
                  (mk_zernike 1 (-1), Fin 3)];
     amplitudes_noll := [Fin 1; Fin 2; Fin 3];
     amplitudes_ansi := [Fin 1; Fin 3; Fin 2];
     amplitudes_requested := [Fin 1; Fin 3; Fin 2] |}.

(** An array all of whose entries are numbers. *)
Definition arr2_finite (a : list (list float)) : Prop :=
  Forall (Forall (λ x, fisnan x = false)) a.

(** The sum of a sequence of numbers, from its first entry on. *)
Definition sum_list (vals : list float) : float :=
  match vals with
  | [] => of_Z 0
  | v :: rest => foldl fadd v rest
  end.

(** The value the per-mode [phase] leaves at a point with coordinates
    [(r, t)]: the substitute where the degree-0 polynomial is below one (when
    a substitute is given), the polynomial otherwise. *)
Definition phase_pt (n m : Z) (normed : bool) (outside : option float)
    (r t : float) : float :=
  match outside with
  | Some v =>
      if flt (nm_polynomial_pt 0 0 false r t) (Fin 1) then v
      else nm_polynomial_pt n m normed r t
  | None => nm_polynomial_pt n m normed r t
  end.

(** The [z] axis of the stack. *)
Definition z_axis (nz : Z) (dz : R) : list float :=
  if bool_decide (nz `mod` 2 = 0)
  then (λ i, fmul (Fin dz) (fsub (of_Z i) (Fin (IZR (nz - 1) / 2)))) <$> np_arange nz
  else (λ i, fmul (Fin dz) (fsub (of_Z i) (of_Z (nz `div` 2)))) <$> np_arange nz.

(** The propagator [__init__] leaves behind, given the two frequency axes
    and the cutoff frequency. *)
Definition psf_build (psf_shape : Z * Z * Z) (units : R * R * R)
    (lam n na : R) (masked sw : bool) (ky kx : list float) (kc : R)
  : PsfGenerator3D :=
  let z := z_axis psf_shape.1.1 units.1.1 in
  let m3 := meshgrid3 z ky kx in
  let kr3 := arr3_zip kr_pt m3.1.2 m3.2 in
  let h := arr3_map (h_pt n lam) kr3 in
  let k_mask3 := arr3_map (λ r, flt r (Fin kc)) kr3 in
  let k_prop :=
    arr3_set_where (arr3_zip (k_prop_pt lam) m3.1.1 h) (arr3_map fisnan h) (Cx 0 0) in
  let m2 := meshgrid2 ky kx in
  let kr2 := arr2_zip np_hypot m2.1 m2.2 in
  {| na_detection := na; p_n := n; lam_detection := lam;
     nz := psf_shape.1.1; ny := psf_shape.1.2; nx := psf_shape.2;
     dz := units.1.1; dy := units.1.2; dx := units.2;
     p_masked := masked; switch := sw;
     kz3 := m3.1.1; ky3 := m3.1.2; kx3 := m3.2;
     k_cut := kc; k_mask3 := k_mask3; p_h := h;
     k_prop := k_prop;
     k_base :=
       if masked
       then arr3_zip (λ (b : bool) p, cmul (of_float (of_bool b)) p) k_mask3 k_prop
       else k_prop;
     k_rho := if sw then arr2_map (λ r, fdiv r (Fin kc)) kr2 else kr2;
     k_phi := arr2_zip np_arctan2 m2.1 m2.2;
     k_mask2 := arr2_map (λ r, flt r (Fin kc)) kr2 |}.

(** The radicand [n^2 - (kx^2 + ky^2) * lam^2] and the defocus transfer term
    [exp(-2 pi i * z/lam * sqrt(radicand))]. *)
Definition radicand (n lam ky kx : R) : R :=
  (n ^ 2 - (kx ^ 2 + ky ^ 2) * lam ^ 2)%R.
Definition defocus_term (n lam z ky kx : R) : complex :=
  cexp (Cx 0 (-2 * PI * (z / lam) * sqrt (radicand n lam ky kx))).

(** A one-dimensional array all of whose entries are numbers. *)
Definition list_finite (l : list float) : Prop := Forall (λ x, fisnan x = false) l.

(** The frequency axis [np.fft.fftshift(np.fft.fftfreq(n, d))]. *)
Definition freq_axis (n : Z) (d : R) : list float :=
  np_fftshift ((λ k, Fin (IZR k * (1 / (IZR n * d)))) <$>
               (seqZ 0 ((n - 1) `div` 2 + 1) ++ seqZ (- (n `div` 2)) (n `div` 2))).

(** An object a constructor has returned. *)
Definition phi_constructed (phi : Phi) : Prop :=
  match phi with
  | PhiZernike z => ∃ index order, Zernike_init index order = Ok z
  | PhiWavefront w => ∃ amplitudes order, ZernikeWavefront_init amplitudes order = Ok w
  end.

(** [PsfGenerator3D((1, 1, 3), (1., 1., 1.), 1., 1., 0.25, switch=False)] *)
Definition psf_ex : PsfGenerator3D :=
  psf_build (1, 1, 3) (1%R, 1%R, 1%R) 1 1 (1/4) true false
    (freq_axis 1 1) (freq_axis 3 1) (1 * (1 / 4) / 1).

(** ** Further values and predicates the statements use *)

(** [s.isascii()]: every character is below 128.  On such strings
    [str_isdigit], [str_lower] and [int_of_str] are Python's [str.isdigit],
    [str.lower] and [int]; the statements about string indices are made for
    them. *)
Fixpoint str_isascii (s : string) : bool :=
  match s with
  | EmptyString => true
  | String c s' => (nat_of_ascii c <? 128)%nat && str_isascii s'
  end.
Definition index_isascii (index : PyIndex) : bool :=
  match index with IStr s => str_isascii s | _ => true end.
Definition amplitudes_isascii (amplitudes : PyAmplitudes) : bool :=
  match amplitudes with
  | AmpDict items => forallb (λ ja : PyIndex * PyAmp, index_isascii ja.1) items
  | _ => true
  end.

(** On coordinate arrays of one shape [nm_polynomial] returns an array of
    that shape, which holds the value [v] wherever the coordinates are the
    numbers [r] and [t]. *)
Definition evaluates_to (zn zm : Z) (normed : bool) (r t v : R) : Prop :=
  ∀ (rows cols : nat) (rho theta : list (list float)) (i j : nat),
    is_arr2 rows cols rho → is_arr2 rows cols theta →
    arr2_get rho i j = Some (Fin r) → arr2_get theta i j = Some (Fin t) →
    ∃ p, nm_polynomial zn zm rho theta normed = Ok p ∧ is_arr2 rows cols p ∧
         arr2_get p i j = Some (Fin v).

(** The normalisation factor [sqrt((2n + 2) / ((1 + [m = 0]) pi))]. *)
Definition norm_factor (zn zm : Z) : R :=
  sqrt (IZR (2 * zn + 2) / ((if bool_decide (zm = 0%Z) then 2 else 1) * PI)).

(** The uniform grid of [rho_theta(size)] on [[-1, 1]]: the coordinate of
    index [i] along either axis, and the polar coordinates of the grid point
    in row [i] and column [j]. *)
Definition grid_coord (size : Z) (i : nat) : R :=
  (IZR (Z.of_nat i) * ((1 - -1) / IZR (size - 1)) + -1)%R.
Definition grid_rho (size : Z) (i j : nat) : R :=
  sqrt (grid_coord size i * grid_coord size i + grid_coord size j * grid_coord size j).
Definition grid_theta (size : Z) (i j : nat) : R :=
  arctan2 (grid_coord size i) (grid_coord size j).

(** The index-to-amplitude dictionaries [{z.index_noll: a ...}] and
    [{z.index_ansi: a ...}] of a [zernikes] dictionary with distinct modes. *)
Definition noll_items (zs : list (Zernike * float)) : list (Z * float) :=
  (λ za, (z_index_noll za.1, za.2)) <$> zs.
Definition ansi_items (zs : list (Zernike * float)) : list (Z * float) :=
  (λ za, (z_index_ansi za.1, za.2)) <$> zs.

(** [ZernikeWavefront({4: 1., (2, 0): 2.})]: both keys denote defocus. *)
Definition wavefront_defocus_twice : ZernikeWavefront :=
  {| zernikes := [(mk_zernike 2 0, Fin 2)];
     amplitudes_noll := [of_Z 0; of_Z 0; of_Z 0; Fin 2];
     amplitudes_ansi := [of_Z 0; of_Z 0; of_Z 0; of_Z 0; Fin 2];
     amplitudes_requested := [Fin 2] |}.

(** The coordinates of the stack: the defocus of plane [i] and the lateral
    frequency of index [i] on an axis of [n] samples with spacing [d]
    (frequencies ascend and the zero frequency sits at index [n // 2]). *)
Definition z_coord (nz : Z) (dz : R) (i : nat) : R :=
  (dz * (IZR (Z.of_nat i) - (IZR nz - 1) / 2))%R.
Definition freq_coord (n : Z) (d : R) (i : nat) : R :=
  (IZR (Z.of_nat i - n `div` 2) * (1 / (IZR n * d)))%R.

(** ** Random wavefronts

    An amplitude range is a number [v] (standing for [(-v, v)]), a tuple or
    list of two numbers, or a value that is neither a scalar nor a tuple or
    list of length two.  [ensure_dict] is applied to the ranges as it is to
    amplitudes.  The random source is the sequence
    of the standard uniform samples [np.random.uniform] draws, one for each
    item in order: [uniform(low, high)] is [low + (high - low) * u] with
    [0 <= u < 1]. *)

Inductive PyRange :=
  | RScalar (v : float)
  | RPair (lo hi : float)
  | ROther.

Inductive PyRanges :=
  | RangeDict (items : list (PyIndex * PyRange))
  | RangeArray (values : list float)
  | RangeSeq (values : list PyRange)
  | RangeOther.

Definition ensure_dict_ranges (values : PyRanges) (order : string)
  : result (list (PyIndex * PyRange)) :=
  match values with
  | RangeDict items => Ok items
  | RangeOther => Raise (ValueError "Could not identify the data type for dictionary formation")
  | _ =>
      let values :=
        match values with
        | RangeArray vs => RScalar <$> vs
        | RangeSeq vs => vs
        | _ => []
        end in
      let order := str_lower order in
      _ ← or_present (bool_decide (order ∈ ["noll"; "ansi"]%string))
            (ValueError "Could not identify the Zernike nomenclature/order");
      let offset := if bool_decide (order = "noll"%string) then 1 else 0 in
      let indices := py_range offset (offset + Z.of_nat (length values)) 1 in
      Ok (zip (IInt <$> indices) values)
  end.

Definition fneg (a : float) : float :=
  match a with Fin x => Fin (- x) | NaN => NaN end.

Definition np_random_uniform (u : R) (low high : float) : float :=
  fadd low (fmul (fsub high low) (Fin u)).

(** The bounds [(-v, v) if np.isscalar(v) else v] of a range that passed the
    first check. *)
Definition range_bounds (v : PyRange) : float * float :=
  match v with
  | RScalar v => (fneg v, v)
  | RPair lo hi => (lo, hi)
  | ROther => (NaN, NaN)
  end.

Definition random_wavefront_in (cls : ZernikeCls) (draws : nat → R)
    (amplitude_ranges : PyRanges) (order : string) : result ZernikeWavefront :=
  amplitude_ranges ← ensure_dict_ranges amplitude_ranges order;
  _ ← or_present
        (forallb (λ kv : PyIndex * PyRange,
                    match kv.2 with
                    | RScalar v => fle (of_Z 0) v
                    | RPair _ _ => true
                    | ROther => false
                    end) amplitude_ranges)
        (ValueError "false in one elements of the iterable");
  let amplitude_ranges :=
    (λ kv : PyIndex * PyRange, (kv.1, range_bounds kv.2)) <$> amplitude_ranges in
  _ ← or_present
        (forallb (λ kv : PyIndex * (float * float), fle kv.2.1 kv.2.2) amplitude_ranges)
        (ValueError "Lower bound is expected to be less than the upper bound");
  ZernikeWavefront_init_in cls
    (AmpDict (imap (λ i (kv : PyIndex * (float * float)),
                      (kv.1, AmpScalar (np_random_uniform (draws i) kv.2.1 kv.2.2)))
                   amplitude_ranges)) order.

Definition random_wavefront : (nat → R) → PyRanges → string → result ZernikeWavefront :=
  random_wavefront_in Zernike_cls.
Arguments random_wavefront : simpl never.

(** The value [a] lies within the range [rng]. *)
Definition within_range (rng : PyRange) (a : float) : Prop :=
  match rng, a with
  | RScalar (Fin v), Fin x => (- v <= x <= v)%R
  | RPair (Fin lo) (Fin hi), Fin x => (lo <= x <= hi)%R
  | _, _ => False
  end.

(** A range the checks of [random_wavefront] reject. *)
Definition invalid_range (rng : PyRange) : Prop :=
  match rng with
  | RScalar v => fle (of_Z 0) v = false
  | RPair lo hi => fle lo hi = false
  | ROther => True
  end.

(** [ZernikeWavefront.random_wavefront([(-1., 1.)])] when the sample drawn is
    [1/2]. *)
Definition wavefront_sample : ZernikeWavefront :=
  {| zernikes := [(mk_zernike 0 0, np_random_uniform (1 / 2) (Fin (-1)) (Fin 1))];
     amplitudes_noll := [np_random_uniform (1 / 2) (Fin (-1)) (Fin 1)];
     amplitudes_ansi := [np_random_uniform (1 / 2) (Fin (-1)) (Fin 1)];
     amplitudes_requested := [np_random_uniform (1 / 2) (Fin (-1)) (Fin 1)] |}.

(** * Proofs *)

Lemma mapM_result_total {A B} (f : A → result B) (g : A → B) (l : list A) :
  (∀ x, x ∈ l → f x = Ok (g x)) → mapM f l = Ok (g <$> l).
Proof.
  induction l as [|x l IH]; intros Hf; [done|].
  cbn. rewrite (Hf x) by left. cbn.
  rewrite IH; [done|]. intros y Hy. apply Hf. by right.
Qed.

(** ** Index translator *)

Lemma mod4_cases (n : Z) :
  n `mod` 4 = 0 ∨ n `mod` 4 = 1 ∨ n `mod` 4 = 2 ∨ n `mod` 4 = 3.
Proof. lia. Qed.

Lemma in_pair_spec (x a b : Z) : in_pair x a b = true ↔ x = a ∨ x = b.
Proof.
  unfold in_pair. rewrite orb_true_iff, !bool_decide_eq_true. tauto.
Qed.

Ltac case_in_pair :=
  repeat match goal with
  | |- context [in_pair ?x ?a ?b] =>
      let H := fresh "Hp" in
      destruct (in_pair x a b) eqn:H;
      [apply in_pair_spec in H
      |apply not_true_iff_false in H; rewrite in_pair_spec in H]
  | |- context [bool_decide ?P] => case_bool_decide
  end.

Lemma nm_to_noll_ok (n m : Z) : nm_to_noll n m = Ok (noll n m).
Proof.
  unfold nm_to_noll, noll. pose proof (mod4_cases n) as Hn.
  case_in_pair; cbn; try (f_equal; lia); exfalso; lia.
Qed.

Lemma elem_of_py_range (x start stop step : Z) :
  0 < step →
  x ∈ py_range start stop step ↔
  start ≤ x < stop ∧ (x - start) `mod` step = 0.
Proof.
  intros Hstep. unfold py_range. rewrite list_elem_of_fmap. split.
  - intros (i & -> & Hi). apply elem_of_seqZ in Hi.
    replace (start + i * step - start) with (i * step) by lia.
    rewrite Z.mod_mul by lia. split; [|done]. nia.
  - intros [Hx Hmod]. exists ((x - start) `div` step).
    rewrite elem_of_seqZ. split; [|nia].
    pose proof (Z.div_mod (x - start) step). lia.
Qed.

Lemma elem_of_nm_pairs (n m : Z) : (n, m) ∈ nm_pairs ↔ valid_nm n m.
Proof.
  unfold nm_pairs, nm_pairs_list, valid_nm.
  rewrite elem_of_list_to_set, list_elem_of_bind. split.
  - intros (n' & Hm & Hn). apply elem_of_py_range in Hn; [|lia].
    apply list_elem_of_bind in Hm as (m' & Heq & Hm).
    apply list_elem_of_singleton in Heq. simplify_eq.
    apply elem_of_py_range in Hm; lia.
  - intros (Hn & Hm & Hpar). exists n. split.
    + apply list_elem_of_bind. exists m. split; [by apply list_elem_of_singleton|].
      apply elem_of_py_range; lia.
    + apply elem_of_py_range; lia.
Qed.

Lemma triangular_even (n : Z) : (n * (n + 1)) `mod` 2 = 0.
Proof.
  destruct (Z.even n) eqn:He.
  - apply Z.even_spec in He as [k ->].
    replace (2 * k * (2 * k + 1)) with ((k * (2 * k + 1)) * 2) by lia.
    apply Z.mod_mul. lia.
  - apply (f_equal negb) in He. rewrite Z.negb_even in He.
    apply Z.odd_spec in He as [k ->].
    replace ((2 * k + 1) * (2 * k + 1 + 1)) with (((2 * k + 1) * (k + 1)) * 2) by lia.
    apply Z.mod_mul. lia.
Qed.

Lemma triangular_step (n n' : Z) :
  0 ≤ n → n < n' → n * (n + 1) + 2 * n + 2 ≤ n' * (n' + 1).
Proof. nia. Qed.

Lemma noll_range (n m : Z) :
  0 ≤ n → Z.abs m ≤ n →
  n * (n + 1) + 2 ≤ 2 * noll n m ≤ n * (n + 1) + 2 * n + 2.
Proof.
  intros Hn Hm. unfold noll. pose proof (triangular_even n) as He.
  set (P := n * (n + 1)) in *. clearbody P.
  case_in_pair; cbn; lia.
Qed.

Lemma noll_inj (n m n' m' : Z) :
  valid_nm n m → valid_nm n' m' → noll n m = noll n' m' → (n, m) = (n', m').
Proof.
  intros (Hn & Hm & Hp) (Hn' & Hm' & Hp') Heq.
  pose proof (noll_range n m ltac:(lia) Hm) as Hr.
  pose proof (noll_range n' m' ltac:(lia) Hm') as Hr'.
  assert (n = n') as <-.
  { destruct (Z.lt_trichotomy n n') as [Hlt|[?|Hlt]]; [|done|].
    - pose proof (triangular_step n n' ltac:(lia) Hlt). lia.
    - pose proof (triangular_step n' n ltac:(lia) Hlt). lia. }
  f_equal. clear Hr Hr'. unfold noll in Heq.
  set (P := n * (n + 1)) in *. clearbody P.
  revert Heq. case_in_pair; cbn; lia.
Qed.

Lemma ansi_range (n m : Z) :
  0 ≤ n → Z.abs m ≤ n → (n - m) `mod` 2 = 0 →
  2 * nm_to_ansi n m = n * (n + 1) + n + m.
Proof.
  intros Hn Hm Hp. unfold nm_to_ansi. pose proof (triangular_even n) as He.
  replace (n * (n + 2)) with (n * (n + 1) + n) by lia.
  set (P := n * (n + 1)) in *. clearbody P. lia.
Qed.

Lemma ansi_inj (n m n' m' : Z) :
  valid_nm n m → valid_nm n' m' →
  nm_to_ansi n m = nm_to_ansi n' m' → (n, m) = (n', m').
Proof.
  intros (Hn & Hm & Hp) (Hn' & Hm' & Hp') Heq.
  pose proof (ansi_range n m ltac:(lia) Hm Hp) as Hr.
  pose proof (ansi_range n' m' ltac:(lia) Hm' Hp') as Hr'.
  assert (n = n') as <-.
  { destruct (Z.lt_trichotomy n n') as [Hlt|[?|Hlt]]; [|done|].
    - pose proof (triangular_step n n' ltac:(lia) Hlt). lia.
    - pose proof (triangular_step n' n ltac:(lia) Hlt). lia. }
  f_equal. lia.
Qed.

(** ** Reverse lookup tables *)

Lemma dict_zip_snoc {V} (key : V → Z) (l : list V) (y : V) :
  dict_zip (key <$> (l ++ [y])) (l ++ [y]) =
  <[key y := y]> (dict_zip (key <$> l) l).
Proof.
  unfold dict_zip. rewrite fmap_app, zip_with_app by by rewrite length_fmap.
  by rewrite foldl_app.
Qed.

Lemma dict_zip_lookup_Some {V} (key : V → Z) (l : list V) (j : Z) (v : V) :
  dict_zip (key <$> l) l !! j = Some v → v ∈ l ∧ key v = j.
Proof.
  induction l as [|y l IH] using rev_ind; [done|].
  rewrite dict_zip_snoc, lookup_insert. case_decide as Hk.
  - intros [= <-]. split; [|done]. apply elem_of_app. right. by left.
  - intros [Hv Hkey]%IH. split; [|done]. apply elem_of_app. by left.
Qed.

Lemma dict_zip_lookup {V} (key : V → Z) (l : list V) (x : V) :
  x ∈ l → (∀ y, y ∈ l → key y = key x → y = x) →
  dict_zip (key <$> l) l !! key x = Some x.
Proof.
  induction l as [|y l IH] using rev_ind; [by intros ?%elem_of_nil|].
  intros Hx Hinj. rewrite dict_zip_snoc, lookup_insert. case_decide as Hk.
  - f_equal. apply Hinj; [|done]. apply elem_of_app. right. by left.
  - apply IH.
    + apply elem_of_app in Hx as [?|Hx]; [done|].
      apply list_elem_of_singleton in Hx. by subst.
    + intros z Hz. apply Hinj. apply elem_of_app. by left.
Qed.

Lemma Zernike_class_ok : Zernike_class = Ok Zernike_cls.
Proof.
  unfold Zernike_class, Zernike_cls.
  rewrite (mapM_result_total _ (λ nm, noll nm.1 nm.2)); [done|].
  intros nm _. apply nm_to_noll_ok.
Qed.

Lemma noll_to_nm_lookup (n m : Z) :
  valid_nm n m → _noll_to_nm Zernike_cls !! noll n m = Some (n, m).
Proof.
  intros Hv. cbn.
  apply (dict_zip_lookup (λ nm, noll nm.1 nm.2) _ (n, m)).
  - by apply elem_of_elements, elem_of_nm_pairs.
  - intros [n' m'] Hin%elem_of_elements%elem_of_nm_pairs Heq.
    by apply noll_inj.
Qed.

Lemma ansi_to_nm_lookup (n m : Z) :
  valid_nm n m → _ansi_to_nm Zernike_cls !! nm_to_ansi n m = Some (n, m).
Proof.
  intros Hv. cbn.
  apply (dict_zip_lookup (λ nm, nm_to_ansi nm.1 nm.2) _ (n, m)).
  - by apply elem_of_elements, elem_of_nm_pairs.
  - intros [n' m'] Hin%elem_of_elements%elem_of_nm_pairs Heq.
    by apply ansi_inj.
Qed.

Lemma noll_to_nm_Some (j n m : Z) :
  _noll_to_nm Zernike_cls !! j = Some (n, m) → valid_nm n m ∧ noll n m = j.
Proof.
  cbn. intros [Hin Hk]%dict_zip_lookup_Some.
  by apply elem_of_elements, elem_of_nm_pairs in Hin.
Qed.

Lemma ansi_to_nm_Some (j n m : Z) :
  _ansi_to_nm Zernike_cls !! j = Some (n, m) → valid_nm n m ∧ nm_to_ansi n m = j.
Proof.
  cbn. intros [Hin Hk]%dict_zip_lookup_Some.
  by apply elem_of_elements, elem_of_nm_pairs in Hin.
Qed.

(** C2: for every descriptor of the enumerated set, the reverse Noll table
    at [nm_to_noll(n, m)] and the reverse ANSI table at [nm_to_ansi(n, m)]
    both hold [(n, m)]; the two index functions are injective on the set, and
    every entry of either table is a valid descriptor filed under its own
    index, so each translation is a bijection between the set and the keys of
    its table. *)
Theorem index_translation_roundtrip (n m : Z) :
  valid_nm n m →
  Zernike_class = Ok Zernike_cls ∧
  (∃ j, nm_to_noll n m = Ok j ∧ _noll_to_nm Zernike_cls !! j = Some (n, m)) ∧
  _ansi_to_nm Zernike_cls !! nm_to_ansi n m = Some (n, m) ∧
  (∀ n' m', valid_nm n' m' → nm_to_noll n' m' = nm_to_noll n m → (n', m') = (n, m)) ∧
  (∀ n' m', valid_nm n' m' → nm_to_ansi n' m' = nm_to_ansi n m → (n', m') = (n, m)) ∧
  (∀ j n' m', _noll_to_nm Zernike_cls !! j = Some (n', m') →
     valid_nm n' m' ∧ nm_to_noll n' m' = Ok j) ∧
  (∀ j n' m', _ansi_to_nm Zernike_cls !! j = Some (n', m') →
     valid_nm n' m' ∧ nm_to_ansi n' m' = j).
Proof.
  intros Hv. split; [apply Zernike_class_ok|]. split; [|split; [|split; [|split; [|split]]]].
  - exists (noll n m). split; [apply nm_to_noll_ok|by apply noll_to_nm_lookup].
  - by apply ansi_to_nm_lookup.
  - intros n' m' Hv'. rewrite !nm_to_noll_ok. intros [= Heq]. by apply noll_inj.
  - intros n' m' Hv' Heq. by apply ansi_inj.
  - intros j n' m' [Hv' <-]%noll_to_nm_Some. split; [done|apply nm_to_noll_ok].
  - intros j n' m'. apply ansi_to_nm_Some.
Qed.

Lemma index_translation_roundtrip_witness :
  valid_nm 3 (-1) ∧
  Zernike_class = Ok Zernike_cls ∧
  (∃ j, nm_to_noll 3 (-1) = Ok j ∧ _noll_to_nm Zernike_cls !! j = Some (3, -1)) ∧
  _ansi_to_nm Zernike_cls !! nm_to_ansi 3 (-1) = Some (3, -1) ∧
  (∀ n' m', valid_nm n' m' → nm_to_noll n' m' = nm_to_noll 3 (-1) → (n', m') = (3, -1)) ∧
  (∀ n' m', valid_nm n' m' → nm_to_ansi n' m' = nm_to_ansi 3 (-1) → (n', m') = (3, -1)) ∧
  (∀ j n' m', _noll_to_nm Zernike_cls !! j = Some (n', m') →
     valid_nm n' m' ∧ nm_to_noll n' m' = Ok j) ∧
  (∀ j n' m', _ansi_to_nm Zernike_cls !! j = Some (n', m') →
     valid_nm n' m' ∧ nm_to_ansi n' m' = j).
Proof.
  assert (valid_nm 3 (-1)) as Hv by (unfold valid_nm; lia).
  split; [exact Hv|]. apply (index_translation_roundtrip 3 (-1)). exact Hv.
Defined.

#[global] Opaque nm_pairs.

(** ** Error monad *)

Lemma bind_Ok_inv {A B} (m : result A) (f : A → result B) (b : B) :
  m ≫= f = Ok b → ∃ a, m = Ok a ∧ f a = Ok b.
Proof. destruct m as [a|e]; [by exists a|done]. Qed.

Lemma fmap_Ok_inv {A B} (m : result A) (f : A → B) (b : B) :
  f <$> m = Ok b → ∃ a, m = Ok a ∧ b = f a.
Proof. destruct m as [a|e]; [|done]. intros [= <-]. by exists a. Qed.

(** ** Single-mode polynomial object *)

Lemma Zernike_cls_spec : cls_spec Zernike_cls.
Proof.
  split.
  - done.
  - apply elem_of_nm_pairs.
  - intros j n m. split; [apply noll_to_nm_Some|].
    intros [Hv <-]. by apply noll_to_nm_lookup.
  - intros j n m. split; [apply ansi_to_nm_Some|].
    intros [Hv <-]. by apply ansi_to_nm_lookup.
Qed.

Lemma ansi_nonneg (n m : Z) : valid_nm n m → 0 ≤ nm_to_ansi n m.
Proof.
  intros (Hn & Hm & Hp). pose proof (ansi_range n m ltac:(lia) Hm Hp). nia.
Qed.

Lemma py_getitem_lookup {A} (l : list A) (i : Z) :
  0 ≤ i < Z.of_nat (length l) →
  ∃ x, l !! Z.to_nat i = Some x ∧ py_getitem l i = Ok x.
Proof.
  intros Hi. unfold py_getitem, py_position.
  rewrite (bool_decide_eq_false_2 (i < 0)) by lia.
  rewrite bool_decide_eq_true_2 by lia. cbn.
  destruct (lookup_lt_is_Some_2 l (Z.to_nat i) ltac:(lia)) as [x Hx].
  exists x. by rewrite Hx.
Qed.

(** Once [n] and [m] are assigned, the rest of [__init__] is determined. *)
Lemma Zernike_init_tail (n m : Z) :
  valid_nm n m →
  nm_to_noll n m ≫= (λ index_noll : Z,
    (if bool_decide (nm_to_ansi n m < Z.of_nat (length ansi_names))
     then Some <$> py_getitem ansi_names (nm_to_ansi n m)
     else Ok None) ≫= λ name : option string,
       Ok {| z_n := n; z_m := m; z_index_noll := index_noll;
             z_index_ansi := nm_to_ansi n m; z_name := name;
             z_mutable := false; z_dict := ∅ |}) = Ok (mk_zernike n m).
Proof.
  intros Hv. rewrite nm_to_noll_ok. cbn.
  pose proof (ansi_nonneg n m Hv) as Hpos.
  unfold mk_zernike, ansi_name. change (Z.of_nat 15) with 15.
  destruct (bool_decide (nm_to_ansi n m < 15)) eqn:Hlt; [|done].
  apply bool_decide_eq_true in Hlt.
  destruct (py_getitem_lookup ansi_names (nm_to_ansi n m)) as (x & Hx & ->).
  { change (Z.of_nat (length ansi_names)) with 15. lia. }
  cbn. by rewrite Hx.
Qed.

Lemma Zernike_init_in_pair (cls : ZernikeCls) (n m : Z) (order : string) :
  cls_spec cls → valid_nm n m →
  Zernike_init_in cls (ISeq [n; m]) order = Ok (mk_zernike n m).
Proof.
  intros Hcls Hv. unfold Zernike_init_in. cbn.
  rewrite bool_decide_eq_true_2 by by apply (cls_pairs _ Hcls). cbn.
  rewrite (cls_names _ Hcls). by apply Zernike_init_tail.
Qed.

Lemma Zernike_init_in_noll (cls : ZernikeCls) (j n m : Z) (order : string) :
  cls_spec cls → str_lower order = "noll"%string →
  _noll_to_nm cls !! j = Some (n, m) →
  Zernike_init_in cls (IInt j) order = Ok (mk_zernike n m).
Proof.
  intros Hcls Ho Hj. unfold Zernike_init_in. cbn. rewrite Ho, Hj. cbn.
  rewrite (cls_names _ Hcls).
  apply Zernike_init_tail. by apply (cls_noll _ Hcls) in Hj as [? _].
Qed.

Lemma Zernike_init_in_ansi (cls : ZernikeCls) (j n m : Z) (order : string) :
  cls_spec cls → str_lower order = "ansi"%string →
  _ansi_to_nm cls !! j = Some (n, m) →
  Zernike_init_in cls (IInt j) order = Ok (mk_zernike n m).
Proof.
  intros Hcls Ho Hj. unfold Zernike_init_in. cbn. rewrite Ho, Hj. cbn.
  rewrite (cls_names _ Hcls).
  apply Zernike_init_tail. by apply (cls_ansi _ Hcls) in Hj as [? _].
Qed.

(** A name is resolved to its position in the list and the order forced to
    ['ansi']. *)
Lemma Zernike_init_in_name (cls : ZernikeCls) (s : string) (i : Z) (order : string) :
  cls_spec cls → str_isdigit s = false →
  py_index (str_lower s) ansi_names = Ok i →
  Zernike_init_in cls (IStr s) order = Zernike_init_in cls (IInt i) "ansi".
Proof.
  intros Hcls Hd Hi. unfold Zernike_init_in. cbn.
  rewrite Hd, (cls_names _ Hcls), Hi.
  rewrite bool_decide_eq_true_2; [done|].
  unfold py_index in Hi.
  destruct (list_find _ ansi_names) as [[k y]|] eqn:Hf; [|done].
  apply list_find_Some in Hf as (Hk & -> & _).
  by eapply list_elem_of_lookup_2.
Qed.

Lemma Zernike_init_in_inv (cls : ZernikeCls) (index : PyIndex) (order : string)
    (z : Zernike) :
  cls_spec cls → Zernike_init_in cls index order = Ok z →
  ∃ n m, valid_nm n m ∧ z = mk_zernike n m.
Proof.
  intros Hcls. revert index order.
  assert (∀ j order, Zernike_init_in cls (IInt j) order = Ok z →
            ∃ n m, valid_nm n m ∧ z = mk_zernike n m) as Hint.
  { intros j order H. unfold Zernike_init_in in H. cbn in H.
    destruct (bool_decide (str_lower order ∈ ["noll"; "ansi"]%string)) eqn:Hord;
      [|done].
    cbn in H. destruct (bool_decide (str_lower order = "noll"%string)) eqn:Hn.
    - destruct (_noll_to_nm cls !! j) as [[n m]|] eqn:Hj; cbn in H.
      + pose proof (proj1 (cls_noll _ Hcls _ _ _) Hj) as [Hv _].
        rewrite (cls_names _ Hcls), Zernike_init_tail in H by done.
        exists n, m. split; [done|]. by simplify_eq.
      + done.
    - destruct (bool_decide (str_lower order = "ansi"%string)) eqn:Ha.
      + destruct (_ansi_to_nm cls !! j) as [[n m]|] eqn:Hj; cbn in H.
        * pose proof (proj1 (cls_ansi _ Hcls _ _ _) Hj) as [Hv _].
          rewrite (cls_names _ Hcls), Zernike_init_tail in H by done.
          exists n, m. split; [done|]. by simplify_eq.
        * done.
      + cbn in H. exfalso.
        apply bool_decide_eq_true in Hord. apply bool_decide_eq_false in Ha, Hn.
        apply elem_of_cons in Hord as [?|Hord]; [done|].
        by apply list_elem_of_singleton in Hord. }
  intros [s|j|l|] order H.
  - destruct (str_isdigit s) eqn:Hd.
    + unfold Zernike_init_in in H. cbn in H. rewrite Hd in H.
      by apply (Hint (int_of_str s) order).
    + destruct (py_index (str_lower s) ansi_names) as [i|] eqn:Hi.
      * rewrite (Zernike_init_in_name cls s i order Hcls Hd Hi) in H.
        by apply (Hint i "ansi"%string).
      * unfold Zernike_init_in in H. cbn in H.
        rewrite Hd, (cls_names _ Hcls), Hi in H.
        by destruct (bool_decide (str_lower s ∈ ansi_names)).
  - by apply (Hint j order).
  - destruct l as [|n [|m [|? ?]]]; try done.
    unfold Zernike_init_in in H. cbn in H.
    case_bool_decide as Hin; [|done]. cbn in H.
    apply (cls_pairs _ Hcls) in Hin. exists n, m. split; [done|].
    rewrite (cls_names _ Hcls) in H.
    rewrite Zernike_init_tail in H by done. by simplify_eq.
  - done.
Qed.

Lemma valid_nm_2_0 : valid_nm 2 0.
Proof. unfold valid_nm. lia. Qed.

Lemma Zernike_init_inv (index : PyIndex) (order : string) (z : Zernike) :
  Zernike_init index order = Ok z → ∃ n m, valid_nm n m ∧ z = mk_zernike n m.
Proof. apply Zernike_init_in_inv, Zernike_cls_spec. Qed.

Lemma Zernike_init_pair (n m : Z) (order : string) :
  valid_nm n m → Zernike_init (ISeq [n; m]) order = Ok (mk_zernike n m).
Proof. apply Zernike_init_in_pair, Zernike_cls_spec. Qed.

Lemma Zernike_init_noll (n m : Z) :
  valid_nm n m → Zernike_init (IInt (noll n m)) "noll" = Ok (mk_zernike n m).
Proof.
  intros Hv. apply Zernike_init_in_noll; [apply Zernike_cls_spec|done|].
  by apply noll_to_nm_lookup.
Qed.

Lemma Zernike_init_ansi (n m : Z) :
  valid_nm n m → Zernike_init (IInt (nm_to_ansi n m)) "ansi" = Ok (mk_zernike n m).
Proof.
  intros Hv. apply Zernike_init_in_ansi; [apply Zernike_cls_spec|done|].
  by apply ansi_to_nm_lookup.
Qed.

Lemma Zernike_init_name (s : string) (i : Z) (order : string) :
  str_isdigit s = false → py_index (str_lower s) ansi_names = Ok i →
  Zernike_init (IStr s) order = Zernike_init (IInt i) "ansi".
Proof. apply Zernike_init_in_name, Zernike_cls_spec. Qed.

(** C9: the constructions [Zernike(4, order='noll')], [Zernike((2, 0))] and
    [Zernike("defocus")] all succeed with descriptor [n = 2], [m = 0]; the
    three objects compare equal and each carries the name ["defocus"]. *)
Theorem defocus_construction_paths :
  ∃ a b c,
    Zernike_init (IInt 4) "noll" = Ok a ∧
    Zernike_init (ISeq [2; 0]) "noll" = Ok b ∧
    Zernike_init (IStr "defocus") "noll" = Ok c ∧
    (z_n a, z_m a) = (2, 0) ∧ (z_n b, z_m b) = (2, 0) ∧ (z_n c, z_m c) = (2, 0) ∧
    Zernike_eq a b = true ∧ Zernike_eq b c = true ∧ Zernike_eq a c = true ∧
    z_name a = Some "defocus"%string ∧ z_name b = Some "defocus"%string ∧
    z_name c = Some "defocus"%string.
Proof.
  exists (mk_zernike 2 0), (mk_zernike 2 0), (mk_zernike 2 0).
  split; [|split; [|split]].
  - apply (Zernike_init_noll 2 0 valid_nm_2_0).
  - apply Zernike_init_pair, valid_nm_2_0.
  - rewrite (Zernike_init_name "defocus" 4) by done.
    apply (Zernike_init_ansi 2 0 valid_nm_2_0).
  - by vm_compute.
Qed.

(** C6 (single-mode polynomial part): on an object that [__init__] has
    returned, every attribute assignment raises the error
    ['Zernike is immutable'] and the object is left as it was. *)
Theorem Zernike_immutable (index : PyIndex) (order : string) (z : Zernike)
    (a : ZernikeAttr) :
  Zernike_init index order = Ok z →
  Zernike_setattr z a = (z, Raise (AttributeError "Zernike is immutable")).
Proof.
  intros (n & m & _ & ->)%Zernike_init_inv. done.
Qed.

Lemma Zernike_immutable_witness :
  Zernike_init (ISeq [2; 0]) "noll" = Ok (mk_zernike 2 0) ∧
  Zernike_setattr (mk_zernike 2 0) (Attr_n 7) =
    (mk_zernike 2 0, Raise (AttributeError "Zernike is immutable")).
Proof.
  split; [apply Zernike_init_pair, valid_nm_2_0|].
  apply (Zernike_immutable (ISeq [2; 0]) "noll").
  apply Zernike_init_pair, valid_nm_2_0.
Defined.

(** ** Sorting *)

Section sorting.
Context {A : Type} (key : A → Z).
Let lt (a b : A) : bool := bool_decide (key a < key b).

Lemma insert_sorted_perm (x : A) (l : list A) : insert_sorted lt x l ≡ₚ x :: l.
Proof.
  induction l as [|y l IH]; cbn; [done|].
  destruct (lt x y); [done|]. rewrite IH. apply Permutation_swap.
Qed.

Lemma sorted_foldl_perm (acc l : list A) :
  foldl (λ acc x, insert_sorted lt x acc) acc l ≡ₚ acc ++ l.
Proof.
  revert acc. induction l as [|x l IH]; intros acc; cbn.
  - by rewrite app_nil_r.
  - rewrite IH, insert_sorted_perm. cbn. apply Permutation_middle.
Qed.

Lemma sorted_perm (l : list A) : sorted lt l ≡ₚ l.
Proof. apply (sorted_foldl_perm [] l). Qed.

Lemma insert_sorted_le (x : A) (l : list A) :
  StronglySorted (λ a b, key a ≤ key b) l →
  StronglySorted (λ a b, key a ≤ key b) (insert_sorted lt x l).
Proof.
  induction 1 as [|y l Hs IH Hy]; cbn; [repeat constructor|].
  unfold lt at 1. case_bool_decide as Hlt.
  - constructor; [by constructor|]. constructor; [lia|].
    eapply Forall_impl; [exact Hy|]. cbn. lia.
  - constructor; [done|]. rewrite insert_sorted_perm.
    constructor; [lia|done].
Qed.

Lemma sorted_le (l : list A) :
  StronglySorted (λ a b, key a ≤ key b) (sorted lt l).
Proof.
  unfold sorted. generalize (SSorted_nil (λ a b : A, key a ≤ key b)).
  generalize (@nil A). induction l as [|x l IH]; intros acc Hacc; cbn; [done|].
  by apply IH, insert_sorted_le.
Qed.

Lemma sorted_le_strict (l : list A) :
  NoDup (key <$> l) →
  StronglySorted (λ a b, key a ≤ key b) l →
  StronglySorted (λ a b, key a < key b) l.
Proof.
  induction l as [|x l IH]; intros Hnd Hs; [constructor|].
  rewrite fmap_cons in Hnd. apply NoDup_cons in Hnd as [Hx Hnd].
  apply StronglySorted_inv in Hs as [Hs Hall].
  constructor; [by apply IH|].
  apply Forall_forall. intros y Hy.
  rewrite Forall_forall in Hall. specialize (Hall y Hy).
  assert (key x ≠ key y); [|lia].
  intros Heq. apply Hx. rewrite Heq. by apply list_elem_of_fmap_2.
Qed.
End sorting.

(** ** Wavefront composer *)

Lemma foldlM_inv {A B} (P : A → Prop) (f : A → B → result A) (a r : A) (l : list B) :
  P a → (∀ a x a', P a → f a x = Ok a' → P a') → foldlM f a l = Ok r → P r.
Proof.
  intros Ha Hf. revert a Ha. induction l as [|x l IH]; intros a Ha H; cbn in H.
  - by simplify_eq.
  - apply bind_Ok_inv in H as (a' & Hfa & H). eauto.
Qed.

Lemma mapM_result_Forall2 {A B} (Q : A → B → Prop) (f : A → result B) (l : list A) :
  (∀ x, x ∈ l → ∃ y, f x = Ok y ∧ Q x y) →
  ∃ ys, mapM f l = Ok ys ∧ Forall2 Q l ys.
Proof.
  induction l as [|x l IH]; intros Hf.
  - exists []. by split; [|constructor].
  - destruct (Hf x) as (y & Hy & HQ); [by left|].
    destruct IH as (ys & Hys & HQs); [intros z Hz; apply Hf; by right|].
    exists (y :: ys). split; [|by constructor].
    cbn. rewrite Hy. cbn. by rewrite Hys.
Qed.

Lemma Zernike_eq_mk (n m n' m' : Z) :
  Zernike_eq (mk_zernike n m) (mk_zernike n' m') = true ↔
  mk_zernike n m = mk_zernike n' m'.
Proof.
  unfold Zernike_eq. rewrite bool_decide_eq_true. cbn. split.
  - by intros [= -> ->].
  - intros Heq. pose proof (f_equal z_n Heq) as H1.
    pose proof (f_equal z_m Heq) as H2. cbn in H1, H2. by subst.
Qed.

Lemma dict_setitem_fst {K V} (eqb : K → K → bool) (d : list (K * V)) k v :
  existsb (λ kv, eqb kv.1 k) d = true → (dict_setitem eqb d k v).*1 = d.*1.
Proof.
  intros He. unfold dict_setitem. rewrite He.
  rewrite <-list_fmap_compose. apply list_fmap_ext.
  intros _ [k' v'] _. cbn. by destruct (eqb k' k).
Qed.

Lemma dict_setitem_zkeys_ok (d : list (Zernike * float)) (n m : Z) (v : float) :
  valid_nm n m → zkeys_ok d →
  zkeys_ok (dict_setitem Zernike_eq d (mk_zernike n m) v).
Proof.
  intros Hv [Hall Hnd]. destruct (existsb (λ kv, Zernike_eq kv.1 (mk_zernike n m)) d) eqn:He.
  - split; [|by rewrite dict_setitem_fst].
    unfold dict_setitem. rewrite He. rewrite Forall_fmap.
    eapply Forall_impl; [exact Hall|]. intros [k' v'] Hk. cbn in *.
    by destruct (Zernike_eq k' _).
  - unfold dict_setitem. rewrite He. split.
    + apply Forall_app. split; [done|]. constructor; [|done]. by exists n, m.
    + rewrite fmap_app. apply NoDup_app. split; [done|]. split; [|apply NoDup_singleton].
      intros k Hk Hk'. apply list_elem_of_singleton in Hk'. subst k.
      apply list_elem_of_fmap in Hk as ([k v'] & Heq & Hin). cbn in Heq. subst k.
      apply not_true_iff_false in He. apply He.
      apply existsb_exists. exists (mk_zernike n m, v'). split.
      * by apply list_elem_of_In.
      * cbn. by apply Zernike_eq_mk.
Qed.

Lemma zernikes_comprehension_ok (cls : ZernikeCls) (order : string)
    (amps : list (PyIndex * float)) (d0 d : list (Zernike * float)) :
  cls_spec cls → zkeys_ok d0 →
  foldlM (λ d (ja : PyIndex * float),
            z ← Zernike_init_in cls ja.1 order;
            Ok (dict_setitem Zernike_eq d z ja.2)) d0 amps = Ok d →
  zkeys_ok d.
Proof.
  intros Hcls Hd0. apply foldlM_inv; [done|].
  intros a [j x] a' Ha H. cbn in H.
  apply bind_Ok_inv in H as (z & Hz & H). simplify_eq.
  apply (Zernike_init_in_inv _ _ _ _ Hcls) in Hz as (n & m & Hv & ->).
  by apply dict_setitem_zkeys_ok.
Qed.

Lemma dict_getitem_zkeys (d : list (Zernike * float)) (k : Zernike) :
  zkeys_ok d → k ∈ d.*1 →
  ∃ v, dict_getitem Zernike_eq d k = Ok v ∧ (k, v) ∈ d.
Proof.
  intros [Hall Hnd] Hk. unfold dict_getitem.
  apply list_elem_of_fmap in Hk as ([k' v] & Heq & Hin). cbn in Heq. subst k'.
  rewrite Forall_forall in Hall.
  destruct (Hall _ Hin) as (n & m & Hv & Hkeq). cbn in Hkeq. subst k.
  destruct (list_find _ d) as [[i [k' v']]|] eqn:Hf.
  - apply list_find_Some in Hf as (Hi & Heq & _). cbn in Heq.
    exists v'. split; [done|].
    apply list_elem_of_lookup_2 in Hi as Hin'.
    destruct (Hall _ Hin') as (n' & m' & Hv' & Hkeq'). cbn in Hkeq'. subst k'.
    apply Zernike_eq_mk in Heq. by rewrite <-Heq.
  - exfalso. apply list_find_None in Hf. rewrite Forall_forall in Hf.
    apply (Hf _ Hin). cbn. by apply Zernike_eq_mk.
Qed.

Lemma ZernikeWavefront_init_inv (amplitudes : PyAmplitudes) (order : string)
    (w : ZernikeWavefront) :
  ZernikeWavefront_init amplitudes order = Ok w →
  zkeys_ok (zernikes w) ∧ zernikes w ≠ [] ∧
  mapM (dict_getitem Zernike_eq (zernikes w)) (sorted Zernike_lt (zernikes w).*1)
    = Ok (amplitudes_requested w).
Proof.
  intros H. unfold ZernikeWavefront_init, ZernikeWavefront_init_in in H.
  apply bind_Ok_inv in H as (items & _ & H).
  apply bind_Ok_inv in H as (amps & _ & H).
  apply bind_Ok_inv in H as (zs & Hzs & H).
  apply bind_Ok_inv in H as (noll_list & Hnoll & H).
  apply bind_Ok_inv in H as (ansi_list & _ & H).
  apply bind_Ok_inv in H as (requested & Hreq & H).
  injection H as <-. cbn. split; [|split; [|done]].
  - eapply zernikes_comprehension_ok; [apply Zernike_cls_spec| |exact Hzs].
    split; constructor.
  - intros ->. by cbn in Hnoll.
Qed.

(** C4: constructing a wavefront from an empty amplitude mapping does not
    succeed: [dict_to_list] asks [max()] of an empty key sequence and the
    constructor raises [ValueError]; the same happens for an empty list. *)
Theorem empty_wavefront_raises (order : string) :
  ZernikeWavefront_init (AmpDict []) order =
    Raise (ValueError "max() arg is an empty sequence") ∧
  ZernikeWavefront_init (AmpSeq []) "noll" =
    Raise (ValueError "max() arg is an empty sequence") ∧
  ZernikeWavefront_init (AmpSeq []) "ansi" =
    Raise (ValueError "max() arg is an empty sequence").
Proof. repeat split; reflexivity. Qed.

(** C5 (as amended): [amplitudes_requested] lists the amplitudes of the
    wavefront's modes by strictly increasing ANSI index: it is the value
    stored for each key, the keys taken in sorted order. *)
Theorem amplitudes_requested_ansi_sorted (amplitudes : PyAmplitudes)
    (order : string) (w : ZernikeWavefront) :
  ZernikeWavefront_init amplitudes order = Ok w →
  ∃ keys,
    keys ≡ₚ (zernikes w).*1 ∧
    StronglySorted (λ a b, z_index_ansi a < z_index_ansi b) keys ∧
    Forall2 (λ k a, (k, a) ∈ zernikes w) keys (amplitudes_requested w).
Proof.
  intros ([Hall Hnd] & _ & Hreq)%ZernikeWavefront_init_inv.
  exists (sorted Zernike_lt (zernikes w).*1).
  pose proof (sorted_perm z_index_ansi (zernikes w).*1) as Hperm.
  change (sorted Zernike_lt (zernikes w).*1 ≡ₚ (zernikes w).*1) in Hperm.
  split; [done|]. split.
  - apply sorted_le_strict; [|apply (sorted_le z_index_ansi)].
    rewrite Hperm. apply NoDup_fmap_2_strong; [|done].
    intros a b Ha Hb Heq.
    apply list_elem_of_fmap in Ha as ([a' va] & -> & Ha).
    apply list_elem_of_fmap in Hb as ([b' vb] & -> & Hb).
    rewrite Forall_forall in Hall.
    destruct (Hall _ Ha) as (n & m & Hv & Hka).
    destruct (Hall _ Hb) as (n' & m' & Hv' & Hkb).
    cbn in *. subst a' b'. cbn in Heq.
    by injection (ansi_inj n m n' m' Hv Hv' Heq) as -> ->.
  - destruct (mapM_result_Forall2 (λ k a, (k, a) ∈ zernikes w)
                (dict_getitem Zernike_eq (zernikes w))
                (sorted Zernike_lt (zernikes w).*1)) as (ys & Hys & HF).
    { intros k Hk. apply dict_getitem_zkeys; [done|]. by rewrite <-Hperm. }
    rewrite Hreq in Hys. by injection Hys as <-.
Qed.

(** *** Concrete wavefronts *)

Lemma valid_nm_0_0 : valid_nm 0 0.
Proof. unfold valid_nm. lia. Qed.
Lemma valid_nm_1_1 : valid_nm 1 1.
Proof. unfold valid_nm. lia. Qed.
Lemma valid_nm_1_m1 : valid_nm 1 (-1).
Proof. unfold valid_nm. lia. Qed.

Lemma ZernikeWavefront_init_in_123 (cls : ZernikeCls) :
  cls_spec cls →
  ZernikeWavefront_init_in cls
    (AmpSeq [AmpScalar (Fin 1); AmpScalar (Fin 2); AmpScalar (Fin 3)]) "noll"
  = Ok wavefront_123.
Proof.
  intros Hcls. unfold ZernikeWavefront_init_in.
  assert (ensure_dict
            (AmpSeq [AmpScalar (Fin 1); AmpScalar (Fin 2); AmpScalar (Fin 3)]) "noll"
          = Ok [(IInt 1, AmpScalar (Fin 1)); (IInt 2, AmpScalar (Fin 2));
                (IInt 3, AmpScalar (Fin 3))]) as -> by reflexivity.
  cbn [mbind result_bind mapM fst snd mret result_ret foldlM].
  rewrite (Zernike_init_in_noll cls 1 0 0); [|done..|by apply (cls_noll _ Hcls)].
  rewrite (Zernike_init_in_noll cls 2 1 1); [|done..|by apply (cls_noll _ Hcls)].
  rewrite (Zernike_init_in_noll cls 3 1 (-1)); [|done..|by apply (cls_noll _ Hcls)].
  reflexivity.
Qed.

Lemma ZernikeWavefront_init_123 :
  ZernikeWavefront_init
    (AmpSeq [AmpScalar (Fin 1); AmpScalar (Fin 2); AmpScalar (Fin 3)]) "noll"
  = Ok wavefront_123.
Proof. apply ZernikeWavefront_init_in_123, Zernike_cls_spec. Qed.

(** C5 (counterexample): for the flat sequence [1., 2., 3.] under Noll order
    the requested view is [(1., 3., 2.)], not the order of supply. *)
Lemma amplitudes_requested_reordered :
  ∃ w,
    ZernikeWavefront_init
      (AmpSeq [AmpScalar (Fin 1); AmpScalar (Fin 2); AmpScalar (Fin 3)]) "noll"
    = Ok w ∧
    amplitudes_requested w = [Fin 1; Fin 3; Fin 2] ∧
    amplitudes_requested w ≠ [Fin 1; Fin 2; Fin 3].
Proof.
  exists wavefront_123. split; [apply ZernikeWavefront_init_123|].
  split; [done|]. cbn. intros [= H]. lra.
Qed.

Lemma amplitudes_requested_ansi_sorted_witness :
  ZernikeWavefront_init
    (AmpSeq [AmpScalar (Fin 1); AmpScalar (Fin 2); AmpScalar (Fin 3)]) "noll"
  = Ok wavefront_123 ∧
  ∃ keys,
    keys ≡ₚ (zernikes wavefront_123).*1 ∧
    StronglySorted (λ a b, z_index_ansi a < z_index_ansi b) keys ∧
    Forall2 (λ k a, (k, a) ∈ zernikes wavefront_123) keys
      (amplitudes_requested wavefront_123).
Proof.
  split; [apply ZernikeWavefront_init_123|].
  apply (amplitudes_requested_ansi_sorted _ _ _ ZernikeWavefront_init_123).
Defined.

(** C6 (counterexample): assigning to an attribute of a constructed
    wavefront succeeds and changes the object. *)
Lemma wavefront_setattr_succeeds :
  ∃ w w',
    ZernikeWavefront_init
      (AmpSeq [AmpScalar (Fin 1); AmpScalar (Fin 2); AmpScalar (Fin 3)]) "noll"
    = Ok w ∧
    ZernikeWavefront_setattr w (WAttr_amplitudes_requested []) = (w', Ok ()) ∧
    w' ≠ w.
Proof.
  exists wavefront_123. eexists. split; [apply ZernikeWavefront_init_123|].
  split; [reflexivity|]. intros H. by apply (f_equal amplitudes_requested) in H.
Qed.

(** ** Polynomial evaluator *)

Lemma fpow_Fin (x : R) (k : Z) :
  0 ≤ k → fpow (Fin x) k = Fin (x ^ Z.to_nat k).
Proof. intros Hk. unfold fpow. by rewrite bool_decide_eq_true_2. Qed.

Lemma nm_polynomial_pt_0_0 (r t : R) :
  nm_polynomial_pt 0 0 false (Fin r) (Fin t) =
  if fle (Fin r) (Fin 1) then Fin 1 else Fin 0.
Proof.
  unfold nm_polynomial_pt.
  change (Z.abs 0) with 0.
  rewrite (bool_decide_eq_false_2 ((0 - 0) `mod` 2 = 1)) by done.
  rewrite (bool_decide_eq_true_2 (0 >= 0)) by lia.
  change (py_range 0 ((0 - 0) `div` 2 + 1) 1) with [0].
  cbn [foldl]. unfold radial_term, sp_binom.
  change (0 - 0) with 0. change (0 - 2 * 0) with 0. change (0 `div` 2 - 0) with 0.
  rewrite (bool_decide_eq_true_2 (0 ≤ 0 ≤ 0)) by lia.
  rewrite !fpow_Fin by lia. change (Z.to_nat 0) with 0%nat.
  cbn. destruct (bool_decide (r <= 1)%R); cbn; f_equal;
    rewrite Rmult_0_l, cos_0; lra.
Qed.

(** ** Arrays *)

Lemma arr2_get_map {A B} (f : A → B) (a : list (list A)) (i j : nat) :
  arr2_get (arr2_map f a) i j = f <$> arr2_get a i j.
Proof.
  unfold arr2_get, arr2_map. rewrite list_lookup_fmap.
  destruct (a !! i) as [row|]; [|done]. cbn. apply list_lookup_fmap.
Qed.

Lemma arr2_get_zip {A B C} (f : A → B → C) (a : list (list A)) (b : list (list B))
    (i j : nat) :
  arr2_get (arr2_zip f a b) i j =
  x ← arr2_get a i j; y ← arr2_get b i j; Some (f x y).
Proof.
  unfold arr2_get, arr2_zip. rewrite lookup_zip_with.
  destruct (a !! i) as [ra|]; [|done]. cbn.
  destruct (b !! i) as [rb|]; cbn.
  - apply lookup_zip_with.
  - by destruct (ra !! j).
Qed.

Lemma arr2_get_set_where {A} (a : list (list A)) (mask : list (list bool)) (v : A)
    (i j : nat) :
  arr2_get (arr2_set_where a mask v) i j =
  x ← arr2_get a i j; b ← arr2_get mask i j; Some (if b : bool then v else x).
Proof. apply arr2_get_zip. Qed.

Lemma arr2_zip_map_l {A B C} (f : A → B → C) (g : A → C)
    (a : list (list A)) (b : list (list B)) :
  Forall2 (λ r t, length r = length t) a b →
  (∀ ra rb x y, ra ∈ a → rb ∈ b → x ∈ ra → y ∈ rb → f x y = g x) →
  arr2_zip f a b = arr2_map g a.
Proof.
  intros Hshape. unfold arr2_zip, arr2_map.
  induction Hshape as [|ra rb a b Hlen Hshape IH]; intros Hfg; [done|].
  cbn. f_equal.
  - assert (∀ x y, x ∈ ra → y ∈ rb → f x y = g x) as Hrow.
    { intros x y Hx Hy. apply (Hfg ra rb); [by left|by left|done..]. }
    clear -Hlen Hrow. revert rb Hlen Hrow.
    induction ra as [|x ra IH]; intros [|y rb] Hlen Hrow; try done.
    cbn. f_equal.
    + apply Hrow; by left.
    + apply IH; [by injection Hlen|]. intros x' y' Hx' Hy'. apply Hrow; by right.
  - apply IH. intros ra' rb' x y Hra Hrb. apply Hfg; by right.
Qed.

Lemma nm_polynomial_0_0 (rho theta : list (list float)) :
  Forall2 (λ r t, length r = length t) rho theta →
  arr2_finite rho → arr2_finite theta →
  nm_polynomial 0 0 rho theta false =
  Ok (arr2_map (λ r, if fle r (Fin 1) then Fin 1 else Fin 0) rho).
Proof.
  intros Hshape Hrho Htheta. unfold nm_polynomial.
  rewrite bool_decide_eq_false_2 by (cbn; lia). f_equal.
  apply arr2_zip_map_l; [done|].
  intros ra rb x y Hra Hrb Hx Hy.
  unfold arr2_finite in *. rewrite Forall_forall in Hrho, Htheta.
  specialize (Hrho _ Hra). specialize (Htheta _ Hrb).
  rewrite Forall_forall in Hrho, Htheta.
  specialize (Hrho _ Hx). specialize (Htheta _ Hy).
  destruct x as [|r], y as [|t]; try done. apply nm_polynomial_pt_0_0.
Qed.

Lemma meshgrid2_zip {A B} (f : A → A → B) (ly lx : list A) :
  arr2_zip f (meshgrid2 ly lx).1 (meshgrid2 ly lx).2 =
  lmap (λ a, lmap (λ b, f a b) lx) ly.
Proof.
  unfold arr2_zip, meshgrid2. cbn.
  rewrite zip_with_fmap_l, zip_with_fmap_r, zip_with_diag.
  apply list_fmap_ext. intros _ a _.
  by rewrite zip_with_fmap_l, zip_with_diag.
Qed.

Lemma np_hypot_Fin (a b : R) : np_hypot (Fin a) (Fin b) = Fin (sqrt (a * a + b * b)).
Proof.
  unfold np_hypot, fsqrt. cbn. rewrite decide_True; [done|]. nra.
Qed.

Lemma np_linspace_Fin (start stop : R) (num : Z) :
  0 ≤ num → ∃ l, np_linspace start stop num = Ok (Fin <$> l) ∧ length l = Z.to_nat num.
Proof.
  intros Hnum. unfold np_linspace. rewrite bool_decide_eq_false_2 by lia.
  case_bool_decide as H1.
  - exists [start]. split; [done|]. subst. done.
  - eexists ((λ i, _) <$> seqZ 0 num). split.
    + by rewrite <-list_fmap_compose.
    + by rewrite length_fmap, length_seqZ.
Qed.

(** The grid of [rho_theta]: the coordinates are numbers on one shape. *)
Lemma rho_theta_ok (s : Z) :
  0 ≤ s →
  ∃ rho theta,
    rho_theta s = Ok (rho, theta) ∧
    Forall2 (λ r t, length r = length t) rho theta ∧
    arr2_finite rho ∧ arr2_finite theta.
Proof.
  intros Hs. destruct (np_linspace_Fin (-1) 1 s Hs) as (l & Hl & Hlen).
  unfold rho_theta. rewrite Hl. cbn [mbind result_bind].
  pose proof (meshgrid2_zip np_hypot (Fin <$> l) (Fin <$> l)) as Hrho.
  pose proof (meshgrid2_zip np_arctan2 (Fin <$> l) (Fin <$> l)) as Htheta.
  destruct (meshgrid2 (Fin <$> l) (Fin <$> l)) as [y x] eqn:Hm.
  cbn [fst snd] in Hrho, Htheta.
  eexists _, _. split; [done|]. rewrite Hrho, Htheta.
  split; [|split].
  - apply Forall2_fmap, Forall_Forall2_diag, Forall_forall.
    intros a _. by rewrite !length_fmap.
  - unfold arr2_finite. rewrite !Forall_fmap. apply Forall_forall. intros a _.
    unfold compose. rewrite !Forall_fmap. apply Forall_forall. intros b _.
    unfold compose. by rewrite np_hypot_Fin.
  - unfold arr2_finite. rewrite !Forall_fmap. apply Forall_forall. intros a _.
    unfold compose. rewrite !Forall_fmap. by apply Forall_forall.
Qed.

Lemma outside_mask_pt (r : float) :
  fisnan r = false →
  flt (if fle r (Fin 1) then Fin 1 else Fin 0) (Fin 1) = flt (Fin 1) r.
Proof.
  destruct r as [|r]; [done|]. intros _. cbn.
  destruct (bool_decide (r <= 1)%R) eqn:Hr; cbn.
  - apply bool_decide_eq_true in Hr.
    rewrite !bool_decide_eq_false_2; [done|lra..].
  - apply bool_decide_eq_false in Hr.
    rewrite !bool_decide_eq_true_2; [done|lra..].
Qed.

Lemma arr2_map_ext_finite {B} (f g : float → B) (a : list (list float)) :
  arr2_finite a → (∀ x, fisnan x = false → f x = g x) →
  arr2_map f a = arr2_map g a.
Proof.
  intros Ha Hfg. unfold arr2_map. apply Forall_fmap_ext.
  eapply Forall_impl; [exact Ha|]. intros row Hrow. cbn.
  apply Forall_fmap_ext. eapply Forall_impl; [exact Hrow|]. apply Hfg.
Qed.

Lemma outside_mask_ok (s : Z) (rho theta : list (list float)) :
  rho_theta s = Ok (rho, theta) →
  Forall2 (λ r t, length r = length t) rho theta →
  arr2_finite rho → arr2_finite theta →
  outside_mask s = Ok (arr2_map (λ r, flt (Fin 1) r) rho).
Proof.
  intros Hrt Hshape Hrho Htheta. unfold outside_mask. rewrite Hrt. cbn.
  rewrite nm_polynomial_0_0 by done. cbn. f_equal.
  unfold arr2_map at 1 2. rewrite <-list_fmap_compose.
  erewrite list_fmap_ext; [|intros; apply eq_sym, list_fmap_compose].
  apply (arr2_map_ext_finite _ _ rho Hrho). intros x Hx. cbn.
  by apply outside_mask_pt.
Qed.

(** C8: on coordinate arrays of numbers, the unnormalised degree-0
    polynomial is [1] where [rho <= 1] and [0] elsewhere; and for every grid
    size [s > 0] the outside mask is true exactly where [rho > 1]. *)
Theorem degree0_polynomial_and_outside_mask
    (rho theta : list (list float)) (s : Z) :
  Forall2 (λ r t, length r = length t) rho theta →
  arr2_finite rho → arr2_finite theta → 0 < s →
  nm_polynomial 0 0 rho theta false =
    Ok (arr2_map (λ r, if fle r (Fin 1) then Fin 1 else Fin 0) rho) ∧
  ∃ grid_rho grid_theta,
    rho_theta s = Ok (grid_rho, grid_theta) ∧
    outside_mask s = Ok (arr2_map (λ r, flt (Fin 1) r) grid_rho).
Proof.
  intros Hshape Hrho Htheta Hs. split; [by apply nm_polynomial_0_0|].
  destruct (rho_theta_ok s ltac:(lia)) as (gr & gt & Hrt & Hsh & Hr & Ht).
  exists gr, gt. split; [done|]. by apply outside_mask_ok with gt.
Qed.

Lemma degree0_polynomial_and_outside_mask_witness :
  nm_polynomial 0 0 [[Fin 0; Fin 2]] [[Fin 0; Fin 0]] false =
    Ok (arr2_map (λ r, if fle r (Fin 1) then Fin 1 else Fin 0) [[Fin 0; Fin 2]]) ∧
  ∃ grid_rho grid_theta,
    rho_theta 1 = Ok (grid_rho, grid_theta) ∧
    outside_mask 1 = Ok (arr2_map (λ r, flt (Fin 1) r) grid_rho).
Proof.
  apply (degree0_polynomial_and_outside_mask [[Fin 0; Fin 2]] [[Fin 0; Fin 0]] 1).
  - repeat constructor.
  - repeat constructor.
  - repeat constructor.
  - lia.
Defined.

(** ** Wavefront evaluation *)

Lemma foldl_arr2_zip_get (a0 : list (list float)) (rest : list (list (list float)))
    (v0 : float) (vals : list float) (i j : nat) :
  arr2_get a0 i j = Some v0 →
  Forall2 (λ a v, arr2_get a i j = Some v) rest vals →
  arr2_get (foldl (arr2_zip fadd) a0 rest) i j = Some (foldl fadd v0 vals).
Proof.
  intros Ha0 Hrest. revert a0 v0 Ha0.
  induction Hrest as [|a v rest vals Ha Hrest IH]; intros a0 v0 Ha0; [done|].
  cbn. apply IH. by rewrite arr2_get_zip, Ha0, Ha.
Qed.

Lemma np_sum_axis0_get (arrays : list (list (list float))) (vals : list float)
    (i j : nat) :
  arrays ≠ [] →
  Forall2 (λ a v, arr2_get a i j = Some v) arrays vals →
  arr2_get (np_sum_axis0 arrays) i j = Some (sum_list vals).
Proof.
  intros Hne Hall. destruct Hall as [|a v rest vals Ha Hrest]; [done|].
  cbn. by apply foldl_arr2_zip_get.
Qed.

Lemma nm_polynomial_valid (n m : Z) (rho theta : list (list float)) (normed : bool) :
  valid_nm n m →
  nm_polynomial n m rho theta normed =
  Ok (arr2_zip (nm_polynomial_pt n m normed) rho theta).
Proof.
  intros (Hn & Hm & _). unfold nm_polynomial.
  by rewrite bool_decide_eq_false_2 by lia.
Qed.

Lemma Zernike_polynomial_valid (n m s : Z) (normed : bool) (outside : float)
    (rho theta : list (list float)) (mask : list (list bool)) :
  valid_nm n m → 0 < s →
  rho_theta s = Ok (rho, theta) → outside_mask s = Ok mask →
  Zernike_polynomial (mk_zernike n m) s normed outside =
  Ok (arr2_set_where (arr2_zip (nm_polynomial_pt n m normed) rho theta) mask outside).
Proof.
  intros Hv Hs Hrt Hmask. unfold Zernike_polynomial.
  rewrite bool_decide_eq_true_2 by lia. cbn [or_present mbind result_bind].
  rewrite Hrt. cbn [mbind result_bind z_n z_m mk_zernike].
  rewrite (nm_polynomial_valid n m) by done. cbn [mbind result_bind].
  by rewrite Hmask.
Qed.

Lemma Zernike_phase_valid (n m : Z) (normed : bool) (outside : option float)
    (rho theta : list (list float)) :
  valid_nm n m →
  ∃ out,
    Zernike_phase (mk_zernike n m) rho theta normed outside = Ok out ∧
    ∀ i j r t, arr2_get rho i j = Some r → arr2_get theta i j = Some t →
      arr2_get out i j = Some (phase_pt n m normed outside r t).
Proof.
  intros Hv. unfold Zernike_phase. cbn [z_n z_m mk_zernike].
  rewrite (nm_polynomial_valid n m) by done. cbn [mbind result_bind].
  destruct outside as [v|].
  - rewrite (nm_polynomial_valid 0 0) by apply valid_nm_0_0.
    cbn [mbind result_bind]. eexists. split; [done|].
    intros i j r t Hr Ht.
    rewrite arr2_get_set_where, arr2_get_map, !arr2_get_zip, Hr, Ht. done.
  - eexists. split; [done|]. intros i j r t Hr Ht.
    by rewrite arr2_get_zip, Hr, Ht.
Qed.

Lemma weighted_sum_get (per_mode : Zernike → result (list (list float)))
    (dom : nat → nat → Prop) (val : Zernike → nat → nat → float)
    (zs : list (Zernike * float)) :
  zs ≠ [] →
  (∀ za, za ∈ zs →
     ∃ p, per_mode za.1 = Ok p ∧
          ∀ i j, dom i j → arr2_get p i j = Some (val za.1 i j)) →
  ∃ out,
    (terms ← mapM (λ za : Zernike * float,
               p ← per_mode za.1; Ok (arr2_map (fmul za.2) p)) zs;
     Ok (np_sum_axis0 terms)) = Ok out ∧
    ∀ i j, dom i j →
      arr2_get out i j = Some (sum_list ((λ za, fmul za.2 (val za.1 i j)) <$> zs)).
Proof.
  intros Hne Hmodes.
  destruct (mapM_result_Forall2
              (λ (za : Zernike * float) term,
                 ∀ i j, dom i j → arr2_get term i j = Some (fmul za.2 (val za.1 i j)))
              (λ za : Zernike * float,
                 p ← per_mode za.1; Ok (arr2_map (fmul za.2) p)) zs)
    as (terms & Hterms & HQ).
  { intros za Hza. destruct (Hmodes za Hza) as (p & Hp & Hget).
    eexists. rewrite Hp. split; [done|]. intros i j Hd.
    by rewrite arr2_get_map, Hget. }
  exists (np_sum_axis0 terms). rewrite Hterms. split; [done|].
  intros i j Hd. apply np_sum_axis0_get.
  - intros ->. apply Forall2_nil_inv_r in HQ. done.
  - apply Forall2_fmap_r, Forall2_flip.
    eapply Forall2_impl; [exact HQ|]. intros za term Hq. by apply Hq.
Qed.

(** The entries of the weighted sums, wherever the coordinate arrays hold
    values. *)
Lemma wavefront_entries_per_mode (amplitudes : PyAmplitudes)
    (order : string) (w : ZernikeWavefront) (s : Z) (normed : bool)
    (outside : float) :
  ZernikeWavefront_init amplitudes order = Ok w → 0 < s →
  zernikes w ≠ [] ∧
  ∃ rho theta mask,
    rho_theta s = Ok (rho, theta) ∧ outside_mask s = Ok mask ∧
    (∃ out,
       ZernikeWavefront_polynomial w s normed outside = Ok out ∧
       ∀ i j r t (b : bool),
         arr2_get rho i j = Some r → arr2_get theta i j = Some t →
         arr2_get mask i j = Some b →
         Forall (λ za : Zernike * float,
                   ∃ p, Zernike_polynomial za.1 s normed outside = Ok p ∧
                        arr2_get p i j =
                        Some (if b then outside
                              else nm_polynomial_pt (z_n za.1) (z_m za.1) normed r t))
                (zernikes w) ∧
         arr2_get out i j =
         Some (sum_list ((λ za : Zernike * float,
                 fmul za.2 (if b then outside
                            else nm_polynomial_pt (z_n za.1) (z_m za.1) normed r t))
               <$> zernikes w))) ∧
    (∀ prho ptheta poutside,
       ∃ out,
         ZernikeWavefront_phase w prho ptheta normed poutside = Ok out ∧
         ∀ i j r t,
           arr2_get prho i j = Some r → arr2_get ptheta i j = Some t →
           Forall (λ za : Zernike * float,
                     ∃ p, Zernike_phase za.1 prho ptheta normed poutside = Ok p ∧
                          arr2_get p i j =
                          Some (phase_pt (z_n za.1) (z_m za.1) normed poutside r t))
                  (zernikes w) ∧
           arr2_get out i j =
           Some (sum_list ((λ za : Zernike * float,
                   fmul za.2 (phase_pt (z_n za.1) (z_m za.1) normed poutside r t))
                 <$> zernikes w))).
Proof.
  intros ([Hall Hnd] & Hne & _)%ZernikeWavefront_init_inv Hs.
  split; [done|].
  destruct (rho_theta_ok s ltac:(lia)) as (rho & theta & Hrt & Hsh & Hr & Ht).
  pose proof (outside_mask_ok s rho theta Hrt Hsh Hr Ht) as Hmask.
  exists rho, theta, (arr2_map (λ r, flt (Fin 1) r) rho).
  split; [done|]. split; [done|].
  rewrite Forall_forall in Hall. split.
  - destruct (weighted_sum_get
                (λ z, Zernike_polynomial z s normed outside)
                (λ i j, is_Some (arr2_get rho i j) ∧ is_Some (arr2_get theta i j))
                (λ z i j,
                   default NaN
                     (r ← arr2_get rho i j; t ← arr2_get theta i j;
                      b ← arr2_get (arr2_map (λ r, flt (Fin 1) r) rho) i j;
                      Some (if b : bool then outside
                            else nm_polynomial_pt (z_n z) (z_m z) normed r t)))
                (zernikes w) Hne) as (out & Hout & Hget).
    { intros [z a] Hza. destruct (Hall _ Hza) as (n & m & Hv & Hz).
      cbn in Hz. subst z. cbn [fst].
      rewrite (Zernike_polynomial_valid n m s normed outside rho theta _ Hv Hs Hrt Hmask).
      eexists. split; [done|]. intros i j [[r Hri] [t Hti]].
      rewrite arr2_get_set_where, arr2_get_zip, Hri, Hti. cbn.
      rewrite arr2_get_map, Hri. done. }
    exists out. split; [exact Hout|].
    intros i j r t b Hri Hti Hbi. split.
    + apply Forall_forall. intros [z a] Hza.
      destruct (Hall _ Hza) as (n & m & Hv & Hz). cbn in Hz. subst z. cbn [fst].
      rewrite (Zernike_polynomial_valid n m s normed outside rho theta _ Hv Hs Hrt Hmask).
      eexists. split; [done|].
      by rewrite arr2_get_set_where, arr2_get_zip, Hri, Hti, Hbi.
    + rewrite Hget by (split; eauto).
      f_equal. f_equal. apply list_fmap_ext. intros _ [z a] _.
      by rewrite Hri, Hti, Hbi.
  - intros prho ptheta poutside.
    destruct (weighted_sum_get
                (λ z, Zernike_phase z prho ptheta normed poutside)
                (λ i j, is_Some (arr2_get prho i j) ∧ is_Some (arr2_get ptheta i j))
                (λ z i j,
                   default NaN
                     (r ← arr2_get prho i j; t ← arr2_get ptheta i j;
                      Some (phase_pt (z_n z) (z_m z) normed poutside r t)))
                (zernikes w) Hne) as (out & Hout & Hget).
    { intros [z a] Hza. destruct (Hall _ Hza) as (n & m & Hv & Hz).
      cbn in Hz. subst z. cbn [fst].
      destruct (Zernike_phase_valid n m normed poutside prho ptheta Hv)
        as (p & Hp & Hpget).
      exists p. split; [done|]. intros i j [[r Hri] [t Hti]].
      rewrite (Hpget i j r t Hri Hti), Hri, Hti. done. }
    exists out. split; [exact Hout|].
    intros i j r t Hri Hti. split.
    + apply Forall_forall. intros [z a] Hza.
      destruct (Hall _ Hza) as (n & m & Hv & Hz). cbn in Hz. subst z. cbn [fst].
      destruct (Zernike_phase_valid n m normed poutside prho ptheta Hv)
        as (p & Hp & Hpget).
      exists p. split; [done|]. by apply Hpget.
    + rewrite Hget by (split; eauto).
      f_equal. f_equal. apply list_fmap_ext. intros _ [z a] _.
      by rewrite Hri, Hti.
Qed.

(** ** Three-dimensional arrays *)

Lemma arr3_get_map {A B} (f : A → B) (a : list (list (list A))) (i j k : nat) :
  arr3_get (arr3_map f a) i j k = f <$> arr3_get a i j k.
Proof.
  unfold arr3_get, arr3_map. rewrite list_lookup_fmap.
  destruct (a !! i) as [s|]; [|done]. cbn. apply arr2_get_map.
Qed.

Lemma arr3_get_zip {A B C} (f : A → B → C) (a : list (list (list A)))
    (b : list (list (list B))) (i j k : nat) :
  arr3_get (arr3_zip f a b) i j k =
  x ← arr3_get a i j k; y ← arr3_get b i j k; Some (f x y).
Proof.
  unfold arr3_get, arr3_zip. rewrite lookup_zip_with.
  destruct (a !! i) as [sa|]; [|done]. cbn.
  destruct (b !! i) as [sb|]; cbn.
  - apply arr2_get_zip.
  - by destruct (arr2_get sa j k).
Qed.

Lemma arr3_get_set_where {A} (a : list (list (list A))) (mask : list (list (list bool)))
    (v : A) (i j k : nat) :
  arr3_get (arr3_set_where a mask v) i j k =
  x ← arr3_get a i j k; b ← arr3_get mask i j k; Some (if b : bool then v else x).
Proof. apply arr3_get_zip. Qed.

Lemma arr3_get_meshgrid3 {A} (z y x : list A) (i j k : nat) :
  arr3_get (meshgrid3 z y x).1.1 i j k = (zi ← z !! i; _ ← y !! j; _ ← x !! k; Some zi) ∧
  arr3_get (meshgrid3 z y x).1.2 i j k = (_ ← z !! i; yj ← y !! j; _ ← x !! k; Some yj) ∧
  arr3_get (meshgrid3 z y x).2 i j k = (_ ← z !! i; _ ← y !! j; x !! k).
Proof.
  unfold arr3_get, arr2_get, meshgrid3. cbn [fst snd].
  rewrite !list_lookup_fmap. destruct (z !! i) as [zi|]; [|done]. cbn.
  rewrite !list_lookup_fmap. destruct (y !! j) as [yj|]; [|done]. cbn.
  rewrite !list_lookup_fmap. by destruct (x !! k).
Qed.

(** ** PSF propagator *)

Lemma PsfGenerator3D_init_eq (psf_shape : Z * Z * Z) (units : R * R * R)
    (lam n na : R) (masked sw : bool) :
  PsfGenerator3D_init psf_shape units lam n na masked sw =
  ky ← np_fftshift <$> np_fftfreq psf_shape.1.2 units.1.2;
  kx ← np_fftshift <$> np_fftfreq psf_shape.2 units.2;
  kc ← py_div (1 * na) lam;
  Ok (psf_build psf_shape units lam n na masked sw ky kx kc).
Proof.
  destruct psf_shape as [[nz0 ny0] nx0], units as [[dz0 dy0] dx0].
  unfold PsfGenerator3D_init. cbn [fst snd].
  destruct (np_fftshift <$> np_fftfreq ny0 dy0) as [ky|]; [|done].
  destruct (np_fftshift <$> np_fftfreq nx0 dx0) as [kx|]; [|done].
  cbn [mbind result_bind].
  destruct (py_div (1 * na) lam) as [kc|]; [|done].
  reflexivity.
Qed.

Lemma np_roll_length {A} (k : nat) (l : list A) : length (np_roll k l) = length l.
Proof.
  unfold np_roll. rewrite length_app, length_drop, length_take. lia.
Qed.

Lemma np_roll_Forall {A} (P : A → Prop) (k : nat) (l : list A) :
  Forall P l → Forall P (np_roll k l).
Proof.
  intros Hl. unfold np_roll. apply Forall_app.
  split; [by apply Forall_drop|by apply Forall_take].
Qed.

Lemma np_roll_lookup {A} (k : nat) (l : list A) (i : nat) :
  (i < length l)%nat →
  np_roll k l !! i = l !! ((i + (length l - k `mod` length l)) `mod` length l)%nat.
Proof.
  intros Hi. unfold np_roll.
  set (n := length l) in *.
  assert (k `mod` n < n)%nat as Hr by (apply Nat.mod_upper_bound; lia).
  set (r := (k `mod` n)%nat) in *.
  destruct (decide (i < r)%nat) as [Hlt|Hge].
  - rewrite lookup_app_l by (rewrite length_drop; lia).
    rewrite lookup_drop. f_equal.
    rewrite Nat.mod_small by lia. lia.
  - rewrite lookup_app_r by (rewrite length_drop; lia).
    rewrite length_drop, lookup_take_lt by lia. f_equal.
    replace (i + (n - r))%nat with ((i - r) + 1 * n)%nat by lia.
    rewrite Nat.Div0.mod_add. rewrite Nat.mod_small by lia. lia.
Qed.

Lemma list_finite_Fin (l : list float) : list_finite l → ∃ l', l = Fin <$> l'.
Proof.
  induction 1 as [|x l Hx Hl (l' & ->)]; [by exists []|].
  destruct x as [|x]; [done|]. by exists (x :: l').
Qed.

Lemma np_fftfreq_inv (n : Z) (d : R) (l : list float) :
  np_fftfreq n d = Ok l → 0 < n ∧ length l = Z.to_nat n ∧ list_finite l.
Proof.
  unfold np_fftfreq. case_decide as Hz; [done|].
  case_bool_decide as Hneg; [done|]. intros [= <-].
  assert (n ≠ 0) as Hn0.
  { intros ->. apply Hz. apply Rmult_0_l. }
  split; [lia|]. split.
  - rewrite length_fmap, length_app, !length_seqZ. lia.
  - unfold list_finite. rewrite Forall_fmap. by apply Forall_forall.
Qed.

Lemma np_fftshift_axis_inv (n : Z) (d : R) (l : list float) :
  np_fftshift <$> np_fftfreq n d = Ok l →
  0 < n ∧ length l = Z.to_nat n ∧ list_finite l.
Proof.
  intros (l0 & Hl0 & ->)%fmap_Ok_inv.
  apply np_fftfreq_inv in Hl0 as (Hn & Hlen & Hfin).
  split; [done|]. unfold np_fftshift. rewrite np_roll_length.
  split; [done|]. by apply np_roll_Forall.
Qed.

Lemma z_axis_ok (nz0 : Z) (dz0 : R) :
  length (z_axis nz0 dz0) = Z.to_nat nz0 ∧ list_finite (z_axis nz0 dz0).
Proof.
  unfold z_axis, np_arange, list_finite.
  case_bool_decide; rewrite length_fmap, length_seqZ, Forall_fmap;
    (split; [done|by apply Forall_forall]).
Qed.

Lemma py_div_inv (a b c : R) : py_div a b = Ok c → b ≠ 0%R ∧ c = (a / b)%R.
Proof. unfold py_div. case_decide; [done|]. by intros [= <-]. Qed.

(** What a successful construction establishes. *)
Lemma PsfGenerator3D_init_inv (psf_shape : Z * Z * Z) (units : R * R * R)
    (lam n na : R) (masked sw : bool) (g : PsfGenerator3D) :
  PsfGenerator3D_init psf_shape units lam n na masked sw = Ok g →
  ∃ ky kx,
    lam ≠ 0%R ∧
    0 < psf_shape.1.2 ∧ length ky = Z.to_nat psf_shape.1.2 ∧ list_finite ky ∧
    0 < psf_shape.2 ∧ length kx = Z.to_nat psf_shape.2 ∧ list_finite kx ∧
    g = psf_build psf_shape units lam n na masked sw ky kx (1 * na / lam).
Proof.
  rewrite PsfGenerator3D_init_eq. intros H.
  apply bind_Ok_inv in H as (ky & Hky & H).
  apply bind_Ok_inv in H as (kx & Hkx & H).
  apply bind_Ok_inv in H as (kc & Hkc & H). injection H as <-.
  apply np_fftshift_axis_inv in Hky as (? & ? & ?).
  apply np_fftshift_axis_inv in Hkx as (? & ? & ?).
  apply py_div_inv in Hkc as [? ->].
  by exists ky, kx.
Qed.

Lemma kr_pt_Fin (ky kx : R) : kr_pt (Fin ky) (Fin kx) = Fin (sqrt (ky ^ 2 + kx ^ 2)).
Proof.
  unfold kr_pt. rewrite !fpow_Fin by lia. change (Z.to_nat 2) with 2%nat.
  cbn [fadd flift2]. unfold fsqrt. rewrite decide_True; [done|].
  pose proof (pow2_ge_0 ky). pose proof (pow2_ge_0 kx). lra.
Qed.

Lemma h_pt_Fin (n lam ky kx : R) :
  h_pt n lam (kr_pt (Fin ky) (Fin kx)) =
  if decide (radicand n lam ky kx < 0)%R then NaN
  else Fin (sqrt (radicand n lam ky kx)).
Proof.
  rewrite kr_pt_Fin. unfold h_pt. rewrite fpow_Fin by lia.
  change (Z.to_nat 2) with 2%nat. cbn [fsub fmul flift2].
  assert (0 <= ky ^ 2 + kx ^ 2)%R as Hpos.
  { pose proof (pow2_ge_0 ky). pose proof (pow2_ge_0 kx). lra. }
  rewrite pow2_sqrt by done.
  replace (1 * n ^ 2 - (ky ^ 2 + kx ^ 2) * lam ^ 2)%R
    with (radicand n lam ky kx) by (unfold radicand; ring).
  unfold fsqrt. destruct (decide (0 <= radicand n lam ky kx)%R) as [Hr|Hr].
  - rewrite decide_False; [done|lra].
  - rewrite decide_True; [done|lra].
Qed.

Lemma k_prop_pt_Fin (lam z h : R) :
  lam ≠ 0%R →
  k_prop_pt lam (Fin z) (Fin h) = cexp (Cx 0 (-2 * PI * (z / lam) * h)).
Proof.
  intros Hlam. unfold k_prop_pt. cbn [of_float cmul]. unfold cdiv.
  rewrite decide_False by nra. cbn [cmul]. f_equal. f_equal; field; nra.
Qed.

(** The stack entry at a position with coordinates [(z, ky, kx)]. *)
Lemma defocus_entry_pt (n lam z ky kx : R) :
  lam ≠ 0%R →
  (if fisnan (h_pt n lam (kr_pt (Fin ky) (Fin kx))) then Cx 0 0
   else k_prop_pt lam (Fin z) (h_pt n lam (kr_pt (Fin ky) (Fin kx)))) =
  if decide (radicand n lam ky kx < 0)%R then Cx 0 0
  else defocus_term n lam z ky kx.
Proof.
  intros Hlam. rewrite h_pt_Fin. case_decide; [done|].
  cbn [fisnan]. by rewrite k_prop_pt_Fin.
Qed.

Lemma np_fftfreq_ok (n : Z) (d : R) :
  0 < n → d ≠ 0%R → np_fftshift <$> np_fftfreq n d = Ok (freq_axis n d).
Proof.
  intros Hn Hd. unfold np_fftfreq. rewrite decide_False.
  - by rewrite bool_decide_eq_false_2 by lia.
  - apply Rmult_integral_contrapositive. split; [|done].
    apply not_0_IZR. lia.
Qed.

(** The construction succeeds on positive lateral sizes, non-zero lateral
    voxel sizes and a non-zero wavelength. *)
Lemma PsfGenerator3D_init_ok (psf_shape : Z * Z * Z) (units : R * R * R)
    (lam n na : R) (masked sw : bool) :
  0 < psf_shape.1.2 → 0 < psf_shape.2 →
  units.1.2 ≠ 0%R → units.2 ≠ 0%R → lam ≠ 0%R →
  PsfGenerator3D_init psf_shape units lam n na masked sw =
  Ok (psf_build psf_shape units lam n na masked sw
        (freq_axis psf_shape.1.2 units.1.2) (freq_axis psf_shape.2 units.2)
        (1 * na / lam)).
Proof.
  intros Hny Hnx Hdy Hdx Hlam. rewrite PsfGenerator3D_init_eq.
  rewrite !np_fftfreq_ok by done. cbn [mbind result_bind].
  unfold py_div. by rewrite decide_False.
Qed.

(** ** Shapes *)

Lemma is_arr2_map {A B} (f : A → B) (r c : nat) (a : list (list A)) :
  is_arr2 r c a → is_arr2 r c (arr2_map f a).
Proof.
  intros [Hr Hc]. unfold arr2_map. split; [by rewrite length_fmap|].
  rewrite Forall_fmap. eapply Forall_impl; [exact Hc|].
  intros row Hrow. cbn. by rewrite length_fmap.
Qed.

Lemma is_arr2_zip {A B C} (f : A → B → C) (r c : nat)
    (a : list (list A)) (b : list (list B)) :
  is_arr2 r c a → is_arr2 r c b → is_arr2 r c (arr2_zip f a b).
Proof.
  intros [Hra Hca] [Hrb Hcb]. unfold arr2_zip. split.
  - rewrite length_zip_with. lia.
  - clear Hra Hrb. revert b Hcb.
    induction Hca as [|ra a Hlen Hca IH]; intros [|rb b] Hcb; cbn; try constructor.
    + apply Forall_cons in Hcb as [Hlb _]. rewrite length_zip_with. lia.
    + apply Forall_cons in Hcb as [_ Hcb]. by apply IH.
Qed.

Lemma is_arr2_tabulate {A B C} (f : A → B → C) (ly : list A) (lx : list B) :
  is_arr2 (length ly) (length lx) (lmap (λ a, lmap (λ b, f a b) lx) ly).
Proof.
  split; [by rewrite length_fmap|]. rewrite Forall_fmap. apply Forall_forall.
  intros a _. cbn. by rewrite length_fmap.
Qed.

Lemma is_arr2_meshgrid2_zip {A B} (f : A → A → B) (ly lx : list A) :
  is_arr2 (length ly) (length lx)
    (arr2_zip f (meshgrid2 ly lx).1 (meshgrid2 ly lx).2).
Proof. rewrite meshgrid2_zip. apply is_arr2_tabulate. Qed.

Lemma is_arr3_map {A B} (f : A → B) (d r c : nat) (a : list (list (list A))) :
  is_arr3 d r c a → is_arr3 d r c (arr3_map f a).
Proof.
  intros [Hd Hs]. unfold arr3_map. split; [by rewrite length_fmap|].
  rewrite Forall_fmap. eapply Forall_impl; [exact Hs|].
  intros s. apply is_arr2_map.
Qed.

Lemma is_arr3_zip {A B C} (f : A → B → C) (d r c : nat)
    (a : list (list (list A))) (b : list (list (list B))) :
  is_arr3 d r c a → is_arr3 d r c b → is_arr3 d r c (arr3_zip f a b).
Proof.
  intros [Hda Hsa] [Hdb Hsb]. unfold arr3_zip. split.
  - rewrite length_zip_with. lia.
  - clear Hda Hdb. revert b Hsb.
    induction Hsa as [|sa a Hs Hsa IH]; intros [|sb b] Hsb; cbn; try constructor.
    + apply Forall_cons in Hsb as [Hb _]. by apply is_arr2_zip.
    + apply Forall_cons in Hsb as [_ Hsb]. by apply IH.
Qed.

Lemma is_arr3_bcast {A B C} (f : A → B → C) (d r c : nat)
    (a : list (list (list A))) (b : list (list B)) :
  is_arr3 d r c a → is_arr2 r c b → is_arr3 d r c (arr3_bcast f a b).
Proof.
  intros [Hd Hs] Hb. unfold arr3_bcast. split; [by rewrite length_fmap|].
  rewrite Forall_fmap. eapply Forall_impl; [exact Hs|].
  intros s Hsa. cbn. by apply is_arr2_zip.
Qed.

Lemma is_arr3_meshgrid3 {A} (z y x : list A) :
  is_arr3 (length z) (length y) (length x) (meshgrid3 z y x).1.1 ∧
  is_arr3 (length z) (length y) (length x) (meshgrid3 z y x).1.2 ∧
  is_arr3 (length z) (length y) (length x) (meshgrid3 z y x).2.
Proof.
  unfold meshgrid3, is_arr3, is_arr2. cbn [fst snd].
  repeat split; try (by rewrite length_fmap);
    rewrite Forall_fmap; apply Forall_forall; intros ? _; unfold compose;
    (split; [by rewrite length_fmap|]);
    rewrite Forall_fmap; apply Forall_forall; intros ? _; unfold compose;
    by rewrite ?length_fmap.
Qed.

Lemma ifft1_length (x : list complex) : length (ifft1 x) = length x.
Proof. unfold ifft1. by rewrite length_fmap, length_seq. Qed.

Lemma is_arr2_transpose {A} (r c : nat) (a : list (list A)) :
  is_arr2 r c a → is_arr2 c r (transpose c a).
Proof.
  intros [<- Hc]. unfold transpose.
  induction Hc as [|row a Hrow Hc [IHl IHc]]; cbn.
  - split; [by rewrite length_replicate|]. by apply Forall_replicate.
  - split; [rewrite length_zip_with; lia|].
    clear -IHc. revert row.
    induction IHc as [|col cols Hcol IHc IH]; intros [|x row]; cbn; constructor.
    + cbn. lia.
    + apply IH.
Qed.

Lemma is_arr2_ifft2 (r c : nat) (s : list (list complex)) :
  is_arr2 r c s → is_arr2 r c (ifft2 s).
Proof.
  intros Hs. unfold ifft2.
  destruct s as [|row s'] eqn:Hs'.
  - destruct Hs as [<- _]. cbn. split; [done|constructor].
  - rewrite <-Hs' in *.
    assert (length row = c) as ->.
    { destruct Hs as [_ Hc]. rewrite Hs' in Hc. by apply Forall_cons in Hc as [? _]. }
    assert (length s = r) as -> by apply Hs.
    apply is_arr2_transpose.
    assert (∀ a0 b0 (a : list (list complex)),
              is_arr2 a0 b0 a → is_arr2 a0 b0 (lmap ifft1 a)) as Hmap.
    { intros a0 b0 a [Ha Hb]. split; [by rewrite length_fmap|].
      rewrite Forall_fmap. eapply Forall_impl; [exact Hb|].
      intros x Hx. cbn. by rewrite ifft1_length. }
    apply Hmap, is_arr2_transpose, Hmap, Hs.
Qed.

Lemma is_arr3_ifftn (d r c : nat) (x : list (list (list complex))) :
  is_arr3 d r c x → is_arr3 d r c (np_ifftn_12 x).
Proof.
  intros [Hd Hs]. unfold np_ifftn_12. split; [by rewrite length_fmap|].
  rewrite Forall_fmap. eapply Forall_impl; [exact Hs|].
  intros s. apply is_arr2_ifft2.
Qed.

Lemma is_arr2_sum (r c : nat) (arrays : list (list (list float))) :
  arrays ≠ [] → Forall (is_arr2 r c) arrays → is_arr2 r c (np_sum_axis0 arrays).
Proof.
  intros Hne Hall. destruct Hall as [|a rest Ha Hrest]; [done|]. cbn.
  clear Hne. revert a Ha. induction Hrest as [|b rest Hb Hrest IH]; intros a Ha; [done|].
  cbn. apply IH. by apply is_arr2_zip.
Qed.

Lemma psf_build_shapes (psf_shape : Z * Z * Z) (units : R * R * R)
    (lam n na : R) (masked sw : bool) (ky kx : list float) (kc : R) :
  let g := psf_build psf_shape units lam n na masked sw ky kx kc in
  is_arr3 (Z.to_nat psf_shape.1.1) (length ky) (length kx) (k_base g) ∧
  is_arr2 (length ky) (length kx) (k_rho g) ∧
  is_arr2 (length ky) (length kx) (k_phi g) ∧
  is_arr2 (length ky) (length kx) (k_mask2 g).
Proof.
  cbn [psf_build k_base k_rho k_phi k_mask2].
  destruct (z_axis_ok psf_shape.1.1 units.1.1) as [<- _].
  destruct (is_arr3_meshgrid3 (z_axis psf_shape.1.1 units.1.1) ky kx)
    as (Hz3 & Hy3 & Hx3).
  pose proof (is_arr2_meshgrid2_zip np_hypot ky kx) as Hr2.
  assert (is_arr3 (length (z_axis psf_shape.1.1 units.1.1)) (length ky) (length kx)
            (arr3_set_where
               (arr3_zip (k_prop_pt lam) (meshgrid3 (z_axis psf_shape.1.1 units.1.1) ky kx).1.1
                  (arr3_map (h_pt n lam)
                     (arr3_zip kr_pt (meshgrid3 (z_axis psf_shape.1.1 units.1.1) ky kx).1.2
                        (meshgrid3 (z_axis psf_shape.1.1 units.1.1) ky kx).2)))
               (arr3_map fisnan
                  (arr3_map (h_pt n lam)
                     (arr3_zip kr_pt (meshgrid3 (z_axis psf_shape.1.1 units.1.1) ky kx).1.2
                        (meshgrid3 (z_axis psf_shape.1.1 units.1.1) ky kx).2)))
               (Cx 0 0))) as Hprop.
  { unfold arr3_set_where.
    repeat first [apply is_arr3_zip | apply is_arr3_map | done]. }
  split; [|split; [|split]].
  - destruct masked; [|done].
    repeat first [apply is_arr3_zip | apply is_arr3_map | done].
  - destruct sw; [by apply is_arr2_map|done].
  - apply is_arr2_meshgrid2_zip.
  - by apply is_arr2_map.
Qed.

(** ** Phase of a constructed mode or wavefront *)

Lemma Forall2_const_r {A B} (P : B → Prop) (l : list A) (k : list B) :
  Forall2 (λ _ y, P y) l k → Forall P k.
Proof. induction 1; by constructor. Qed.

Lemma phi_phase_ok (phi : Phi) (r c : nat) (rho theta : list (list float))
    (normed : bool) :
  phi_constructed phi → is_arr2 r c rho → is_arr2 r c theta →
  ∃ p, phi_phase phi rho theta normed None = Ok p ∧ is_arr2 r c p.
Proof.
  intros Hphi Hrho Htheta. destruct phi as [z|w]; cbn [phi_phase].
  - destruct Hphi as (index & order & (n & m & Hv & ->)%Zernike_init_inv).
    unfold Zernike_phase. cbn [z_n z_m mk_zernike].
    rewrite (nm_polynomial_valid n m) by done. cbn [mbind result_bind].
    eexists. split; [done|]. by apply is_arr2_zip.
  - destruct Hphi as (amplitudes & order & Hw).
    apply ZernikeWavefront_init_inv in Hw as ([Hall _] & Hne & _).
    unfold ZernikeWavefront_phase.
    destruct (mapM_result_Forall2 (λ _ term, is_arr2 r c term)
                (λ za : Zernike * float,
                   p ← Zernike_phase za.1 rho theta normed None;
                   Ok (arr2_map (fmul za.2) p)) (zernikes w))
      as (terms & Hterms & HQ).
    { intros [z a] Hza. rewrite Forall_forall in Hall.
      destruct (Hall _ Hza) as (n & m & Hv & Hz). cbn in Hz. subst z.
      unfold Zernike_phase. cbn [fst snd z_n z_m mk_zernike].
      rewrite (nm_polynomial_valid n m) by done. cbn [mbind result_bind].
      eexists. split; [done|]. by apply is_arr2_map, is_arr2_zip. }
    rewrite Hterms. cbn [mbind result_bind]. eexists. split; [done|].
    apply is_arr2_sum; [|by eapply Forall2_const_r].
    intros ->. apply Forall2_nil_inv_r in HQ. done.
Qed.

Lemma coherent_psf_ok (psf_shape : Z * Z * Z) (units : R * R * R)
    (lam n na : R) (masked_c sw : bool) (g : PsfGenerator3D) (phi : Phi)
    (normed masked : bool) :
  PsfGenerator3D_init psf_shape units lam n na masked_c sw = Ok g →
  phi_constructed phi →
  ∃ psf,
    coherent_psf g phi normed masked = Ok psf ∧
    is_arr3 (Z.to_nat (nz g)) (Z.to_nat (ny g)) (Z.to_nat (nx g)) psf.
Proof.
  intros (ky & kx & _ & _ & Hky & _ & _ & Hkx & _ & ->)%PsfGenerator3D_init_inv Hphi.
  destruct (psf_build_shapes psf_shape units lam n na masked_c sw ky kx (1 * na / lam))
    as (Hbase & Hrho & Hphi2 & Hmask).
  set (g := psf_build _ _ _ _ _ _ _ _ _ _) in *.
  change (nz g) with psf_shape.1.1. change (ny g) with psf_shape.1.2.
  change (nx g) with psf_shape.2. rewrite <-Hky, <-Hkx.
  destruct (phi_phase_ok phi _ _ (k_rho g) (k_phi g) normed Hphi Hrho Hphi2)
    as (p & Hp & Hpshape).
  unfold coherent_psf, masked_phase. rewrite Hp.
  destruct masked; cbn [mbind result_bind]; (eexists; split; [done|]);
    apply is_arr3_ifftn, is_arr3_bcast; try done.
  - by apply is_arr2_map, is_arr2_zip.
  - by apply is_arr2_map.
Qed.

(** ** The centering shift *)

Lemma shape_12_rect {A} (d0 d1 d2 : nat) (x : list (list (list A))) :
  is_arr3 d0 d1 d2 x → (0 < d0)%nat → (0 < d1)%nat → shape_12 x = (d1, d2).
Proof.
  intros [Hd Hs] H0 H1. destruct x as [|s x]; [cbn in Hd; lia|].
  apply Forall_cons in Hs as [[Hr Hc] _]. cbn. rewrite Hr. f_equal.
  destruct s as [|row s]; [cbn in Hr; lia|].
  by apply Forall_cons in Hc as [? _].
Qed.

Lemma np_roll_fmap {A B} (f : A → B) (k : nat) (l : list A) :
  np_roll k (f <$> l) = f <$> np_roll k l.
Proof.
  unfold np_roll. by rewrite length_fmap, fmap_app, fmap_drop, fmap_take.
Qed.

Lemma shape_12_map {A B} (f : A → B) (x : list (list (list A))) :
  shape_12 (arr3_map f x) = shape_12 x.
Proof.
  destruct x as [|s x]; [done|]. cbn. unfold arr2_map. rewrite length_fmap.
  f_equal. destruct s as [|row s]; [done|]. cbn. by rewrite length_fmap.
Qed.

(** The shift commutes with any elementwise operation. *)
Lemma np_fftshift_12_map {A B} (f : A → B) (x : list (list (list A))) :
  np_fftshift_12 (arr3_map f x) = arr3_map f (np_fftshift_12 x).
Proof.
  unfold np_fftshift_12. rewrite shape_12_map.
  destruct (shape_12 x) as [d1 d2]. unfold arr3_map.
  rewrite <-!list_fmap_compose. apply list_fmap_ext. intros _ s _.
  unfold compose, arr2_map.
  rewrite <-(np_roll_fmap (lmap f)). f_equal.
  rewrite <-!list_fmap_compose. apply list_fmap_ext. intros _ row _.
  unfold compose. apply np_roll_fmap.
Qed.

(** Entry [(i, j, k)] of the shifted array comes from [(i, j - d1//2,
    k - d2//2)], indices taken modulo the extents. *)
Lemma np_fftshift_12_get {A} (d0 d1 d2 : nat) (x : list (list (list A)))
    (i j k : nat) :
  is_arr3 d0 d1 d2 x → (i < d0)%nat → (j < d1)%nat → (k < d2)%nat →
  arr3_get (np_fftshift_12 x) i j k =
  arr3_get x i ((j + (d1 - d1 `div` 2)) `mod` d1)%nat
               ((k + (d2 - d2 `div` 2)) `mod` d2)%nat.
Proof.
  intros Hx Hi Hj Hk. unfold np_fftshift_12.
  rewrite (shape_12_rect d0 d1 d2 x Hx) by lia.
  destruct Hx as [Hd Hs]. unfold arr3_get. rewrite list_lookup_fmap.
  destruct (lookup_lt_is_Some_2 x i ltac:(lia)) as [s Hsi]. rewrite Hsi.
  cbn [fmap option_fmap option_map mbind option_bind].
  rewrite Forall_lookup in Hs. destruct (Hs _ _ Hsi) as [Hr Hc].
  unfold arr2_get.
  rewrite np_roll_lookup by (rewrite length_fmap; lia).
  rewrite length_fmap, Hr.
  rewrite (Nat.mod_small (d1 `div` 2) d1)
    by (apply Nat.Div0.div_lt_upper_bound; lia).
  set (j' := ((j + (d1 - d1 `div` 2)) `mod` d1)%nat).
  assert (j' < d1)%nat as Hj' by (apply Nat.mod_upper_bound; lia).
  rewrite list_lookup_fmap.
  destruct (lookup_lt_is_Some_2 s j' ltac:(lia)) as [row Hrow]. rewrite Hrow.
  cbn [fmap option_fmap option_map mbind option_bind].
  rewrite Forall_lookup in Hc. specialize (Hc _ _ Hrow). cbn beta in Hc.
  rewrite np_roll_lookup by lia. rewrite Hc.
  by rewrite (Nat.mod_small (d2 `div` 2) d2)
    by (apply Nat.Div0.div_lt_upper_bound; lia).
Qed.

(** A roll only depends on the shift modulo the length. *)
Lemma np_roll_mod {A} (a b : nat) (x : list A) :
  (a `mod` length x = b `mod` length x)%nat → np_roll a x = np_roll b x.
Proof. intros H. unfold np_roll. by rewrite H. Qed.

(** On an extent that is even or one the shift is its own inverse. *)
Lemma np_fftshift_12_self_inverse {A} (d0 d1 d2 : nat) (x : list (list (list A))) :
  is_arr3 d0 d1 d2 x →
  (d1 `mod` 2 = 0 ∨ d1 = 1)%nat → (d2 `mod` 2 = 0 ∨ d2 = 1)%nat →
  np_fftshift_12 x = np_ifftshift_12 x.
Proof.
  intros Hx H1 H2. unfold np_fftshift_12, np_ifftshift_12.
  destruct (decide (0 < d0 ∧ 0 < d1)%nat) as [[Hd0 Hd1]|Hz].
  - rewrite (shape_12_rect d0 d1 d2 x Hx) by lia.
    destruct Hx as [_ Hs]. apply Forall_fmap_ext_1.
    eapply Forall_impl; [exact Hs|]. intros s [Hr Hc]. cbn beta.
    assert (lmap (np_roll (d2 `div` 2)) s = lmap (np_roll (d2 - d2 `div` 2)) s) as ->.
    { apply Forall_fmap_ext_1. eapply Forall_impl; [exact Hc|].
      intros row Hrow. cbn beta. apply np_roll_mod. rewrite Hrow.
      destruct H2 as [H2| ->]; [|done].
      pose proof (Nat.div_mod_eq d2 2). f_equal. lia. }
    apply np_roll_mod. rewrite length_fmap, Hr.
    destruct H1 as [H1| ->]; [|done].
    pose proof (Nat.div_mod_eq d1 2). f_equal. lia.
  - destruct Hx as [Hd Hs]. destruct x as [|s x]; [done|].
    cbn in Hd. apply Forall_cons in Hs as [[Hr Hc] Hs].
    assert (d1 = 0%nat) as -> by lia.
    destruct s; [|done]. cbn.
    replace (0 - 0 `div` 2)%nat with (0 `div` 2)%nat by done. done.
Qed.

Lemma to_nat_even_or_one (a : Z) :
  0 ≤ a → a `mod` 2 = 0 ∨ a = 1 → (Z.to_nat a `mod` 2 = 0 ∨ Z.to_nat a = 1)%nat.
Proof.
  intros Ha [Hm| ->]; [left|by right].
  apply Nat2Z.inj. rewrite Nat2Z.inj_mod, Z2Nat.id by done. exact Hm.
Qed.

(** C10: [incoherent_psf_abs] is the elementwise squared absolute value of
    [incoherent_psf]: both shift the same coherent field, and the shift
    commutes with the elementwise operation. *)
Theorem incoherent_psf_abs_is_abs2 (g : PsfGenerator3D) (phi : Phi)
    (normed masked : bool) :
  incoherent_psf_abs g phi normed masked =
  arr3_map (λ c, fpow (cabs c) 2) <$> incoherent_psf g phi normed masked.
Proof.
  unfold incoherent_psf_abs, incoherent_psf, my_ifftshift.
  destruct (coherent_psf g phi normed masked) as [psf|e]; [|done].
  cbn. f_equal. apply np_fftshift_12_map.
Qed.

(** C1 (as amended): for a constructed propagator and a constructed mode or
    wavefront, [incoherent_psf] returns the coherent complex field itself,
    each z-slice rolled by half its extent along both lateral axes (the
    zero-frequency-centering shift); where each lateral extent is even or
    one this roll is also the inverse shift. *)
Theorem incoherent_psf_is_shifted_field (psf_shape : Z * Z * Z) (units : R * R * R)
    (lam n na : R) (masked_c sw : bool) (g : PsfGenerator3D) (phi : Phi)
    (normed masked : bool) :
  PsfGenerator3D_init psf_shape units lam n na masked_c sw = Ok g →
  phi_constructed phi →
  ∃ field,
    coherent_psf g phi normed masked = Ok field ∧
    is_arr3 (Z.to_nat (nz g)) (Z.to_nat (ny g)) (Z.to_nat (nx g)) field ∧
    incoherent_psf g phi normed masked = Ok (np_fftshift_12 field) ∧
    (∀ i j k : nat,
       (i < Z.to_nat (nz g))%nat → (j < Z.to_nat (ny g))%nat →
       (k < Z.to_nat (nx g))%nat →
       arr3_get (np_fftshift_12 field) i j k =
       arr3_get field i
         ((j + (Z.to_nat (ny g) - Z.to_nat (ny g) `div` 2)) `mod` Z.to_nat (ny g))%nat
         ((k + (Z.to_nat (nx g) - Z.to_nat (nx g) `div` 2)) `mod` Z.to_nat (nx g))%nat) ∧
    (ny g `mod` 2 = 0 ∨ ny g = 1 → nx g `mod` 2 = 0 ∨ nx g = 1 →
     np_fftshift_12 field = np_ifftshift_12 field).
Proof.
  intros Hg Hphi.
  destruct (coherent_psf_ok _ _ _ _ _ _ _ _ phi normed masked Hg Hphi)
    as (field & Hfield & Hshape).
  exists field. split; [done|]. split; [done|]. split; [|split].
  - unfold incoherent_psf. by rewrite Hfield.
  - intros i j k. by apply np_fftshift_12_get.
  - intros Hy Hx.
    apply PsfGenerator3D_init_inv in Hg as (ky & kx & _ & Hny & _ & _ & Hnx & _ & _ & ->).
    cbn [ny nx psf_build] in *.
    eapply np_fftshift_12_self_inverse; [exact Hshape|..].
    + by apply to_nat_even_or_one; [lia|].
    + by apply to_nat_even_or_one; [lia|].
Qed.

(** ** A propagator with three columns *)

Lemma cexp_imag (t : R) : cexp (Cx 0 t) = Cx (cos t) (sin t).
Proof. unfold cexp. rewrite exp_0. f_equal; lra. Qed.

Lemma cdiv_real (x y u : R) :
  u ≠ 0%R → cdiv (Cx x y) (Cx u 0) = Cx (x / u) (y / u).
Proof.
  intros Hu. unfold cdiv. rewrite decide_False by nra. f_equal; field; nra.
Qed.

Lemma cmul_0_l (c : complex) : cisnan c = false → cmul (Cx 0 0) c = Cx 0 0.
Proof. destruct c as [|x y]; [done|]. intros _. cbn. f_equal; lra. Qed.

Lemma aberration_pt_Fin (lam p : R) :
  lam ≠ 0%R → aberration_pt lam (Fin p) = Cx (cos (2 * PI * p / lam)) (sin (2 * PI * p / lam)).
Proof.
  intros Hlam. unfold aberration_pt. cbn [of_float cmul].
  rewrite cdiv_real by done. rewrite <-cexp_imag. f_equal. f_equal; field; done.
Qed.

Lemma ifft1_single (x y : R) : ifft1 [Cx x y] = [Cx x y].
Proof.
  unfold ifft1. cbn [length seq fmap list_fmap imap csum foldl INR].
  replace (2 * PI * 0 * 0 / 1)%R with 0%R by field.
  rewrite cexp_imag, cos_0, sin_0. cbn [cmul cadd].
  rewrite cdiv_real by lra. f_equal. f_equal; field.
Qed.

Lemma ifft1_010 :
  ifft1 [Cx 0 0; Cx 1 0; Cx 0 0] =
  [Cx (1 / 3) 0;
   Cx (cos (2 * (PI / 3)) / 3) (sin (2 * (PI / 3)) / 3);
   Cx (cos (4 * (PI / 3)) / 3) (sin (4 * (PI / 3)) / 3)].
Proof.
  unfold ifft1. cbn [length seq fmap list_fmap imap csum foldl]. unfold compose.
  change (INR 0) with 0%R. change (INR 1) with 1%R.
  replace (INR 2) with 2%R by (cbn; lra). replace (INR 3) with 3%R by (cbn; lra).
  rewrite !cexp_imag. cbn [cmul cadd]. rewrite !cdiv_real by lra.
  replace (2 * PI * 0 * 1 / 3)%R with 0%R by field.
  replace (2 * PI * 1 * 1 / 3)%R with (2 * (PI / 3))%R by field.
  replace (2 * PI * 2 * 1 / 3)%R with (4 * (PI / 3))%R by field.
  rewrite cos_0, sin_0.
  repeat (f_equal; try lra).
Qed.

Lemma ifft2_010 :
  ifft2 [[Cx 0 0; Cx 1 0; Cx 0 0]] =
  [[Cx (1 / 3) 0;
    Cx (cos (2 * (PI / 3)) / 3) (sin (2 * (PI / 3)) / 3);
    Cx (cos (4 * (PI / 3)) / 3) (sin (4 * (PI / 3)) / 3)]].
Proof.
  unfold ifft2. cbn [length fmap list_fmap]. rewrite ifft1_010.
  cbn [transpose foldr replicate zip_with fmap list_fmap].
  rewrite !ifft1_single. reflexivity.
Qed.

Lemma freq_axis_3 :
  freq_axis 3 1 = [Fin (IZR (-1) * (1 / (IZR 3 * 1))); Fin (IZR 0 * (1 / (IZR 3 * 1)));
                   Fin (IZR 1 * (1 / (IZR 3 * 1)))].
Proof. reflexivity. Qed.
Lemma freq_axis_1 : freq_axis 1 1 = [Fin (IZR 0 * (1 / (IZR 1 * 1)))].
Proof. reflexivity. Qed.
Lemma z_axis_1 : z_axis 1 1 = [Fin (1 * (0 - 0))].
Proof. reflexivity. Qed.

(** A frequency the pupil mask removes contributes nothing. *)
Lemma ku_masked_out (n lam kc z ky kx : R) :
  lam ≠ 0%R → ¬ (sqrt (ky ^ 2 + kx ^ 2) < kc)%R →
  cmul
    (cmul (of_float (of_bool (flt (kr_pt (Fin ky) (Fin kx)) (Fin kc))))
          (if fisnan (h_pt n lam (kr_pt (Fin ky) (Fin kx))) then Cx 0 0
           else k_prop_pt lam (Fin z) (h_pt n lam (kr_pt (Fin ky) (Fin kx)))))
    (aberration_pt lam
       (nm_polynomial_pt 0 0 false (np_hypot (Fin ky) (Fin kx))
          (np_arctan2 (Fin ky) (Fin kx)))) = Cx 0 0.
Proof.
  intros Hlam Hcut. rewrite defocus_entry_pt by done.
  rewrite kr_pt_Fin. cbn [flt]. rewrite bool_decide_eq_false_2 by done.
  cbn [of_bool of_float].
  rewrite np_hypot_Fin. cbn [np_arctan2 flift2]. rewrite nm_polynomial_pt_0_0.
  rewrite cmul_0_l.
  - apply cmul_0_l. destruct (fle _ _); by rewrite aberration_pt_Fin.
  - case_decide; [done|]. unfold defocus_term. by rewrite cexp_imag.
Qed.

(** The zero frequency of the focal plane passes unchanged. *)
Lemma ku_center (n lam kc z ky kx : R) :
  lam = 1%R → n = 1%R → z = 0%R → ky = 0%R → kx = 0%R → (0 < kc)%R →
  cmul
    (cmul (of_float (of_bool (flt (kr_pt (Fin ky) (Fin kx)) (Fin kc))))
          (if fisnan (h_pt n lam (kr_pt (Fin ky) (Fin kx))) then Cx 0 0
           else k_prop_pt lam (Fin z) (h_pt n lam (kr_pt (Fin ky) (Fin kx)))))
    (aberration_pt lam
       (nm_polynomial_pt 0 0 false (np_hypot (Fin ky) (Fin kx))
          (np_arctan2 (Fin ky) (Fin kx)))) = Cx 1 0.
Proof.
  intros -> -> -> -> -> Hkc. rewrite defocus_entry_pt by lra.
  rewrite kr_pt_Fin. cbn [flt].
  replace (0 ^ 2 + 0 ^ 2)%R with 0%R by ring. rewrite sqrt_0.
  rewrite bool_decide_eq_true_2 by done. cbn [of_bool of_float].
  rewrite decide_False by (unfold radicand; lra).
  unfold defocus_term. replace (-2 * PI * (0 / 1) * sqrt (radicand 1 1 0 0))%R with 0%R by field.
  rewrite cexp_imag, cos_0, sin_0.
  rewrite np_hypot_Fin. cbn [np_arctan2 flift2]. rewrite nm_polynomial_pt_0_0.
  replace (0 * 0 + 0 * 0)%R with 0%R by ring. rewrite sqrt_0. cbn [fle].
  rewrite bool_decide_eq_true_2 by lra.
  rewrite aberration_pt_Fin by lra.
  replace (2 * PI * 1 / 1)%R with (2 * PI)%R by field. rewrite cos_2PI, sin_2PI.
  cbn [cmul]. f_equal; lra.
Qed.

Lemma sqrt_not_lt (x c : R) : (0 <= c)%R → (c * c <= x)%R → ¬ (sqrt x < c)%R.
Proof.
  intros Hc Hx. pose proof (sqrt_le_1_alt (c * c) x Hx) as Hle.
  rewrite sqrt_square in Hle by done. lra.
Qed.

Lemma coherent_psf_ex :
  coherent_psf psf_ex (PhiZernike (mk_zernike 0 0)) false false =
  Ok [[[Cx (1 / 3) 0;
        Cx (cos (2 * (PI / 3)) / 3) (sin (2 * (PI / 3)) / 3);
        Cx (cos (4 * (PI / 3)) / 3) (sin (4 * (PI / 3)) / 3)]]].
Proof.
  unfold coherent_psf, masked_phase, psf_ex.
  cbn [k_base k_rho k_phi lam_detection psf_build fst snd phi_phase].
  rewrite freq_axis_3, freq_axis_1, z_axis_1.
  unfold Zernike_phase. cbn [z_n z_m mk_zernike].
  rewrite (nm_polynomial_valid 0 0) by apply valid_nm_0_0.
  cbn -[kr_pt h_pt k_prop_pt flt cmul of_float of_bool fisnan fmul fsub of_Z
        aberration_pt nm_polynomial_pt np_hypot np_arctan2 ifft2].
  rewrite (ku_center 1 1 _ (1 * (0 - 0)) (0 * (1 / (1 * 1))) (0 * (1 / (3 * 1))));
    [|lra..].
  rewrite !ku_masked_out.
  - by rewrite ifft2_010.
  - lra.
  - apply sqrt_not_lt; lra.
  - lra.
  - apply sqrt_not_lt; lra.
Qed.

(** C1 (counterexample): on a stack with three columns, for the piston mode,
    what [incoherent_psf] returns is not the inverse shift of the coherent
    field. *)
Lemma incoherent_psf_not_inverse_shift :
  ∃ g z field out,
    PsfGenerator3D_init (1, 1, 3) (1%R, 1%R, 1%R) 1 1 (1 / 4) true false = Ok g ∧
    Zernike_init (ISeq [0; 0]) "noll" = Ok z ∧
    coherent_psf g (PhiZernike z) false false = Ok field ∧
    incoherent_psf g (PhiZernike z) false false = Ok out ∧
    out ≠ np_ifftshift_12 field.
Proof.
  exists psf_ex, (mk_zernike 0 0). eexists _, _.
  split; [apply PsfGenerator3D_init_ok; cbn; (lia || lra)|].
  split; [apply Zernike_init_pair, valid_nm_0_0|].
  split; [apply coherent_psf_ex|].
  split; [unfold incoherent_psf; by rewrite coherent_psf_ex|].
  cbn. intros [= H _]. rewrite cos_2PI3 in H. lra.
Qed.

Lemma incoherent_psf_is_shifted_field_witness :
  PsfGenerator3D_init (1, 1, 3) (1%R, 1%R, 1%R) 1 1 (1 / 4) true false = Ok psf_ex ∧
  phi_constructed (PhiZernike (mk_zernike 0 0)) ∧
  ∃ field,
    coherent_psf psf_ex (PhiZernike (mk_zernike 0 0)) false false = Ok field ∧
    is_arr3 (Z.to_nat (nz psf_ex)) (Z.to_nat (ny psf_ex)) (Z.to_nat (nx psf_ex)) field ∧
    incoherent_psf psf_ex (PhiZernike (mk_zernike 0 0)) false false =
      Ok (np_fftshift_12 field) ∧
    (∀ i j k : nat,
       (i < Z.to_nat (nz psf_ex))%nat → (j < Z.to_nat (ny psf_ex))%nat →
       (k < Z.to_nat (nx psf_ex))%nat →
       arr3_get (np_fftshift_12 field) i j k =
       arr3_get field i
         ((j + (Z.to_nat (ny psf_ex) - Z.to_nat (ny psf_ex) `div` 2))
            `mod` Z.to_nat (ny psf_ex))%nat
         ((k + (Z.to_nat (nx psf_ex) - Z.to_nat (nx psf_ex) `div` 2))
            `mod` Z.to_nat (nx psf_ex))%nat) ∧
    (ny psf_ex `mod` 2 = 0 ∨ ny psf_ex = 1 → nx psf_ex `mod` 2 = 0 ∨ nx psf_ex = 1 →
     np_fftshift_12 field = np_ifftshift_12 field).
Proof.
  assert (PsfGenerator3D_init (1, 1, 3) (1%R, 1%R, 1%R) 1 1 (1 / 4) true false
          = Ok psf_ex) as Hg.
  { apply PsfGenerator3D_init_ok; cbn; (lia || lra). }
  assert (phi_constructed (PhiZernike (mk_zernike 0 0))) as Hphi.
  { exists (ISeq [0; 0]), "noll"%string. apply Zernike_init_pair, valid_nm_0_0. }
  split; [exact Hg|]. split; [exact Hphi|].
  exact (incoherent_psf_is_shifted_field _ _ _ _ _ _ _ _ _ false false Hg Hphi).
Defined.

(** ** The one-point grid *)

Lemma rho_theta_1 :
  rho_theta 1 = Ok ([[np_hypot (Fin (-1)) (Fin (-1))]],
                    [[np_arctan2 (Fin (-1)) (Fin (-1))]]).
Proof. reflexivity. Qed.

Lemma outside_mask_1 : outside_mask 1 = Ok [[true]].
Proof.
  rewrite (outside_mask_ok 1 _ _ rho_theta_1).
  - cbn [arr2_map fmap list_fmap]. rewrite np_hypot_Fin. cbn [flt].
    rewrite bool_decide_eq_true_2; [done|].
    replace (-1 * -1 + -1 * -1)%R with 2%R by ring.
    rewrite <-sqrt_1 at 1. apply sqrt_lt_1_alt. lra.
  - repeat constructor.
  - repeat constructor. by rewrite np_hypot_Fin.
  - repeat constructor.
Qed.

(** With the substitute [5.] on the one-point grid, whose only point lies
    outside the disc, the wavefront [(1., 2., 3.)] evaluates to
    [1 * 5 + 2 * 5 + 3 * 5]: every mode contributes its own substitute. *)
Lemma polynomial_adds_substitutes :
  ZernikeWavefront_polynomial wavefront_123 1 true (Fin 5) =
    Ok [[Fin (1 * 5 + 2 * 5 + 3 * 5)]] ∧
  Fin (1 * 5 + 2 * 5 + 3 * 5) ≠ Fin 5.
Proof.
  split; [|intros [= H]; lra].
  unfold ZernikeWavefront_polynomial, wavefront_123.
  cbn [zernikes mapM mbind result_bind fst snd].
  assert (0 < 1) as Hs by lia.
  rewrite (Zernike_polynomial_valid 0 0 1 true (Fin 5) _ _ _
             valid_nm_0_0 Hs rho_theta_1 outside_mask_1).
  cbn [mbind result_bind].
  rewrite (Zernike_polynomial_valid 1 1 1 true (Fin 5) _ _ _
             valid_nm_1_1 Hs rho_theta_1 outside_mask_1).
  cbn [mbind result_bind].
  rewrite (Zernike_polynomial_valid 1 (-1) 1 true (Fin 5) _ _ _
             valid_nm_1_m1 Hs rho_theta_1 outside_mask_1).
  reflexivity.
Qed.

(** * Further properties

    ** Domains of the two index schemes *)

Lemma triangular_locate (N : nat) (j : Z) :
  1 ≤ j → 2 * j ≤ Z.of_nat N * (Z.of_nat N + 1) →
  ∃ n, 0 ≤ n < Z.of_nat N ∧ n * (n + 1) < 2 * j ≤ n * (n + 1) + 2 * n + 2.
Proof.
  intros Hj. induction N as [|N IH]; intros HN; [lia|].
  destruct (decide (2 * j ≤ Z.of_nat N * (Z.of_nat N + 1))) as [Hle|Hgt].
  - destruct (IH Hle) as (n & Hn & Hr). exists n. lia.
  - exists (Z.of_nat N). nia.
Qed.

Lemma noll_surj (j : Z) :
  1 ≤ j ≤ 20100 → ∃ n m, valid_nm n m ∧ noll n m = j.
Proof.
  intros Hj.
  destruct (triangular_locate 200 j) as (n & Hn & Hr); [lia|lia|].
  pose proof (triangular_even n) as He.
  pose proof (mod4_cases n) as H4.
  set (k := j - (n * (n + 1)) `div` 2).
  assert (1 ≤ k ≤ n + 1) as Hk by (unfold k; lia).
  assert (j = (n * (n + 1)) `div` 2 + k) as Hjk by (unfold k; lia).
  clearbody k.
  exists n.
  destruct (decide ((k - n) `mod` 2 = 0)) as [Hpar|Hpar].
  - destruct (decide (n `mod` 4 = 0 ∨ n `mod` 4 = 1)) as [Hq|Hq].
    + exists k. split; [unfold valid_nm; lia|].
      unfold noll. set (P := n * (n + 1)) in *. clearbody P.
      case_in_pair; cbn; lia.
    + exists (- k). split; [unfold valid_nm; lia|].
      unfold noll. set (P := n * (n + 1)) in *. clearbody P.
      case_in_pair; cbn; lia.
  - destruct (decide (n `mod` 4 = 0 ∨ n `mod` 4 = 1)) as [Hq|Hq].
    + exists (- (k - 1)). split; [unfold valid_nm; lia|].
      unfold noll. set (P := n * (n + 1)) in *. clearbody P.
      case_in_pair; cbn; lia.
    + exists (k - 1). split; [unfold valid_nm; lia|].
      unfold noll. set (P := n * (n + 1)) in *. clearbody P.
      case_in_pair; cbn; lia.
Qed.

Lemma ansi_surj (j : Z) :
  0 ≤ j ≤ 20099 → ∃ n m, valid_nm n m ∧ nm_to_ansi n m = j.
Proof.
  intros Hj.
  destruct (triangular_locate 200 (j + 1)) as (n & Hn & Hr); [lia|lia|].
  pose proof (triangular_even n) as He.
  exists n, (2 * j - n * (n + 2)).
  assert (valid_nm n (2 * j - n * (n + 2))) as Hv.
  { unfold valid_nm. split; [lia|]. split; [nia|].
    replace (n - (2 * j - n * (n + 2))) with (n * (n + 1) + 2 * (n - j)) by lia.
    set (P := n * (n + 1)) in *. clearbody P. lia. }
  split; [done|].
  destruct Hv as (? & Hm & Hp).
  pose proof (ansi_range n _ ltac:(lia) Hm Hp). lia.
Qed.

Lemma noll_bounds (n m : Z) : valid_nm n m → 1 ≤ noll n m ≤ 20100.
Proof.
  intros (Hn & Hm & _). pose proof (noll_range n m ltac:(lia) Hm). nia.
Qed.

Lemma ansi_bounds (n m : Z) : valid_nm n m → 0 ≤ nm_to_ansi n m ≤ 20099.
Proof.
  intros (Hn & Hm & Hp). pose proof (ansi_range n m ltac:(lia) Hm Hp). nia.
Qed.

Lemma Zernike_init_in_noll_None (cls : ZernikeCls) (j : Z) (order : string) :
  str_lower order = "noll"%string → _noll_to_nm cls !! j = None →
  Zernike_init_in cls (IInt j) order =
  Raise (ValueError "Your input for index is int and input for Zernike nomenclature is Noll: Could not identify the Zernike polynomial with this index").
Proof. intros Ho Hj. unfold Zernike_init_in. cbn. by rewrite Ho, Hj. Qed.

Lemma Zernike_init_in_ansi_None (cls : ZernikeCls) (j : Z) (order : string) :
  str_lower order = "ansi"%string → _ansi_to_nm cls !! j = None →
  Zernike_init_in cls (IInt j) order =
  Raise (ValueError "Your input for index is int and input for Zernike nomenclature is ANSI: Could not identify the Zernike polynomial with this index").
Proof. intros Ho Hj. unfold Zernike_init_in. cbn. by rewrite Ho, Hj. Qed.

Lemma noll_to_nm_None (j : Z) :
  ¬ (1 ≤ j ≤ 20100) → _noll_to_nm Zernike_cls !! j = None.
Proof.
  intros Hj. apply eq_None_not_Some. intros [[n m] H].
  apply noll_to_nm_Some in H as [Hv <-]. apply noll_bounds in Hv. lia.
Qed.

Lemma ansi_to_nm_None (j : Z) :
  ¬ (0 ≤ j ≤ 20099) → _ansi_to_nm Zernike_cls !! j = None.
Proof.
  intros Hj. apply eq_None_not_Some. intros [[n m] H].
  apply ansi_to_nm_Some in H as [Hv <-]. apply ansi_bounds in Hv. lia.
Qed.

(** X1: for an order that lower-cases to ['noll'], [Zernike(j, order)] succeeds
    exactly for [1 <= j <= 20100]: inside that range the object has Noll index
    [j] (and [nm_to_noll] of its descriptor is [j]); outside it the
    constructor raises the [ValueError] of the Noll lookup. *)
Theorem noll_index_domain (j : Z) (order : string) :
  str_lower order = "noll"%string →
  (1 ≤ j ≤ 20100 →
     ∃ z, Zernike_init (IInt j) order = Ok z ∧ z_index_noll z = j ∧
          nm_to_noll (z_n z) (z_m z) = Ok j) ∧
  (¬ (1 ≤ j ≤ 20100) →
     Zernike_init (IInt j) order =
     Raise (ValueError "Your input for index is int and input for Zernike nomenclature is Noll: Could not identify the Zernike polynomial with this index")).
Proof.
  intros Ho. split.
  - intros (n & m & Hv & <-)%noll_surj. exists (mk_zernike n m).
    split; [|split; [done|apply nm_to_noll_ok]].
    apply Zernike_init_in_noll; [apply Zernike_cls_spec|done|].
    by apply noll_to_nm_lookup.
  - intros Hj. by apply Zernike_init_in_noll_None, noll_to_nm_None.
Qed.

Lemma noll_index_domain_witness :
  str_lower "Noll" = "noll"%string ∧
  (1 ≤ 7 ≤ 20100 →
     ∃ z, Zernike_init (IInt 7) "Noll" = Ok z ∧ z_index_noll z = 7 ∧
          nm_to_noll (z_n z) (z_m z) = Ok 7) ∧
  (¬ (1 ≤ 7 ≤ 20100) →
     Zernike_init (IInt 7) "Noll" =
     Raise (ValueError "Your input for index is int and input for Zernike nomenclature is Noll: Could not identify the Zernike polynomial with this index")).
Proof. split; [reflexivity|]. apply (noll_index_domain 7 "Noll"). reflexivity. Defined.

(** X2: for an order that lower-cases to ['ansi'], [Zernike(j, order)] succeeds
    exactly for [0 <= j <= 20099]: inside that range the object has ANSI index
    [j]; outside it the constructor raises the [ValueError] of the ANSI
    lookup. *)
Theorem ansi_index_domain (j : Z) (order : string) :
  str_lower order = "ansi"%string →
  (0 ≤ j ≤ 20099 →
     ∃ z, Zernike_init (IInt j) order = Ok z ∧ z_index_ansi z = j ∧
          nm_to_ansi (z_n z) (z_m z) = j) ∧
  (¬ (0 ≤ j ≤ 20099) →
     Zernike_init (IInt j) order =
     Raise (ValueError "Your input for index is int and input for Zernike nomenclature is ANSI: Could not identify the Zernike polynomial with this index")).
Proof.
  intros Ho. split.
  - intros (n & m & Hv & <-)%ansi_surj. exists (mk_zernike n m).
    split; [|done].
    apply Zernike_init_in_ansi; [apply Zernike_cls_spec|done|].
    by apply ansi_to_nm_lookup.
  - intros Hj. by apply Zernike_init_in_ansi_None, ansi_to_nm_None.
Qed.

Lemma ansi_index_domain_witness :
  str_lower "ANSI" = "ansi"%string ∧
  (0 ≤ 20100 ≤ 20099 →
     ∃ z, Zernike_init (IInt 20100) "ANSI" = Ok z ∧ z_index_ansi z = 20100 ∧
          nm_to_ansi (z_n z) (z_m z) = 20100) ∧
  (¬ (0 ≤ 20100 ≤ 20099) →
     Zernike_init (IInt 20100) "ANSI" =
     Raise (ValueError "Your input for index is int and input for Zernike nomenclature is ANSI: Could not identify the Zernike polynomial with this index")).
Proof. split; [reflexivity|]. apply (ansi_index_domain 20100 "ANSI"). reflexivity. Defined.

Lemma ansi_names_index (i : nat) (s : string) :
  ansi_names !! i = Some s →
  str_isdigit s = false ∧ str_lower s = s ∧ py_index s ansi_names = Ok (Z.of_nat i).
Proof.
  intros H.
  do 15 (destruct i as [|i]; [injection H as <-; by vm_compute|]).
  done.
Qed.

Lemma ansi_name_lookup (j : Z) (s : string) :
  0 ≤ j → ansi_name j = Some s → j < 15 ∧ ansi_names !! Z.to_nat j = Some s.
Proof.
  intros Hj. unfold ansi_name. case_bool_decide; [|done]. done.
Qed.

Lemma Zernike_init_of_name (i : nat) (s order : string) :
  str_isdigit s = false → ansi_names !! i = Some (str_lower s) →
  ∃ n m, valid_nm n m ∧ nm_to_ansi n m = Z.of_nat i ∧
         Zernike_init (IStr s) order = Ok (mk_zernike n m).
Proof.
  intros Hd Hi.
  pose proof (lookup_lt_Some _ _ _ Hi) as Hlt. change (length ansi_names) with 15%nat in Hlt.
  destruct (ansi_names_index i _ Hi) as (_ & _ & Hidx).
  destruct (ansi_surj (Z.of_nat i)) as (n & m & Hv & Ha); [lia|].
  exists n, m. split; [done|]. split; [done|].
  rewrite (Zernike_init_name s (Z.of_nat i) order Hd Hidx), <- Ha.
  by apply Zernike_init_ansi.
Qed.

(** X3: a constructed mode is rebuilt from any of its own attributes: from its
    Noll index, from its ANSI index, from its descriptor [(n, m)] (whatever
    the order argument) and from its name, when it has one. *)
Theorem Zernike_reconstruct (index : PyIndex) (order order' : string) (z : Zernike) :
  Zernike_init index order = Ok z →
  Zernike_init (IInt (z_index_noll z)) "noll" = Ok z ∧
  Zernike_init (IInt (z_index_ansi z)) "ansi" = Ok z ∧
  Zernike_init (ISeq [z_n z; z_m z]) order' = Ok z ∧
  (∀ s, z_name z = Some s → Zernike_init (IStr s) order' = Ok z).
Proof.
  intros (n & m & Hv & ->)%Zernike_init_inv.
  split; [by apply Zernike_init_noll|].
  split; [by apply Zernike_init_ansi|].
  split; [by apply Zernike_init_pair|].
  intros s Hs. cbn in Hs.
  apply ansi_name_lookup in Hs as [Hlt Hs]; [|by apply ansi_nonneg].
  destruct (ansi_names_index _ _ Hs) as (Hd & Hl & _).
  rewrite <- Hl in Hs.
  destruct (Zernike_init_of_name _ s order' Hd Hs) as (n' & m' & Hv' & Ha & ->).
  rewrite Z2Nat.id in Ha by by apply ansi_nonneg.
  pose proof (ansi_inj _ _ _ _ Hv' Hv Ha) as Hinj. by injection Hinj as -> ->.
Qed.

Lemma Zernike_reconstruct_witness :
  Zernike_init (ISeq [2; 0]) "noll" = Ok (mk_zernike 2 0) ∧
  Zernike_init (IInt (z_index_noll (mk_zernike 2 0))) "noll" = Ok (mk_zernike 2 0) ∧
  Zernike_init (IInt (z_index_ansi (mk_zernike 2 0))) "ansi" = Ok (mk_zernike 2 0) ∧
  Zernike_init (ISeq [z_n (mk_zernike 2 0); z_m (mk_zernike 2 0)]) "ansi" =
    Ok (mk_zernike 2 0) ∧
  (∀ s, z_name (mk_zernike 2 0) = Some s →
        Zernike_init (IStr s) "ansi" = Ok (mk_zernike 2 0)).
Proof.
  split; [apply Zernike_init_pair, valid_nm_2_0|].
  apply (Zernike_reconstruct (ISeq [2; 0]) "noll" "ansi").
  apply Zernike_init_pair, valid_nm_2_0.
Defined.

Lemma ansi_lt_lex_nat (n m n' m' : Z) :
  0 ≤ n → Z.abs m ≤ n → (n - m) `mod` 2 = 0 →
  0 ≤ n' → Z.abs m' ≤ n' → (n' - m') `mod` 2 = 0 →
  nm_to_ansi n m < nm_to_ansi n' m' ↔ n < n' ∨ n = n' ∧ m < m'.
Proof.
  intros Hn Hm Hp Hn' Hm' Hp'.
  pose proof (ansi_range n m ltac:(lia) Hm Hp) as Ha.
  pose proof (ansi_range n' m' ltac:(lia) Hm' Hp') as Ha'.
  split.
  - intros Hlt. destruct (Z.lt_trichotomy n n') as [?|[->|Hgt]]; [by left|right; lia|].
    pose proof (triangular_step n' n ltac:(lia) Hgt). lia.
  - intros [Hlt|[-> Hlt]]; [|lia].
    pose proof (triangular_step n n' ltac:(lia) Hlt). lia.
Qed.

Lemma ansi_lt_lex (n m n' m' : Z) :
  valid_nm n m → valid_nm n' m' →
  nm_to_ansi n m < nm_to_ansi n' m' ↔ n < n' ∨ n = n' ∧ m < m'.
Proof.
  intros (Hn & Hm & Hp) (Hn' & Hm' & Hp'). apply ansi_lt_lex_nat; (done || lia).
Qed.

(** X4: on constructed modes [__eq__] is equality of the objects, of their ANSI
    indices and of their Noll indices; [__lt__] is a strict total order (exactly
    one of [a < b], [a == b], [b < a] holds) and it is the lexicographic order
    of the descriptors [(n, m)]. *)
Theorem Zernike_comparisons (i1 i2 : PyIndex) (o1 o2 : string) (a b : Zernike) :
  Zernike_init i1 o1 = Ok a → Zernike_init i2 o2 = Ok b →
  (Zernike_eq a b = true ↔ a = b) ∧
  (Zernike_eq a b = true ↔ z_index_ansi a = z_index_ansi b) ∧
  (Zernike_eq a b = true ↔ z_index_noll a = z_index_noll b) ∧
  (Zernike_lt a b = true ∨ Zernike_eq a b = true ∨ Zernike_lt b a = true) ∧
  (Zernike_lt a b = true → Zernike_lt b a = false ∧ Zernike_eq a b = false) ∧
  (Zernike_lt a b = true ↔ z_n a < z_n b ∨ z_n a = z_n b ∧ z_m a < z_m b).
Proof.
  intros (n & m & Hv & ->)%Zernike_init_inv (n' & m' & Hv' & ->)%Zernike_init_inv.
  assert (Zernike_eq (mk_zernike n m) (mk_zernike n' m') = true ↔ (n, m) = (n', m'))
    as Heq by (unfold Zernike_eq; cbn; apply bool_decide_eq_true).
  unfold Zernike_lt. cbn [z_index_ansi z_index_noll mk_zernike].
  split; [apply Zernike_eq_mk|].
  split; [rewrite Heq; split; [by intros [= -> ->]|by apply ansi_inj]|].
  split; [rewrite Heq; split; [by intros [= -> ->]|by apply noll_inj]|].
  split.
  - destruct (Z.lt_trichotomy (nm_to_ansi n m) (nm_to_ansi n' m')) as [?|[He|?]].
    + left. by apply bool_decide_eq_true.
    + right; left. apply Heq. by apply ansi_inj.
    + right; right. by apply bool_decide_eq_true.
  - split.
    + intros Hlt%bool_decide_eq_true. split.
      * apply bool_decide_eq_false. lia.
      * apply not_true_iff_false. rewrite Heq. intros [= -> ->]. lia.
    + cbn [z_n z_m]. rewrite bool_decide_eq_true. by apply ansi_lt_lex.
Qed.

Lemma Zernike_comparisons_witness :
  Zernike_init (ISeq [2; 0]) "noll" = Ok (mk_zernike 2 0) ∧
  Zernike_init (ISeq [1; 1]) "noll" = Ok (mk_zernike 1 1) ∧
  (Zernike_eq (mk_zernike 2 0) (mk_zernike 1 1) = true ↔ mk_zernike 2 0 = mk_zernike 1 1) ∧
  (Zernike_eq (mk_zernike 2 0) (mk_zernike 1 1) = true ↔
   z_index_ansi (mk_zernike 2 0) = z_index_ansi (mk_zernike 1 1)) ∧
  (Zernike_eq (mk_zernike 2 0) (mk_zernike 1 1) = true ↔
   z_index_noll (mk_zernike 2 0) = z_index_noll (mk_zernike 1 1)) ∧
  (Zernike_lt (mk_zernike 2 0) (mk_zernike 1 1) = true ∨
   Zernike_eq (mk_zernike 2 0) (mk_zernike 1 1) = true ∨
   Zernike_lt (mk_zernike 1 1) (mk_zernike 2 0) = true) ∧
  (Zernike_lt (mk_zernike 2 0) (mk_zernike 1 1) = true →
   Zernike_lt (mk_zernike 1 1) (mk_zernike 2 0) = false ∧
   Zernike_eq (mk_zernike 2 0) (mk_zernike 1 1) = false) ∧
  (Zernike_lt (mk_zernike 2 0) (mk_zernike 1 1) = true ↔
   z_n (mk_zernike 2 0) < z_n (mk_zernike 1 1) ∨
   z_n (mk_zernike 2 0) = z_n (mk_zernike 1 1) ∧
   z_m (mk_zernike 2 0) < z_m (mk_zernike 1 1)).
Proof.
  split; [apply Zernike_init_pair, valid_nm_2_0|].
  split; [apply Zernike_init_pair, valid_nm_1_1|].
  apply (Zernike_comparisons (ISeq [2; 0]) (ISeq [1; 1]) "noll" "noll").
  - apply Zernike_init_pair, valid_nm_2_0.
  - apply Zernike_init_pair, valid_nm_1_1.
Defined.

Lemma Zernike_init_in_int_raises (cls : ZernikeCls) (j : Z) (order : string) (e : exn) :
  cls_spec cls → Zernike_init_in cls (IInt j) order = Raise e →
  ∃ msg, e = ValueError msg.
Proof.
  intros Hcls H. unfold Zernike_init_in in H. cbn in H.
  destruct (bool_decide (str_lower order ∈ ["noll"; "ansi"]%string)) eqn:Hord; cbn in H;
    [|injection H as <-; by eexists].
  destruct (bool_decide (str_lower order = "noll"%string)) eqn:Hn.
  - destruct (_noll_to_nm cls !! j) as [[n m]|] eqn:Hj; cbn in H;
      [|injection H as <-; by eexists].
    pose proof (proj1 (cls_noll _ Hcls _ _ _) Hj) as [Hv _].
    by rewrite (cls_names _ Hcls), Zernike_init_tail in H by done.
  - destruct (bool_decide (str_lower order = "ansi"%string)) eqn:Ha.
    + destruct (_ansi_to_nm cls !! j) as [[n m]|] eqn:Hj; cbn in H;
        [|injection H as <-; by eexists].
      pose proof (proj1 (cls_ansi _ Hcls _ _ _) Hj) as [Hv _].
      by rewrite (cls_names _ Hcls), Zernike_init_tail in H by done.
    + exfalso. apply bool_decide_eq_true in Hord. apply bool_decide_eq_false in Ha, Hn.
      apply elem_of_cons in Hord as [?|Hord]; [done|].
      by apply list_elem_of_singleton in Hord.
Qed.

Lemma Zernike_init_in_raises (cls : ZernikeCls) (index : PyIndex) (order : string)
    (e : exn) :
  cls_spec cls → Zernike_init_in cls index order = Raise e →
  ∃ msg, e = ValueError msg.
Proof.
  intros Hcls. destruct index as [s|j|l|]; intros H.
  - destruct (str_isdigit s) eqn:Hd.
    + unfold Zernike_init_in in H. cbn in H. rewrite Hd in H.
      by apply (Zernike_init_in_int_raises cls (int_of_str s) order).
    + destruct (py_index (str_lower s) ansi_names) as [i|e'] eqn:Hi.
      * rewrite (Zernike_init_in_name cls s i order Hcls Hd Hi) in H.
        by apply (Zernike_init_in_int_raises cls i "ansi"%string).
      * unfold Zernike_init_in in H. cbn in H.
        rewrite Hd, (cls_names _ Hcls), Hi in H.
        destruct (bool_decide (str_lower s ∈ ansi_names)) eqn:Hin; cbn in H.
        -- exfalso. apply bool_decide_eq_true in Hin.
           apply list_elem_of_lookup_1 in Hin as [k Hk].
           apply ansi_names_index in Hk as (_ & _ & Hk). congruence.
        -- injection H as <-. by eexists.
  - by apply (Zernike_init_in_int_raises cls j order).
  - destruct l as [|n [|m [|? ?]]]; try (injection H as <-; by eexists).
    unfold Zernike_init_in in H. cbn in H.
    case_bool_decide as Hin; cbn in H; [|injection H as <-; by eexists].
    apply (cls_pairs _ Hcls) in Hin.
    by rewrite (cls_names _ Hcls), Zernike_init_tail in H by done.
  - injection H as <-. by eexists.
Qed.

Lemma Zernike_init_in_unknown_name (cls : ZernikeCls) (s order : string) :
  cls_spec cls → str_isdigit s = false → str_lower s ∉ ansi_names →
  Zernike_init_in cls (IStr s) order =
  Raise (ValueError "Your input for index is string : Could not identify the name of Zernike polynomial").
Proof.
  intros Hcls Hd Hn. unfold Zernike_init_in. cbn.
  rewrite Hd, (cls_names _ Hcls). by rewrite bool_decide_eq_false_2.
Qed.

Lemma coma_no_name : str_lower "Coma" ∉ ansi_names.
Proof. apply (bool_decide_unpack _). by vm_compute. Qed.

(** X5: for an index that is an ASCII string, an integer, a list or tuple of
    integers (of any length), or an object that is none of these and no list or
    tuple of length two, and for any order, an exception raised by
    [Zernike.__init__] is a [ValueError]: the [assert] of [nm_to_noll], the
    table lookups, the name lookup and the guarded attribute assignments never
    fail. *)
Theorem Zernike_init_raises_only_ValueError (index : PyIndex) (order : string)
    (e : exn) :
  index_isascii index = true →
  Zernike_init index order = Raise e → ∃ msg, e = ValueError msg.
Proof. intros _. apply Zernike_init_in_raises, Zernike_cls_spec. Qed.

Lemma Zernike_init_raises_only_ValueError_witness :
  index_isascii (IStr "Coma") = true ∧
  Zernike_init (IStr "Coma") "noll" =
    Raise (ValueError "Your input for index is string : Could not identify the name of Zernike polynomial") ∧
  ∃ msg, ValueError "Your input for index is string : Could not identify the name of Zernike polynomial" = ValueError msg.
Proof.
  assert (Zernike_init (IStr "Coma") "noll" =
    Raise (ValueError "Your input for index is string : Could not identify the name of Zernike polynomial")) as H.
  { apply Zernike_init_in_unknown_name;
      [apply Zernike_cls_spec|reflexivity|apply coma_no_name]. }
  split; [reflexivity|]. split; [exact H|].
  exact (Zernike_init_raises_only_ValueError (IStr "Coma") "noll" _ eq_refl H).
Defined.

(** X6: for an ASCII string that is not all digits, [Zernike(s, order)]
    ignores the order and the case of [s]: if [s.lower()] is the [i]-th
    canonical name the object has ANSI index [i] and that name; if it is no
    canonical name the constructor raises the [ValueError] of the name
    lookup. *)
Theorem Zernike_by_name (s order : string) :
  str_isascii s = true → str_isdigit s = false →
  (∀ i : nat, ansi_names !! i = Some (str_lower s) →
     ∃ z, Zernike_init (IStr s) order = Ok z ∧ z_index_ansi z = Z.of_nat i ∧
          z_name z = Some (str_lower s)) ∧
  (str_lower s ∉ ansi_names →
     Zernike_init (IStr s) order =
     Raise (ValueError "Your input for index is string : Could not identify the name of Zernike polynomial")).
Proof.
  intros _ Hd. split.
  - intros i Hi.
    destruct (Zernike_init_of_name i s order Hd Hi) as (n & m & Hv & Ha & ->).
    exists (mk_zernike n m). split; [done|]. split; [done|].
    cbn. rewrite Ha. unfold ansi_name.
    pose proof (lookup_lt_Some _ _ _ Hi) as Hlt.
    change (length ansi_names) with 15%nat in Hlt.
    rewrite bool_decide_eq_true_2 by lia. by rewrite Nat2Z.id.
  - intros Hn. by apply Zernike_init_in_unknown_name; [apply Zernike_cls_spec|..].
Qed.

Lemma Zernike_by_name_witness :
  str_isascii "Primary Spherical" = true ∧
  str_isdigit "Primary Spherical" = false ∧
  (∀ i : nat, ansi_names !! i = Some (str_lower "Primary Spherical") →
     ∃ z, Zernike_init (IStr "Primary Spherical") "noll" = Ok z ∧
          z_index_ansi z = Z.of_nat i ∧
          z_name z = Some (str_lower "Primary Spherical")) ∧
  (str_lower "Primary Spherical" ∉ ansi_names →
     Zernike_init (IStr "Primary Spherical") "noll" =
     Raise (ValueError "Your input for index is string : Could not identify the name of Zernike polynomial")).
Proof.
  split; [reflexivity|]. split; [reflexivity|].
  exact (Zernike_by_name "Primary Spherical" "noll" eq_refl eq_refl).
Defined.

(** ** Orderings of the two index schemes *)

Lemma triangular_mod4 (n : Z) :
  let T := (n * (n + 1)) `div` 2 in
  (n `mod` 4 = 0 → T `mod` 2 = 0) ∧ (n `mod` 4 = 1 → T `mod` 2 = 1) ∧
  (n `mod` 4 = 2 → T `mod` 2 = 1) ∧ (n `mod` 4 = 3 → T `mod` 2 = 0).
Proof.
  intros T. unfold T.
  pose proof (Z.div_mod n 4 ltac:(lia)) as Hn.
  set (q := n `div` 4) in *. set (r := n `mod` 4) in *.
  assert (0 ≤ r < 4) as Hr by (unfold r; lia).
  assert (n * (n + 1) = 2 * (2 * (q * (4 * q + 2 * r + 1))) + r * (r + 1)) as Heq.
  { rewrite Hn. ring. }
  rewrite Heq. clearbody q r. clear Hn Heq.
  set (a := q * (4 * q + 2 * r + 1)). clearbody a.
  repeat split; intros ->; cbn [Z.mul Z.add Pos.mul Pos.add]; lia.
Qed.

(** X7: on all descriptors with [n >= 0], [|m| <= n] and [n - m] even, whatever
    the size of [n], [nm_to_noll] returns (its final [assert] is not reached);
    Noll indices are even for [m > 0] and odd for [m < 0], grow with [n] and,
    within one [n], with [|m|]; ANSI indices order the descriptors
    lexicographically. *)
Theorem index_conventions (n m n' m' : Z) :
  0 ≤ n → Z.abs m ≤ n → (n - m) `mod` 2 = 0 →
  0 ≤ n' → Z.abs m' ≤ n' → (n' - m') `mod` 2 = 0 →
  nm_to_noll n m = Ok (noll n m) ∧ nm_to_noll n' m' = Ok (noll n' m') ∧
  (0 < m → noll n m `mod` 2 = 0) ∧
  (m < 0 → noll n m `mod` 2 = 1) ∧
  (n < n' → noll n m < noll n' m') ∧
  (n = n' → Z.abs m < Z.abs m' → noll n m < noll n' m') ∧
  (nm_to_ansi n m < nm_to_ansi n' m' ↔ n < n' ∨ n = n' ∧ m < m').
Proof.
  intros Hn Hm Hp Hn' Hm' Hp'.
  pose proof (noll_range n m ltac:(lia) Hm) as Hr.
  pose proof (noll_range n' m' ltac:(lia) Hm') as Hr'.
  pose proof (ansi_range n m ltac:(lia) Hm Hp) as Ha.
  pose proof (ansi_range n' m' ltac:(lia) Hm' Hp') as Ha'.
  destruct (triangular_mod4 n) as (H0 & H1 & H2 & H3).
  pose proof (mod4_cases n) as H4.
  split; [apply nm_to_noll_ok|]. split; [apply nm_to_noll_ok|].
  split; [|split; [|split; [|split]]].
  - intros Hpos. unfold noll.
    set (T := (n * (n + 1)) `div` 2) in *. clearbody T.
    case_in_pair; cbn; lia.
  - intros Hneg. unfold noll.
    set (T := (n * (n + 1)) `div` 2) in *. clearbody T.
    case_in_pair; cbn; lia.
  - intros Hlt. pose proof (triangular_step n n' ltac:(lia) Hlt). lia.
  - intros <- Habs. unfold noll.
    set (T := (n * (n + 1)) `div` 2) in *. clearbody T. clear Hr Hr' Ha Ha'.
    case_in_pair; cbn; lia.
  - by apply ansi_lt_lex_nat.
Qed.

Lemma index_conventions_witness :
  0 ≤ 201 ∧ Z.abs (-1) ≤ 201 ∧ (201 - -1) `mod` 2 = 0 ∧
  0 ≤ 201 ∧ Z.abs 3 ≤ 201 ∧ (201 - 3) `mod` 2 = 0 ∧
  nm_to_noll 201 (-1) = Ok (noll 201 (-1)) ∧ nm_to_noll 201 3 = Ok (noll 201 3) ∧
  (0 < -1 → noll 201 (-1) `mod` 2 = 0) ∧
  (-1 < 0 → noll 201 (-1) `mod` 2 = 1) ∧
  (201 < 201 → noll 201 (-1) < noll 201 3) ∧
  (201 = 201 → Z.abs (-1) < Z.abs 3 → noll 201 (-1) < noll 201 3) ∧
  (nm_to_ansi 201 (-1) < nm_to_ansi 201 3 ↔ 201 < 201 ∨ 201 = 201 ∧ -1 < 3).
Proof.
  do 6 (split; [done|]).
  exact (index_conventions 201 (-1) 201 3 ltac:(done) ltac:(done) ltac:(done)
           ltac:(done) ltac:(done) ltac:(done)).
Defined.

(** ** Values of the polynomials *)

Lemma sp_binom_Fin (n k : Z) : ∃ x, sp_binom n k = Fin x.
Proof. unfold sp_binom. case_bool_decide; by eexists. Qed.

(** The radial sum at a number is a number. *)
Lemma radial_sum_Fin (rn rm : Z) (r : R) :
  0 ≤ rm ≤ rn →
  ∃ x, foldl (λ radial k, fadd radial (radial_term rn rm k (Fin r))) (of_Z 0)
         (py_range 0 ((rn - rm) `div` 2 + 1) 1) = Fin x.
Proof.
  intros Hm.
  assert (∀ k, k ∈ py_range 0 ((rn - rm) `div` 2 + 1) 1 →
            ∃ x, radial_term rn rm k (Fin r) = Fin x) as Hterm.
  { intros k [Hk _]%elem_of_py_range; [|lia].
    unfold radial_term. rewrite !fpow_Fin by lia.
    destruct (sp_binom_Fin (rn - k) k) as [b1 ->].
    destruct (sp_binom_Fin (rn - 2 * k) ((rn - rm) `div` 2 - k)) as [b2 ->].
    by eexists. }
  revert Hterm. generalize (py_range 0 ((rn - rm) `div` 2 + 1) 1).
  unfold of_Z. generalize (IZR 0). intros a l. revert a.
  induction l as [|k l IH]; intros a Hterm; [by eexists|].
  cbn [foldl]. destruct (Hterm k) as [x ->]; [left|]. cbn.
  apply IH. intros k' Hk'. apply Hterm. by right.
Qed.

Lemma prefac_Fin (rn rm : Z) :
  0 ≤ rn →
  fdiv (fdiv (Fin 1)
          (fsqrt (fdiv (fadd (Fin 1) (of_bool (bool_decide (rm = 0))))
                       (fadd (fmul (Fin 2) (of_Z rn)) (of_Z 2)))))
       (fsqrt (Fin PI)) =
  Fin (1 / sqrt ((1 + (if bool_decide (rm = 0%Z) then 1 else 0)) / (2 * IZR rn + IZR 2))
       / sqrt PI).
Proof.
  intros Hn. pose proof PI_RGT_0 as Hpi.
  assert (0 <= IZR rn)%R as Hr by by apply IZR_le.
  set (d := (if bool_decide (rm = 0%Z) then 1 else 0)%R).
  assert (0 <= d <= 1)%R as Hd by (unfold d; case_bool_decide; lra).
  cbn. fold d.
  rewrite (decide_False (P := (2 * IZR rn + 2 = 0)%R)) by lra.
  assert (0 < (1 + d) / (2 * IZR rn + 2))%R as Hq.
  { apply Rdiv_lt_0_compat; lra. }
  cbn. rewrite decide_True by lra.
  pose proof (sqrt_lt_R0 _ Hq) as Hs.
  cbn. rewrite decide_False by lra.
  cbn. rewrite decide_True by lra.
  pose proof (sqrt_lt_R0 _ Hpi) as Hsp.
  cbn. rewrite decide_False by lra. done.
Qed.

Lemma prefac_norm_factor (zn zm : Z) :
  0 ≤ zn →
  (1 / sqrt ((1 + (if bool_decide (Z.abs zm = 0%Z) then 1 else 0)) / (2 * IZR zn + IZR 2))
   / sqrt PI)%R = norm_factor zn zm.
Proof.
  intros Hn. pose proof PI_RGT_0 as Hpi.
  assert (0 <= IZR zn)%R as Hr by by apply IZR_le.
  unfold norm_factor. rewrite plus_IZR, mult_IZR.
  set (d := (if bool_decide (Z.abs zm = 0%Z) then 1 else 0)%R).
  assert ((if bool_decide (zm = 0%Z) then 2 else 1)%R = (1 + d)%R) as ->.
  { unfold d. repeat case_bool_decide; try lra; lia. }
  assert (0 <= d <= 1)%R as Hd by (unfold d; case_bool_decide; lra).
  assert (0 < (1 + d) / (2 * IZR zn + 2))%R as Hq by (apply Rdiv_lt_0_compat; lra).
  pose proof (sqrt_lt_R0 _ Hq) as Hs. pose proof (sqrt_lt_R0 _ Hpi) as Hsp.
  replace ((2 * IZR zn + 2) / ((1 + d) * PI))%R
    with ((/ ((1 + d) / (2 * IZR zn + 2))) / PI)%R by (field; lra).
  pose proof (sqrt_sqrt _ (Rlt_le _ _ Hq)) as E1.
  pose proof (sqrt_sqrt PI ltac:(lra)) as E2.
  symmetry. apply sqrt_lem_1.
  - apply Rlt_le, Rdiv_lt_0_compat; [apply Rinv_0_lt_compat|]; lra.
  - apply Rlt_le, Rdiv_lt_0_compat; [apply Rdiv_lt_0_compat|]; lra.
  - set (s1 := sqrt _) in *. set (s2 := sqrt PI) in *.
    rewrite <- E1, <- E2. field. lra.
Qed.

(** [nm_polynomial] at a point whose coordinates are numbers: the radial sum
    [rad] does not depend on [normed]. *)
Lemma nm_polynomial_pt_Fin (zn zm : Z) (r t : R) :
  Z.abs zm ≤ zn →
  ∃ rad : R, ∀ normed : bool,
    nm_polynomial_pt zn zm normed (Fin r) (Fin t) =
    if bool_decide ((zn - Z.abs zm) `mod` 2 = 1) then Fin 0
    else Fin ((if normed then norm_factor zn zm else 1) *
              (rad * (if bool_decide (r <= 1)%R then 1 else 0)) *
              (if bool_decide (zm >= 0) then cos (IZR (Z.abs zm) * t)
               else sin (IZR (Z.abs zm) * t))).
Proof.
  intros Hm. assert (0 ≤ zn) as Hn by lia.
  destruct (radial_sum_Fin zn (Z.abs zm) r ltac:(lia)) as [rad Hrad].
  exists rad. intros normed. unfold nm_polynomial_pt.
  case_bool_decide as Hodd.
  { cbn. f_equal. lra. }
  rewrite Hrad.
  assert ((if normed
           then fdiv (fdiv (Fin 1)
                  (fsqrt (fdiv (fadd (Fin 1) (of_bool (bool_decide (Z.abs zm = 0))))
                               (fadd (fmul (Fin 2) (of_Z zn)) (of_Z 2)))))
                  (fsqrt (Fin PI))
           else Fin 1) = Fin (if normed then norm_factor zn zm else 1)) as ->.
  { destruct normed; [|done]. rewrite prefac_Fin by done.
    by rewrite prefac_norm_factor. }
  by destruct (bool_decide (zm >= 0)).
Qed.

Lemma evaluates_to_pt (zn zm : Z) (normed : bool) (r t v : R) :
  Z.abs zm ≤ zn →
  nm_polynomial_pt zn zm normed (Fin r) (Fin t) = Fin v →
  evaluates_to zn zm normed r t v.
Proof.
  intros Hm Hv rows cols rho theta i j Hrho Htheta Hr Ht. unfold nm_polynomial.
  rewrite bool_decide_eq_false_2 by lia. eexists. split; [done|].
  split; [by apply is_arr2_zip|].
  by rewrite arr2_get_zip, Hr, Ht; cbn; rewrite Hv.
Qed.

(** X9: for a descriptor of the class's range ([|m| <= n < 200]), on
    coordinate arrays of one shape and at every point on the unit disk
    ([0 <= r <= 1], any angle), the normalised polynomial is the unnormalised
    one times [sqrt((2n + 2) / ((1 + [m = 0]) pi))]. *)
Theorem normed_is_scaled_unnormed (zn zm : Z) (r t : R) :
  Z.abs zm ≤ zn → zn < 200 → (0 <= r <= 1)%R →
  ∃ v, evaluates_to zn zm false r t v ∧
       evaluates_to zn zm true r t (norm_factor zn zm * v).
Proof.
  intros Hm _ _. destruct (nm_polynomial_pt_Fin zn zm r t Hm) as [rad Hpt].
  pose proof (Hpt false) as Hu. pose proof (Hpt true) as Hn. clear Hpt.
  destruct (bool_decide ((zn - Z.abs zm) `mod` 2 = 1)).
  - exists 0%R. split; apply evaluates_to_pt; [done|done|done|].
    rewrite Hn. f_equal. lra.
  - eexists. split; apply evaluates_to_pt; [done|exact Hu|done|].
    rewrite Hn. f_equal. lra.
Qed.

Lemma normed_is_scaled_unnormed_witness :
  Z.abs 0 ≤ 2 ∧ 2 < 200 ∧ (0 <= 1 / 2 <= 1)%R ∧
  ∃ v, evaluates_to 2 0 false (1 / 2) 0 v ∧
       evaluates_to 2 0 true (1 / 2) 0 (norm_factor 2 0 * v).
Proof.
  split; [lia|]. split; [lia|]. split; [lra|].
  apply (normed_is_scaled_unnormed 2 0 (1 / 2) 0); [lia|lia|lra].
Defined.

Ltac eval_nm_polynomial_pt :=
  unfold nm_polynomial_pt;
  rewrite (bool_decide_eq_false_2 (_ `mod` 2 = 1)) by done;
  match goal with |- context [py_range ?a ?b ?c] =>
    let l := eval vm_compute in (py_range a b c) in change (py_range a b c) with l end;
  cbn [foldl]; unfold radial_term, sp_binom;
  repeat match goal with |- context [bool_decide (?a ≤ ?b ≤ ?c)] =>
    let v := eval vm_compute in (bool_decide (a ≤ b ≤ c)) in
    change (bool_decide (a ≤ b ≤ c)) with v end;
  cbn iota;
  repeat match goal with |- context [binomial ?a ?b] =>
    let v := eval vm_compute in (binomial a b) in
    change (binomial a b) with v end;
  rewrite !fpow_Fin by done;
  repeat match goal with |- context [Z.to_nat ?a] =>
    let v := eval vm_compute in (Z.to_nat a) in
    change (Z.to_nat a) with v end;
  repeat match goal with |- context [bool_decide (?a >= ?b)] =>
    let v := eval vm_compute in (bool_decide (a >= b)) in
    change (bool_decide (a >= b)) with v end;
  repeat match goal with |- context [Z.abs ?a] =>
    let v := eval vm_compute in (Z.abs a) in
    change (Z.abs a) with v end;
  cbn [fmul fadd flift2 of_Z of_bool fle fcos fsin INR].

Ltac closed_form Hr :=
  apply evaluates_to_pt; [done|]; eval_nm_polynomial_pt;
  rewrite (bool_decide_eq_true_2 _ Hr); f_equal;
  rewrite ?(Rmult_0_l _), ?cos_0;
  repeat match goal with
  | |- context [(1 * ?t)%R] => replace (1 * t)%R with t by ring
  end; ring.

(** X10: on coordinate arrays of one shape and at every point of the unit
    disk ([0 <= r <= 1]) the unnormalised polynomials of the lowest orders are
    [r cos t] for [(1, 1)], [r sin t] for [(1, -1)], [2 r^2 - 1] for [(2, 0)],
    [r^2 cos 2t] and [r^2 sin 2t] for [(2, 2)] and [(2, -2)],
    [(3 r^3 - 2 r) cos t] and [(3 r^3 - 2 r) sin t] for [(3, 1)] and [(3, -1)],
    [r^3 cos 3t] and [r^3 sin 3t] for [(3, 3)] and [(3, -3)], and
    [6 r^4 - 6 r^2 + 1] for [(4, 0)]: non-negative [m] carries the cosine. *)
Theorem low_order_closed_forms (r t : R) :
  (0 <= r <= 1)%R →
  evaluates_to 1 1 false r t (r * cos t) ∧
  evaluates_to 1 (-1) false r t (r * sin t) ∧
  evaluates_to 2 0 false r t (2 * r ^ 2 - 1) ∧
  evaluates_to 2 2 false r t (r ^ 2 * cos (2 * t)) ∧
  evaluates_to 2 (-2) false r t (r ^ 2 * sin (2 * t)) ∧
  evaluates_to 3 1 false r t ((3 * r ^ 3 - 2 * r) * cos t) ∧
  evaluates_to 3 (-1) false r t ((3 * r ^ 3 - 2 * r) * sin t) ∧
  evaluates_to 3 3 false r t (r ^ 3 * cos (3 * t)) ∧
  evaluates_to 3 (-3) false r t (r ^ 3 * sin (3 * t)) ∧
  evaluates_to 4 0 false r t (6 * r ^ 4 - 6 * r ^ 2 + 1).
Proof.
  intros [_ Hr]. repeat split; closed_form Hr.
Qed.

Lemma low_order_closed_forms_witness :
  (0 <= 1 / 2 <= 1)%R ∧
  evaluates_to 1 1 false (1 / 2) 0 (1 / 2 * cos 0) ∧
  evaluates_to 1 (-1) false (1 / 2) 0 (1 / 2 * sin 0) ∧
  evaluates_to 2 0 false (1 / 2) 0 (2 * (1 / 2) ^ 2 - 1) ∧
  evaluates_to 2 2 false (1 / 2) 0 ((1 / 2) ^ 2 * cos (2 * 0)) ∧
  evaluates_to 2 (-2) false (1 / 2) 0 ((1 / 2) ^ 2 * sin (2 * 0)) ∧
  evaluates_to 3 1 false (1 / 2) 0 ((3 * (1 / 2) ^ 3 - 2 * (1 / 2)) * cos 0) ∧
  evaluates_to 3 (-1) false (1 / 2) 0 ((3 * (1 / 2) ^ 3 - 2 * (1 / 2)) * sin 0) ∧
  evaluates_to 3 3 false (1 / 2) 0 ((1 / 2) ^ 3 * cos (3 * 0)) ∧
  evaluates_to 3 (-3) false (1 / 2) 0 ((1 / 2) ^ 3 * sin (3 * 0)) ∧
  evaluates_to 4 0 false (1 / 2) 0 (6 * (1 / 2) ^ 4 - 6 * (1 / 2) ^ 2 + 1).
Proof. split; [lra|]. apply (low_order_closed_forms (1 / 2) 0). lra. Defined.

Lemma arr2_get_tabulate {A B C} (f : A → B → C) (ly : list A) (lx : list B) (i j : nat) :
  arr2_get (lmap (λ a, lmap (λ b, f a b) lx) ly) i j =
  a ← ly !! i; b ← lx !! j; Some (f a b).
Proof.
  unfold arr2_get. rewrite list_lookup_fmap.
  destruct (ly !! i) as [a|]; [|done]. cbn.
  rewrite list_lookup_fmap. by destruct (lx !! j).
Qed.

Lemma np_linspace_grid (size : Z) :
  2 ≤ size →
  np_linspace (-1) 1 size = Ok ((λ i, Fin (grid_coord size i)) <$> seq 0 (Z.to_nat size)).
Proof.
  intros Hs. unfold np_linspace.
  rewrite bool_decide_eq_false_2 by lia. rewrite bool_decide_eq_false_2 by lia.
  f_equal. apply list_eq. intros i. rewrite !list_lookup_fmap.
  destruct (decide (i < Z.to_nat size)%nat) as [Hi|Hi].
  - rewrite lookup_seqZ_lt by lia. rewrite lookup_seq_lt by done. cbn.
    unfold grid_coord. by rewrite Z.add_0_l.
  - rewrite lookup_seqZ_ge by lia. by rewrite lookup_seq_ge by lia.
Qed.

Lemma rho_theta_grid (size : Z) :
  2 ≤ size →
  ∃ rho theta,
    rho_theta size = Ok (rho, theta) ∧
    Forall2 (λ r t, length r = length t) rho theta ∧
    arr2_finite rho ∧ arr2_finite theta ∧
    is_arr2 (Z.to_nat size) (Z.to_nat size) rho ∧
    is_arr2 (Z.to_nat size) (Z.to_nat size) theta ∧
    ∀ i j : nat, (i < Z.to_nat size)%nat → (j < Z.to_nat size)%nat →
      arr2_get rho i j = Some (Fin (grid_rho size i j)) ∧
      arr2_get theta i j = Some (Fin (grid_theta size i j)).
Proof.
  intros Hs. unfold rho_theta. rewrite np_linspace_grid by done.
  cbn [mbind result_bind].
  set (l := (λ i, Fin (grid_coord size i)) <$> seq 0 (Z.to_nat size)).
  assert (length l = Z.to_nat size) as Hlen by (unfold l; by rewrite length_fmap, length_seq).
  pose proof (meshgrid2_zip np_hypot l l) as Hrho.
  pose proof (meshgrid2_zip np_arctan2 l l) as Htheta.
  destruct (meshgrid2 l l) as [y x] eqn:Hm. cbn [fst snd] in Hrho, Htheta.
  eexists _, _. split; [done|]. rewrite Hrho, Htheta.
  assert (∀ a, a ∈ l → ∃ x, a = Fin x) as Hfin.
  { intros a (i & -> & _)%list_elem_of_fmap. by eexists. }
  split; [|split; [|split; [|split; [|split]]]].
  - apply Forall2_fmap, Forall_Forall2_diag, Forall_forall.
    intros a _. by rewrite !length_fmap.
  - unfold arr2_finite. rewrite !Forall_fmap. apply Forall_forall. intros a Ha.
    unfold compose. rewrite !Forall_fmap. apply Forall_forall. intros b Hb.
    unfold compose. destruct (Hfin a Ha) as [? ->], (Hfin b Hb) as [? ->].
    by rewrite np_hypot_Fin.
  - unfold arr2_finite. rewrite !Forall_fmap. apply Forall_forall. intros a Ha.
    unfold compose. rewrite !Forall_fmap. apply Forall_forall. intros b Hb.
    unfold compose. by destruct (Hfin a Ha) as [? ->], (Hfin b Hb) as [? ->].
  - rewrite <- Hlen. apply is_arr2_tabulate.
  - rewrite <- Hlen. apply is_arr2_tabulate.
  - intros i j Hi Hj. rewrite !arr2_get_tabulate. unfold l.
    rewrite !list_lookup_fmap, !lookup_seq_lt by done. cbn -[np_hypot].
    by rewrite np_hypot_Fin.
Qed.

(** X11: for a constructed mode, [polynomial(size)] raises [ValueError] for
    [size <= 0], is the single entry [outside] for [size = 1], and for
    [size >= 2] is a [size] by [size] array whose entry [(i, j)] is [outside]
    where the grid point [(y_i, x_j)] of the uniform grid on [-1, 1] has
    radius above [1], and the mode at the polar coordinates of that point where
    its radius is below [1].  (For a grid point on the unit circle itself the
    rounding of the computed radius decides; nothing is stated there.) *)
Theorem Zernike_polynomial_on_grid (index : PyIndex) (order : string) (z : Zernike)
    (size : Z) (normed : bool) (outside : float) :
  Zernike_init index order = Ok z →
  (size ≤ 0 → Zernike_polynomial z size normed outside = Raise (ValueError "")) ∧
  (size = 1 → Zernike_polynomial z size normed outside = Ok [[outside]]) ∧
  (2 ≤ size →
     ∃ p, Zernike_polynomial z size normed outside = Ok p ∧
          is_arr2 (Z.to_nat size) (Z.to_nat size) p ∧
          ∀ i j : nat, (i < Z.to_nat size)%nat → (j < Z.to_nat size)%nat →
            ∃ v, arr2_get p i j = Some v ∧
                 ((1 < grid_rho size i j)%R → v = outside) ∧
                 ((grid_rho size i j < 1)%R →
                  v = nm_polynomial_pt (z_n z) (z_m z) normed
                        (Fin (grid_rho size i j)) (Fin (grid_theta size i j)))).
Proof.
  intros (n & m & Hv & ->)%Zernike_init_inv. split; [|split].
  - intros Hs. unfold Zernike_polynomial. by rewrite bool_decide_eq_false_2 by lia.
  - intros ->.
    rewrite (Zernike_polynomial_valid n m 1 normed outside _ _ _ Hv ltac:(lia)
               rho_theta_1 outside_mask_1). done.
  - intros Hs.
    destruct (rho_theta_grid size Hs)
      as (rho & theta & Hrt & Hshape & Hfr & Hft & Har & Hat & Hget).
    pose proof (outside_mask_ok size rho theta Hrt Hshape Hfr Hft) as Hmask.
    rewrite (Zernike_polynomial_valid n m size normed outside _ _ _ Hv ltac:(lia)
               Hrt Hmask).
    eexists. split; [done|]. split.
    + unfold arr2_set_where. apply is_arr2_zip; [by apply is_arr2_zip|].
      by apply is_arr2_map.
    + intros i j Hi Hj. destruct (Hget i j Hi Hj) as [Hr Ht].
      rewrite arr2_get_set_where, arr2_get_zip, arr2_get_map, Hr, Ht.
      cbn [mbind option_bind fmap option_fmap option_map flt].
      eexists. split; [done|]. split; intros Hrho.
      * by rewrite bool_decide_eq_true_2.
      * by rewrite bool_decide_eq_false_2 by lra.
Qed.

Lemma Zernike_polynomial_on_grid_witness :
  Zernike_init (ISeq [2; 0]) "noll" = Ok (mk_zernike 2 0) ∧
  (3 ≤ 0 → Zernike_polynomial (mk_zernike 2 0) 3 false NaN = Raise (ValueError "")) ∧
  (3 = 1 → Zernike_polynomial (mk_zernike 2 0) 3 false NaN = Ok [[NaN]]) ∧
  (2 ≤ 3 →
     ∃ p, Zernike_polynomial (mk_zernike 2 0) 3 false NaN = Ok p ∧
          is_arr2 (Z.to_nat 3) (Z.to_nat 3) p ∧
          ∀ i j : nat, (i < Z.to_nat 3)%nat → (j < Z.to_nat 3)%nat →
            ∃ v, arr2_get p i j = Some v ∧
                 ((1 < grid_rho 3 i j)%R → v = NaN) ∧
                 ((grid_rho 3 i j < 1)%R →
                  v = nm_polynomial_pt (z_n (mk_zernike 2 0)) (z_m (mk_zernike 2 0)) false
                        (Fin (grid_rho 3 i j)) (Fin (grid_theta 3 i j)))).
Proof.
  split; [apply Zernike_init_pair, valid_nm_2_0|].
  apply (Zernike_polynomial_on_grid (ISeq [2; 0]) "noll").
  apply Zernike_init_pair, valid_nm_2_0.
Defined.

(** ** Lists filled from dictionaries *)

Lemma py_max_spec (l : list Z) :
  l ≠ [] → ∃ M, py_max l = Ok M ∧ M ∈ l ∧ ∀ k, k ∈ l → k ≤ M.
Proof.
  destruct l as [|x l]; [done|]. intros _. cbn. eexists. split; [done|].
  revert x. induction l as [|y l IH]; intros x; cbn.
  - split; [left|]. by intros k ->%list_elem_of_singleton.
  - destruct (IH (x `max` y)) as [Hin Hle]. split.
    + apply elem_of_cons in Hin as [Heq|Hin]; [|by do 2 right].
      rewrite Heq. destruct (Z.max_spec x y) as [[_ ->]|[_ ->]]; [right; left|left].
    + intros k Hk. apply elem_of_cons in Hk as [->|Hk].
      * etrans; [|apply Hle; left]. lia.
      * apply elem_of_cons in Hk as [->|Hk].
        -- etrans; [|apply Hle; left]. lia.
        -- apply Hle. by right.
Qed.

Lemma py_max_spec_inv (l : list Z) (M : Z) :
  py_max l = Ok M → M ∈ l ∧ ∀ k, k ∈ l → k ≤ M.
Proof.
  intros H. destruct l as [|x l]; [done|].
  destruct (py_max_spec (x :: l)) as (M' & HM' & Hin & Hle); [done|].
  rewrite H in HM'. by injection HM' as <-.
Qed.

Lemma py_setitem_ok {A} (l : list A) (k : Z) (v : A) :
  0 ≤ k < Z.of_nat (length l) → py_setitem l k v = Ok (<[Z.to_nat k := v]> l).
Proof.
  intros Hk. unfold py_setitem, py_position.
  rewrite (bool_decide_eq_false_2 (k < 0)) by lia.
  by rewrite bool_decide_eq_true_2 by lia.
Qed.

Lemma foldlM_py_setitem (kv : list (Z * float)) (out : list float) :
  Forall (λ p, 0 ≤ p.1 < Z.of_nat (length out)) kv →
  foldlM (λ out (p : Z * float), py_setitem out p.1 p.2) out kv =
  Ok (foldl (λ out (p : Z * float), <[Z.to_nat p.1 := p.2]> out) out kv).
Proof.
  revert out. induction kv as [|[k v] kv IH]; intros out Hall; [done|].
  apply Forall_cons in Hall as [Hk Hall]. cbn in Hk. cbn [foldlM foldl fst snd].
  rewrite py_setitem_ok by done. cbn [mbind result_bind].
  apply IH. eapply Forall_impl; [exact Hall|].
  intros p Hp. by rewrite length_insert.
Qed.

Lemma foldl_insert_length (kv : list (Z * float)) (out : list float) :
  length (foldl (λ out (p : Z * float), <[Z.to_nat p.1 := p.2]> out) out kv) = length out.
Proof.
  revert out. induction kv as [|p kv IH]; intros out; [done|].
  cbn. by rewrite IH, length_insert.
Qed.

Lemma foldl_insert_lookup_notin (kv : list (Z * float)) (out : list float) (i : nat) :
  Forall (λ p, 0 ≤ p.1) kv → (∀ p, p ∈ kv → Z.to_nat p.1 ≠ i) →
  foldl (λ out (p : Z * float), <[Z.to_nat p.1 := p.2]> out) out kv !! i = out !! i.
Proof.
  revert out. induction kv as [|p kv IH]; intros out Hall Hni; [done|].
  apply Forall_cons in Hall as [Hk Hall]. cbn.
  rewrite IH; [|done|intros q Hq; apply Hni; by right].
  apply list_lookup_insert_ne. apply Hni. left.
Qed.

Lemma foldl_insert_lookup_in (kv : list (Z * float)) (out : list float) (k : Z) (v : float) :
  Forall (λ p, 0 ≤ p.1 < Z.of_nat (length out)) kv → NoDup kv.*1 →
  (k, v) ∈ kv →
  foldl (λ out (p : Z * float), <[Z.to_nat p.1 := p.2]> out) out kv !! Z.to_nat k = Some v.
Proof.
  revert out. induction kv as [|p kv IH]; intros out Hall Hnd Hin; [by inversion Hin|].
  apply Forall_cons in Hall as [Hk Hall]. cbn in Hnd. apply NoDup_cons in Hnd as [Hp Hnd].
  cbn. apply elem_of_cons in Hin as [<-|Hin].
  - rewrite foldl_insert_lookup_notin.
    + cbn. apply list_lookup_insert_eq. cbn in Hk. lia.
    + eapply Forall_impl; [exact Hall|]. by intros q [? ?].
    + intros q Hq Heq. apply Hp. apply list_elem_of_fmap. exists q. split; [|done].
      cbn. rewrite Forall_forall in Hall. pose proof (Hall q Hq). cbn in Hk. lia.
  - apply IH; [|done|done]. eapply Forall_impl; [exact Hall|].
    intros q Hq. by rewrite length_insert.
Qed.

(** [dict_to_list] of a non-empty dictionary with non-negative keys. *)
Lemma dict_to_list_ok (kv : list (Z * float)) :
  kv ≠ [] → Forall (λ p, 0 ≤ p.1) kv → NoDup kv.*1 →
  ∃ M out,
    py_max kv.*1 = Ok M ∧ dict_to_list kv = Ok out ∧
    length out = Z.to_nat (M + 1) ∧ 0 ≤ M ∧
    (∀ k v, (k, v) ∈ kv → out !! Z.to_nat k = Some v) ∧
    (∀ i : nat, (i < length out)%nat → (∀ p, p ∈ kv → p.1 ≠ Z.of_nat i) →
       out !! i = Some (of_Z 0)).
Proof.
  intros Hne Hpos Hnd.
  destruct (py_max_spec kv.*1) as (M & HM & HMin & HMle).
  { by destruct kv. }
  assert (0 ≤ M) as HM0.
  { apply list_elem_of_fmap in HMin as (p & -> & Hp).
    rewrite Forall_forall in Hpos. by apply Hpos. }
  assert (Forall (λ p : Z * float,
            0 ≤ p.1 < Z.of_nat (length (replicate (Z.to_nat (M + 1)) (of_Z 0)))) kv)
    as Hrange.
  { rewrite length_replicate. apply Forall_forall. intros p Hp.
    rewrite Forall_forall in Hpos. split; [by apply Hpos|].
    assert (p.1 ≤ M) by (apply HMle, list_elem_of_fmap; by exists p). lia. }
  exists M. eexists. split; [done|]. split.
  { unfold dict_to_list. rewrite HM. cbn [mbind result_bind].
    by apply foldlM_py_setitem. }
  split; [by rewrite foldl_insert_length, length_replicate|]. split; [done|]. split.
  - intros k v Hkv. by apply foldl_insert_lookup_in.
  - intros i Hi Hni. rewrite foldl_insert_length, length_replicate in Hi.
    rewrite foldl_insert_lookup_notin; [|done|].
    + by apply lookup_replicate_2.
    + intros p Hp Heq. apply (Hni p Hp).
      rewrite Forall_forall in Hpos. pose proof (Hpos p Hp). lia.
Qed.

(** X12: for a non-empty dictionary with distinct non-negative keys,
    [dict_to_list] returns a list one longer than the largest key that holds
    every value at the position of its key and [0] at every other position. *)
Theorem dict_to_list_fills (kv : list (Z * float)) :
  kv ≠ [] → Forall (λ p, 0 ≤ p.1) kv → NoDup kv.*1 →
  ∃ M out,
    dict_to_list kv = Ok out ∧
    M ∈ kv.*1 ∧ (∀ k, k ∈ kv.*1 → k ≤ M) ∧
    Z.of_nat (length out) = M + 1 ∧
    (∀ k v, (k, v) ∈ kv → out !! Z.to_nat k = Some v) ∧
    (∀ i : nat, (i < length out)%nat → (∀ p, p ∈ kv → p.1 ≠ Z.of_nat i) →
       out !! i = Some (of_Z 0)).
Proof.
  intros Hne Hpos Hnd.
  destruct (dict_to_list_ok kv Hne Hpos Hnd) as (M & out & HM & Hout & Hlen & HM0 & Hin & Hz).
  apply py_max_spec_inv in HM as [HMin HMle].
  exists M, out. split; [done|]. split; [done|]. split; [done|].
  split; [lia|]. by split.
Qed.

Lemma dict_to_list_fills_witness :
  [(2, Fin 5); (0, Fin 7)] ≠ [] ∧
  Forall (λ p : Z * float, 0 ≤ p.1) [(2, Fin 5); (0, Fin 7)] ∧
  NoDup [(2, Fin 5); (0, Fin 7)].*1 ∧
  ∃ M out,
    dict_to_list [(2, Fin 5); (0, Fin 7)] = Ok out ∧
    M ∈ [(2, Fin 5); (0, Fin 7)].*1 ∧
    (∀ k, k ∈ [(2, Fin 5); (0, Fin 7)].*1 → k ≤ M) ∧
    Z.of_nat (length out) = M + 1 ∧
    (∀ k v, (k, v) ∈ [(2, Fin 5); (0, Fin 7)] → out !! Z.to_nat k = Some v) ∧
    (∀ i : nat, (i < length out)%nat →
       (∀ p, p ∈ [(2, Fin 5); (0, Fin 7)] → p.1 ≠ Z.of_nat i) →
       out !! i = Some (of_Z 0)).
Proof.
  assert (Forall (λ p : Z * float, 0 ≤ p.1) [(2, Fin 5); (0, Fin 7)]) as Hpos.
  { repeat constructor; cbn; lia. }
  assert (NoDup [(2, Fin 5); (0, Fin 7)].*1) as Hnd.
  { cbn. apply NoDup_cons. split; [|apply NoDup_singleton].
    intros Hc%list_elem_of_singleton. lia. }
  split; [done|]. split; [exact Hpos|]. split; [exact Hnd|].
  apply (dict_to_list_fills [(2, Fin 5); (0, Fin 7)] ltac:(done) Hpos Hnd).
Defined.

(** ** Views of a constructed wavefront *)

Lemma foldl_dict_setitem_fresh {X} (key : X → Z) (val : X → float) (l : list X)
    (d0 : list (Z * float)) :
  NoDup (key <$> l) → (∀ x, x ∈ l → key x ∉ d0.*1) →
  foldl (λ d x, dict_setitem Z.eqb d (key x) (val x)) d0 l =
  d0 ++ ((λ x, (key x, val x)) <$> l).
Proof.
  revert d0. induction l as [|x l IH]; intros d0 Hnd Hfresh.
  - cbn. by rewrite app_nil_r.
  - cbn in Hnd. apply NoDup_cons in Hnd as [Hx Hnd]. cbn [foldl fmap list_fmap].
    assert (dict_setitem Z.eqb d0 (key x) (val x) = d0 ++ [(key x, val x)]) as ->.
    { unfold dict_setitem.
      destruct (existsb (λ kv, (kv.1 =? key x)%Z) d0) eqn:He; [|done].
      exfalso. apply existsb_exists in He as ([k v] & Hin & Heq). cbn in Heq.
      apply Z.eqb_eq in Heq. subst k. apply (Hfresh x); [left|].
      apply list_elem_of_fmap. exists (key x, v). split; [done|].
      by apply list_elem_of_In. }
    rewrite IH; [by rewrite <- app_assoc|done|].
    intros y Hy. rewrite fmap_app. intros [Hin|Hin]%elem_of_app.
    + apply (Hfresh y); [by right|done].
    + cbn in Hin. apply list_elem_of_singleton in Hin. apply Hx.
      rewrite <- Hin. apply list_elem_of_fmap. by exists y.
Qed.

Lemma zkeys_NoDup_by (g : Zernike → Z) (zs : list (Zernike * float)) :
  zkeys_ok zs →
  (∀ n m n' m', valid_nm n m → valid_nm n' m' →
     g (mk_zernike n m) = g (mk_zernike n' m') → (n, m) = (n', m')) →
  NoDup ((λ za : Zernike * float, g za.1) <$> zs).
Proof.
  intros [Hall Hnd] Hg. induction zs as [|[z a] zs IH]; [constructor|].
  apply Forall_cons in Hall as [(n & m & Hv & Hz) Hall]. cbn in Hz. subst z.
  cbn in Hnd. apply NoDup_cons in Hnd as [Hni Hnd]. cbn.
  apply NoDup_cons. split; [|by apply IH].
  intros ([z' a'] & Heq & Hin)%list_elem_of_fmap. cbn in Heq.
  rewrite Forall_forall in Hall. destruct (Hall _ Hin) as (n' & m' & Hv' & Hz').
  cbn in Hz'. subst z'. apply Hg in Heq; [|done..].
  injection Heq as -> ->. apply Hni. apply list_elem_of_fmap.
  by exists (mk_zernike n' m', a').
Qed.

Lemma zkeys_index_NoDup (zs : list (Zernike * float)) :
  zkeys_ok zs →
  NoDup (noll_items zs).*1 ∧ NoDup (ansi_items zs).*1 ∧
  Forall (λ p, 1 ≤ p.1 ≤ 20100) (noll_items zs) ∧
  Forall (λ p, 0 ≤ p.1 ≤ 20099) (ansi_items zs).
Proof.
  intros Hok. unfold noll_items, ansi_items.
  rewrite <- !list_fmap_compose. rewrite !Forall_fmap.
  split; [|split; [|split]].
  - apply (zkeys_NoDup_by z_index_noll zs Hok). intros n m n' m'. apply noll_inj.
  - apply (zkeys_NoDup_by z_index_ansi zs Hok). intros n m n' m'. apply ansi_inj.
  - destruct Hok as [Hall _]. eapply Forall_impl; [exact Hall|].
    intros [z a] (n & m & Hv & Hz). cbn in *. subst z. by apply noll_bounds.
  - destruct Hok as [Hall _]. eapply Forall_impl; [exact Hall|].
    intros [z a] (n & m & Hv & Hz). cbn in *. subst z. by apply ansi_bounds.
Qed.

Lemma by_index_items (zs : list (Zernike * float)) :
  zkeys_ok zs →
  foldl (λ d (za : Zernike * float), dict_setitem Z.eqb d (z_index_noll za.1) za.2) [] zs
    = noll_items zs ∧
  foldl (λ d (za : Zernike * float), dict_setitem Z.eqb d (z_index_ansi za.1) za.2) [] zs
    = ansi_items zs.
Proof.
  intros Hok. destruct (zkeys_index_NoDup zs Hok) as (Hn & Ha & _).
  unfold noll_items, ansi_items in *. rewrite <- !list_fmap_compose in Hn, Ha.
  split.
  - rewrite (foldl_dict_setitem_fresh (λ za, z_index_noll za.1) snd); [done|done|].
    intros x _ Hx. by inversion Hx.
  - rewrite (foldl_dict_setitem_fresh (λ za, z_index_ansi za.1) snd); [done|done|].
    intros x _ Hx. by inversion Hx.
Qed.

Lemma ZernikeWavefront_init_in_views (cls : ZernikeCls) (amplitudes : PyAmplitudes)
    (order : string) (w : ZernikeWavefront) :
  cls_spec cls → ZernikeWavefront_init_in cls amplitudes order = Ok w →
  zkeys_ok (zernikes w) ∧ zernikes w ≠ [] ∧
  (∃ nl, dict_to_list (noll_items (zernikes w)) = Ok nl ∧ amplitudes_noll w = drop 1 nl) ∧
  dict_to_list (ansi_items (zernikes w)) = Ok (amplitudes_ansi w).
Proof.
  intros Hcls H. unfold ZernikeWavefront_init_in in H.
  apply bind_Ok_inv in H as (items & _ & H).
  apply bind_Ok_inv in H as (amps & _ & H).
  apply bind_Ok_inv in H as (zs & Hzs & H).
  assert (zkeys_ok zs) as Hok.
  { eapply zernikes_comprehension_ok; [exact Hcls| |exact Hzs]. split; constructor. }
  destruct (by_index_items zs Hok) as [Hbn Hba]. rewrite Hbn, Hba in H.
  apply bind_Ok_inv in H as (noll_list & Hnoll & H).
  apply bind_Ok_inv in H as (ansi_list & Hansi & H).
  apply bind_Ok_inv in H as (requested & Hreq & H).
  injection H as <-. cbn. split; [done|]. split; [|split; [by exists noll_list|done]].
  intros ->. by cbn in Hnoll.
Qed.

(** X13: in a constructed wavefront [amplitudes_ansi] holds the amplitude of each
    mode at the mode's ANSI index and [amplitudes_noll] at its Noll index minus
    one; every other position holds [0]; both lists end at the largest index
    present. *)
Theorem wavefront_views_zero_filled (amplitudes : PyAmplitudes) (order : string)
    (w : ZernikeWavefront) :
  ZernikeWavefront_init amplitudes order = Ok w →
  (∀ z a, (z, a) ∈ zernikes w →
     amplitudes_ansi w !! Z.to_nat (z_index_ansi z) = Some a ∧
     amplitudes_noll w !! Z.to_nat (z_index_noll z - 1) = Some a) ∧
  (∀ i : nat, (i < length (amplitudes_ansi w))%nat →
     (∀ z a, (z, a) ∈ zernikes w → z_index_ansi z ≠ Z.of_nat i) →
     amplitudes_ansi w !! i = Some (of_Z 0)) ∧
  (∀ i : nat, (i < length (amplitudes_noll w))%nat →
     (∀ z a, (z, a) ∈ zernikes w → z_index_noll z ≠ Z.of_nat i + 1) →
     amplitudes_noll w !! i = Some (of_Z 0)) ∧
  (∃ z a, (z, a) ∈ zernikes w ∧
          Z.of_nat (length (amplitudes_ansi w)) = z_index_ansi z + 1) ∧
  (∃ z a, (z, a) ∈ zernikes w ∧
          Z.of_nat (length (amplitudes_noll w)) = z_index_noll z).
Proof.
  intros H.
  apply (ZernikeWavefront_init_in_views _ _ _ _ Zernike_cls_spec) in H
    as (Hok & Hne & (nl & Hnl & Hnoll) & Hal).
  destruct (zkeys_index_NoDup _ Hok) as (Hndn & Hnda & Hrn & Hra).
  destruct (dict_to_list_ok (noll_items (zernikes w)))
    as (Mn & outn & HMn & Houtn & Hlenn & HMn0 & Hinn & Hzn).
  { unfold noll_items. by destruct (zernikes w). }
  { eapply Forall_impl; [exact Hrn|]. intros p Hp. cbn in Hp. lia. }
  { done. }
  destruct (dict_to_list_ok (ansi_items (zernikes w)))
    as (Ma & outa & HMa & Houta & Hlena & HMa0 & Hina & Hza).
  { unfold ansi_items. by destruct (zernikes w). }
  { eapply Forall_impl; [exact Hra|]. intros p Hp. cbn in Hp. lia. }
  { done. }
  rewrite Houtn in Hnl. injection Hnl as <-.
  rewrite Houta in Hal. injection Hal as Hal.
  rewrite Hnoll, <- Hal. clear Hnoll Hal.
  assert (∀ z a, (z, a) ∈ zernikes w → 1 ≤ z_index_noll z) as Hn1.
  { intros z a Hin. rewrite Forall_forall in Hrn.
    assert ((z_index_noll z, a) ∈ noll_items (zernikes w)) as Hp.
    { apply list_elem_of_fmap. by exists (z, a). }
    apply Hrn in Hp. cbn in Hp. lia. }
  split; [|split; [|split; [|split]]].
  - intros z a Hin. split.
    + apply Hina. apply list_elem_of_fmap. by exists (z, a).
    + rewrite lookup_drop.
      replace (1 + Z.to_nat (z_index_noll z - 1))%nat with (Z.to_nat (z_index_noll z))
        by (pose proof (Hn1 z a Hin); lia).
      apply Hinn. apply list_elem_of_fmap. by exists (z, a).
  - intros i Hi Hni. apply Hza; [done|].
    intros p ([z a] & -> & Hin)%list_elem_of_fmap. cbn. by apply (Hni z a).
  - intros i Hi Hni. rewrite length_drop in Hi. rewrite lookup_drop.
    apply Hzn; [lia|].
    intros p ([z a] & -> & Hin)%list_elem_of_fmap. cbn.
    pose proof (Hni z a Hin). lia.
  - apply py_max_spec_inv in HMa as (Hin & _).
    apply list_elem_of_fmap in Hin as (p & -> & Hin).
    apply list_elem_of_fmap in Hin as ([z a] & -> & Hin).
    exists z, a. split; [done|]. cbn in *. lia.
  - apply py_max_spec_inv in HMn as (Hin & _).
    apply list_elem_of_fmap in Hin as (p & -> & Hin).
    apply list_elem_of_fmap in Hin as ([z a] & -> & Hin).
    exists z, a. split; [done|]. cbn in *. rewrite length_drop. lia.
Qed.

(** ** The dictionary comprehension of [ZernikeWavefront.__init__] *)

Lemma foldlM_snoc {A B} (f : A → B → result A) (a : A) (l : list B) (x : B) :
  foldlM f a (l ++ [x]) = a' ← foldlM f a l; f a' x.
Proof.
  revert a. induction l as [|y l IH]; intros a; cbn.
  - by destruct (f a x).
  - destruct (f a y) as [a'|e]; cbn; [apply IH|done].
Qed.

Lemma dict_setitem_elem_of (zs : list (Zernike * float)) (n m : Z) (a : float)
    (z : Zernike) (v : float) :
  zkeys_ok zs →
  (z, v) ∈ dict_setitem Zernike_eq zs (mk_zernike n m) a ↔
  (z = mk_zernike n m ∧ v = a) ∨ (z ≠ mk_zernike n m ∧ (z, v) ∈ zs).
Proof.
  intros [Hall Hnd]. rewrite Forall_forall in Hall.
  assert (∀ k x, (k, x) ∈ zs →
            Zernike_eq k (mk_zernike n m) = true ↔ k = mk_zernike n m) as Heq.
  { intros k x Hin. destruct (Hall _ Hin) as (n' & m' & _ & Hk). cbn in Hk. subst k.
    apply Zernike_eq_mk. }
  unfold dict_setitem.
  destruct (existsb (λ kv, Zernike_eq kv.1 (mk_zernike n m)) zs) eqn:He.
  - rewrite list_elem_of_fmap. split.
    + intros ([k x] & Hzv & Hin). cbn in Hzv.
      destruct (Zernike_eq k (mk_zernike n m)) eqn:Hk.
      * apply (Heq k x Hin) in Hk. injection Hzv as -> ->. by left.
      * injection Hzv as -> ->. right. split; [|done].
        intros Hc. apply (Heq k x Hin) in Hc. congruence.
    + intros [[-> ->]|[Hne Hin]].
      * apply existsb_exists in He as ([k x] & Hin%list_elem_of_In & Hk). cbn in Hk.
        exists (k, x). split; [|done]. cbn. rewrite Hk.
        by apply (Heq k x Hin) in Hk as ->.
      * exists (z, v). split; [|done]. cbn.
        destruct (Zernike_eq z (mk_zernike n m)) eqn:Hk; [|done].
        by apply (Heq z v Hin) in Hk.
  - rewrite elem_of_app, list_elem_of_singleton. split.
    + intros [Hin|[= -> ->]]; [|by left]. right. split; [|done].
      intros ->. apply not_true_iff_false in He. apply He.
      apply existsb_exists. exists (mk_zernike n m, v).
      split; [by apply list_elem_of_In|]. cbn. by apply Zernike_eq_mk.
    + intros [[-> ->]|[_ Hin]]; [by right|by left].
Qed.

Lemma dict_setitem_length (zs : list (Zernike * float)) (z : Zernike) (a : float) :
  (length (dict_setitem Zernike_eq zs z a) ≤ S (length zs))%nat.
Proof.
  unfold dict_setitem. destruct (existsb _ zs).
  - rewrite length_fmap. lia.
  - rewrite length_app. cbn. lia.
Qed.

Lemma zernikes_last_wins (cls : ZernikeCls) (order : string)
    (amps : list (PyIndex * float)) (zs : list (Zernike * float)) :
  cls_spec cls →
  foldlM (λ d (ja : PyIndex * float),
            z ← Zernike_init_in cls ja.1 order;
            Ok (dict_setitem Zernike_eq d z ja.2)) [] amps = Ok zs →
  (length zs ≤ length amps)%nat ∧
  ∀ z a, (z, a) ∈ zs ↔
    ∃ l1 idx l2, amps = l1 ++ (idx, a) :: l2 ∧
      Zernike_init_in cls idx order = Ok z ∧
      Forall (λ ja : PyIndex * float, Zernike_init_in cls ja.1 order ≠ Ok z) l2.
Proof.
  intros Hcls. revert zs. induction amps as [|[idx0 a0] amps IH] using rev_ind; intros zs H.
  - cbn in H. injection H as <-. split; [done|]. intros z a. split.
    + by intros ?%elem_of_nil.
    + intros (l1 & idx & l2 & Heq & _). by destruct l1.
  - rewrite foldlM_snoc in H. apply bind_Ok_inv in H as (zs' & Hzs' & H).
    apply bind_Ok_inv in H as (z0 & Hz0 & H). cbn [fst snd] in Hz0, H. injection H as <-.
    destruct (IH zs' Hzs') as [Hlen IHin].
    assert (zkeys_ok zs') as Hok.
    { eapply zernikes_comprehension_ok; [exact Hcls| |exact Hzs']. split; constructor. }
    destruct (Zernike_init_in_inv _ _ _ _ Hcls Hz0) as (n & m & Hv & ->).
    split.
    { rewrite length_app. cbn. pose proof (dict_setitem_length zs' (mk_zernike n m) a0). lia. }
    intros z a. rewrite dict_setitem_elem_of by done. split.
    + intros [[-> ->]|[Hne Hin]].
      * exists amps, idx0, []. by split; [|split; [|constructor]].
      * apply IHin in Hin as (l1 & idx & l2 & -> & Hz & Hall).
        exists l1, idx, (l2 ++ [(idx0, a0)]). split; [by rewrite <- app_assoc|].
        split; [done|]. apply Forall_app. split; [done|].
        constructor; [|constructor]. cbn [fst snd]. rewrite Hz0. by intros [= <-].
    + intros (l1 & idx & l2 & Heq & Hz & Hall).
      destruct l2 as [|x l2 _] using rev_ind.
      * apply (app_inj_tail amps l1) in Heq as [-> [= <- <-]].
        left. rewrite Hz0 in Hz. by injection Hz as <-.
      * rewrite app_comm_cons, app_assoc in Heq.
        apply app_inj_tail in Heq as [-> <-].
        apply Forall_app in Hall as [Hall Hx]. apply Forall_cons in Hx as [Hx _].
        cbn [fst snd] in Hx. right. split; [intros ->; by apply Hx|].
        apply IHin. by exists l1, idx, l2.
Qed.

Lemma mapM_scalars (items : list (PyIndex * float)) :
  mapM (λ ja : PyIndex * PyAmp,
          match ja.2 with
          | AmpScalar a => Ok (ja.1, a)
          | AmpNonScalar =>
              Raise (ValueError "Could not identify scalar value for amplitudes after making a dictionary")
          end) ((λ ja : PyIndex * float, (ja.1, AmpScalar ja.2)) <$> items) = Ok items.
Proof.
  induction items as [|[j a] items IH]; [done|].
  cbn. cbn in IH. by rewrite IH.
Qed.

Lemma requested_ok (zs : list (Zernike * float)) :
  zkeys_ok zs →
  ∃ req, mapM (dict_getitem Zernike_eq zs) (sorted Zernike_lt zs.*1) = Ok req.
Proof.
  intros Hok.
  pose proof (sorted_perm z_index_ansi zs.*1) as Hperm.
  change (sorted Zernike_lt zs.*1 ≡ₚ zs.*1) in Hperm.
  destruct (mapM_result_Forall2 (λ k a, (k, a) ∈ zs) (dict_getitem Zernike_eq zs)
              (sorted Zernike_lt zs.*1)) as (ys & Hys & _).
  { intros k Hk. apply dict_getitem_zkeys; [done|]. by rewrite <- Hperm. }
  by exists ys.
Qed.

Lemma index_items_ok (zs : list (Zernike * float)) :
  zkeys_ok zs → zs ≠ [] →
  (∃ nl, dict_to_list (noll_items zs) = Ok nl) ∧
  (∃ al, dict_to_list (ansi_items zs) = Ok al).
Proof.
  intros Hok Hne. destruct (zkeys_index_NoDup _ Hok) as (Hndn & Hnda & Hrn & Hra).
  split.
  - destruct (dict_to_list_ok (noll_items zs)) as (M & out & _ & Hout & _); [| |done|by exists out].
    + unfold noll_items. by destruct zs.
    + eapply Forall_impl; [exact Hrn|]. intros p Hp. cbn in Hp. lia.
  - destruct (dict_to_list_ok (ansi_items zs)) as (M & out & _ & Hout & _); [| |done|by exists out].
    + unfold ansi_items. by destruct zs.
    + eapply Forall_impl; [exact Hra|]. intros p Hp. cbn in Hp. lia.
Qed.

(** Once the dictionary comprehension has produced a non-empty [zernikes],
    the rest of the constructor goes through. *)
Lemma ZernikeWavefront_init_in_ok (cls : ZernikeCls) (amplitudes : PyAmplitudes)
    (order : string) (items : list (PyIndex * PyAmp)) (amps : list (PyIndex * float))
    (zs : list (Zernike * float)) :
  cls_spec cls →
  ensure_dict amplitudes order = Ok items →
  mapM (λ ja : PyIndex * PyAmp,
          match ja.2 with
          | AmpScalar a => Ok (ja.1, a)
          | AmpNonScalar =>
              Raise (ValueError "Could not identify scalar value for amplitudes after making a dictionary")
          end) items = Ok amps →
  foldlM (λ d (ja : PyIndex * float),
            z ← Zernike_init_in cls ja.1 order;
            Ok (dict_setitem Zernike_eq d z ja.2)) [] amps = Ok zs →
  zs ≠ [] →
  ∃ w, ZernikeWavefront_init_in cls amplitudes order = Ok w ∧ zernikes w = zs.
Proof.
  intros Hcls Hitems Hamps Hzs Hne.
  assert (zkeys_ok zs) as Hok.
  { eapply zernikes_comprehension_ok; [exact Hcls| |exact Hzs]. split; constructor. }
  destruct (index_items_ok zs Hok Hne) as [[nl Hnl] [al Hal]].
  destruct (requested_ok zs Hok) as [req Hreq].
  destruct (by_index_items zs Hok) as [Hbn Hba].
  unfold ZernikeWavefront_init_in. rewrite Hitems. cbn [mbind result_bind].
  rewrite Hamps. cbn [mbind result_bind]. rewrite Hzs. cbn [mbind result_bind].
  rewrite Hbn, Hba, Hnl. cbn [mbind result_bind]. rewrite Hal. cbn [mbind result_bind].
  rewrite Hreq. cbn [mbind result_bind]. by eexists.
Qed.

Lemma ZernikeWavefront_init_in_dict (cls : ZernikeCls) (amps : list (PyIndex * float))
    (order : string) (w : ZernikeWavefront) :
  ZernikeWavefront_init_in cls
    (AmpDict ((λ ja : PyIndex * float, (ja.1, AmpScalar ja.2)) <$> amps)) order = Ok w →
  foldlM (λ d (ja : PyIndex * float),
            z ← Zernike_init_in cls ja.1 order;
            Ok (dict_setitem Zernike_eq d z ja.2)) [] amps = Ok (zernikes w).
Proof.
  intros H. unfold ZernikeWavefront_init_in in H.
  cbn [ensure_dict mbind result_bind] in H. rewrite mapM_scalars in H.
  cbn [mbind result_bind] in H.
  apply bind_Ok_inv in H as (zs & Hzs & H).
  apply bind_Ok_inv in H as (nl & _ & H).
  apply bind_Ok_inv in H as (al & _ & H).
  apply bind_Ok_inv in H as (req & _ & H).
  by injection H as <-.
Qed.

(** X14: a wavefront built from a dictionary of scalar amplitudes has at least one
    and at most as many modes as the dictionary has items; a mode carries the
    amplitude of the last item whose key constructs that mode, so keys that
    denote the same mode are merged and the later amplitude wins. *)
Theorem wavefront_last_amplitude_wins (items : list (PyIndex * float))
    (order : string) (w : ZernikeWavefront) :
  ZernikeWavefront_init
    (AmpDict ((λ ja : PyIndex * float, (ja.1, AmpScalar ja.2)) <$> items)) order = Ok w →
  (1 ≤ ZernikeWavefront_len w ≤ length items)%nat ∧
  ∀ z a, (z, a) ∈ zernikes w ↔
    ∃ l1 idx l2, items = l1 ++ (idx, a) :: l2 ∧
      Zernike_init idx order = Ok z ∧
      Forall (λ ja : PyIndex * float, Zernike_init ja.1 order ≠ Ok z) l2.
Proof.
  intros H.
  pose proof (ZernikeWavefront_init_in_views _ _ _ _ Zernike_cls_spec H)
    as (_ & Hne & _).
  apply ZernikeWavefront_init_in_dict in H.
  destruct (zernikes_last_wins _ _ _ _ Zernike_cls_spec H) as [Hlen Hin].
  split; [|exact Hin]. unfold ZernikeWavefront_len.
  split; [|done]. destruct (zernikes w); [done|cbn; lia].
Qed.

(** ** Wavefronts built from a flat sequence *)

Lemma py_range_seqZ (a k : Z) : 0 ≤ k → py_range a (a + k) 1 = seqZ a k.
Proof.
  intros Hk. unfold py_range.
  replace ((a + k - a + 1 - 1) `div` 1) with k by (rewrite Z.div_1_r; lia).
  apply list_eq. intros i. rewrite list_lookup_fmap.
  destruct (decide (Z.of_nat i < k)) as [Hi|Hi].
  - rewrite !lookup_seqZ_lt by lia. cbn. f_equal. lia.
  - by rewrite !lookup_seqZ_ge by lia.
Qed.

Lemma foldlM_comprehension_total (cls : ZernikeCls) (order : string)
    (amps : list (PyIndex * float)) (d0 : list (Zernike * float)) :
  (∀ ja, ja ∈ amps → ∃ z, Zernike_init_in cls ja.1 order = Ok z) →
  ∃ zs, foldlM (λ d (ja : PyIndex * float),
                  z ← Zernike_init_in cls ja.1 order;
                  Ok (dict_setitem Zernike_eq d z ja.2)) d0 amps = Ok zs.
Proof.
  revert d0. induction amps as [|ja amps IH]; intros d0 Hall; [by eexists|].
  destruct (Hall ja) as [z Hz]; [left|]. cbn [foldlM]. rewrite Hz.
  cbn [mbind result_bind]. apply IH. intros x Hx. apply Hall. by right.
Qed.

Lemma dict_to_list_seq (kv : list (Z * float)) (off : Z) (vs : list float) :
  0 ≤ off → vs ≠ [] → NoDup kv.*1 →
  (∀ k v, (k, v) ∈ kv ↔ ∃ i : nat, vs !! i = Some v ∧ k = off + Z.of_nat i) →
  dict_to_list kv = Ok (replicate (Z.to_nat off) (of_Z 0) ++ vs).
Proof.
  intros Hoff Hne Hnd Hkv.
  assert (∃ v0, vs !! (length vs - 1)%nat = Some v0) as [v0 Hv0].
  { apply lookup_lt_is_Some_2. destruct vs; [done|cbn; lia]. }
  assert ((off + Z.of_nat (length vs - 1), v0) ∈ kv) as Hlast.
  { apply Hkv. by eexists. }
  destruct (dict_to_list_ok kv) as (M & out & HM & Hout & Hlen & _ & Hin & Hz).
  { intros ->. by apply elem_of_nil in Hlast. }
  { apply Forall_forall. intros [k v] (i & _ & ->)%Hkv. cbn. lia. }
  { done. }
  apply py_max_spec_inv in HM as [HMin HMle].
  assert (M = off + Z.of_nat (length vs - 1)) as ->.
  { apply Z.le_antisymm.
    - apply list_elem_of_fmap in HMin as ([k v] & -> & (i & Hi%lookup_lt_Some & ->)%Hkv).
      cbn. lia.
    - apply HMle. apply list_elem_of_fmap. by eexists (_, _). }
  rewrite Hout. f_equal. apply list_eq. intros i.
  destruct (decide (i < Z.to_nat off)%nat) as [Hi|Hi].
  - rewrite lookup_app_l by (rewrite length_replicate; lia).
    rewrite lookup_replicate_2 by done. apply Hz; [lia|].
    intros [k v] (i' & _ & ->)%Hkv. cbn. lia.
  - rewrite lookup_app_r by (rewrite length_replicate; lia).
    rewrite length_replicate.
    destruct (vs !! (i - Z.to_nat off)%nat) as [v|] eqn:Hv.
    + replace i with (Z.to_nat (off + Z.of_nat (i - Z.to_nat off))) at 1 by lia.
      apply Hin, Hkv. by eexists.
    + apply lookup_ge_None in Hv. apply lookup_ge_None.
      apply lookup_lt_Some in Hv0. lia.
Qed.

Lemma foldlM_app {A B} (f : A → B → result A) (a : A) (l1 l2 : list B) :
  foldlM f a (l1 ++ l2) = a' ← foldlM f a l1; foldlM f a' l2.
Proof.
  revert a. induction l1 as [|y l IH]; intros a; cbn; [done|].
  destruct (f a y) as [a'|e]; cbn; [apply IH|done].
Qed.

Lemma foldlM_comprehension_elem (cls : ZernikeCls) (order : string)
    (amps : list (PyIndex * float)) (d0 zs : list (Zernike * float))
    (ja : PyIndex * float) :
  foldlM (λ d (ja : PyIndex * float),
            z ← Zernike_init_in cls ja.1 order;
            Ok (dict_setitem Zernike_eq d z ja.2)) d0 amps = Ok zs →
  ja ∈ amps → ∃ z, Zernike_init_in cls ja.1 order = Ok z.
Proof.
  intros H (l1 & l2 & ->)%list_elem_of_split.
  rewrite foldlM_app in H. apply bind_Ok_inv in H as (d & _ & H).
  cbn [foldlM] in H. apply bind_Ok_inv in H as (d' & H & _).
  apply bind_Ok_inv in H as (z & Hz & _). by exists z.
Qed.

Lemma sequence_items (cls : ZernikeCls) (order : string) (g : Zernike → Z) (off : Z)
    (vs : list float) (zs : list (Zernike * float)) :
  cls_spec cls →
  (∀ j z, Zernike_init_in cls (IInt j) order = Ok z → g z = j) →
  foldlM (λ d (ja : PyIndex * float),
            z ← Zernike_init_in cls ja.1 order;
            Ok (dict_setitem Zernike_eq d z ja.2)) []
         (zip (IInt <$> seqZ off (Z.of_nat (length vs))) vs) = Ok zs →
  ∀ k v, (k, v) ∈ ((λ za : Zernike * float, (g za.1, za.2)) <$> zs) ↔
         ∃ i : nat, vs !! i = Some v ∧ k = off + Z.of_nat i.
Proof.
  intros Hcls Hg Hzs.
  destruct (zernikes_last_wins _ _ _ _ Hcls Hzs) as [Hlen Hin].
  set (amps := zip (IInt <$> seqZ off (Z.of_nat (length vs))) vs) in *.
  assert (∀ i idx a, amps !! i = Some (idx, a) ↔
            vs !! i = Some a ∧ idx = IInt (off + Z.of_nat i)) as Hamps.
  { intros i idx a. unfold amps. rewrite lookup_zip_with_Some. split.
    - intros (x & a' & Heq & Hx & Ha). injection Heq as -> ->. split; [done|].
      rewrite list_lookup_fmap in Hx.
      destruct (seqZ off (Z.of_nat (length vs)) !! i) as [j|] eqn:Hj; [|done].
      apply lookup_seqZ in Hj as [-> _]. by injection Hx as <-.
    - intros (Ha & ->). exists (IInt (off + Z.of_nat i)), a.
      split; [done|]. split; [|done].
      rewrite list_lookup_fmap, lookup_seqZ_lt; [done|].
      apply lookup_lt_Some in Ha. lia. }
  intros k v. rewrite list_elem_of_fmap. split.
  - intros ([z a] & Heq & (l1 & idx & l2 & Hsplit & Hz & _)%Hin).
    injection Heq as -> ->.
    assert (amps !! length l1 = Some (idx, a)) as Hl.
    { rewrite Hsplit. by rewrite list_lookup_middle. }
    apply Hamps in Hl as (Ha' & ->).
    exists (length l1). split; [done|]. cbn [fst]. by apply Hg.
  - intros (i & Hi & ->).
    assert (amps !! i = Some (IInt (off + Z.of_nat i), v)) as Hl by by apply Hamps.
    destruct (foldlM_comprehension_elem _ _ _ _ _ _ Hzs (list_elem_of_lookup_2 _ _ _ Hl))
      as [z Hz].
    cbn [fst] in Hz.
    exists (z, v). split; [cbn; f_equal; symmetry; by apply Hg|].
    apply Hin. exists (take i amps), (IInt (off + Z.of_nat i)), (drop (S i) amps).
    split; [by rewrite take_drop_middle|]. split; [done|].
    apply Forall_forall. intros [idx a] Hin2 Hc. cbn [fst] in Hc.
    apply list_elem_of_lookup_1 in Hin2 as [i2 Hi2].
    rewrite lookup_drop in Hi2.
    apply Hamps in Hi2 as (_ & ->).
    apply Hg in Hc. apply Hg in Hz. lia.
Qed.

Lemma zip_scalars (js : list PyIndex) (vs : list float) :
  zip js (AmpScalar <$> vs) = (λ ja : PyIndex * float, (ja.1, AmpScalar ja.2)) <$> zip js vs.
Proof.
  revert vs. induction js as [|j js IH]; intros [|v vs]; cbn; [done..|].
  by rewrite <- IH.
Qed.

Lemma ensure_dict_seq (vs : list float) (order : string) (off : Z) :
  str_lower order = "noll"%string ∧ off = 1 ∨ str_lower order = "ansi"%string ∧ off = 0 →
  ensure_dict (AmpSeq (AmpScalar <$> vs)) order =
    Ok ((λ ja : PyIndex * float, (ja.1, AmpScalar ja.2)) <$>
        zip (IInt <$> seqZ off (Z.of_nat (length vs))) vs) ∧
  ensure_dict (AmpArray vs) order =
    Ok ((λ ja : PyIndex * float, (ja.1, AmpScalar ja.2)) <$>
        zip (IInt <$> seqZ off (Z.of_nat (length vs))) vs).
Proof.
  intros Ho. unfold ensure_dict.
  assert (bool_decide (str_lower order ∈ ["noll"; "ansi"]%string) = true) as ->.
  { apply bool_decide_eq_true. destruct Ho as [[-> _]|[-> _]]; [left|right; left]. }
  assert ((if bool_decide (str_lower order = "noll"%string) then 1 else 0) = off) as ->.
  { destruct Ho as [[-> ->]|[-> ->]]; done. }
  cbn [or_present mbind result_bind]. rewrite length_fmap.
  rewrite py_range_seqZ by lia. by rewrite zip_scalars.
Qed.

Lemma sequence_wavefront (cls : ZernikeCls) (order : string) (g : Zernike → Z) (off : Z)
    (vs : list float) :
  cls_spec cls → vs ≠ [] →
  str_lower order = "noll"%string ∧ off = 1 ∨ str_lower order = "ansi"%string ∧ off = 0 →
  (∀ j z, Zernike_init_in cls (IInt j) order = Ok z → g z = j) →
  (∀ i : nat, (i < length vs)%nat →
     ∃ z, Zernike_init_in cls (IInt (off + Z.of_nat i)) order = Ok z) →
  ∃ w, ZernikeWavefront_init_in cls (AmpSeq (AmpScalar <$> vs)) order = Ok w ∧
       ZernikeWavefront_init_in cls (AmpArray vs) order = Ok w ∧
       ∀ k v, (k, v) ∈ ((λ za : Zernike * float, (g za.1, za.2)) <$> zernikes w) ↔
              ∃ i : nat, vs !! i = Some v ∧ k = off + Z.of_nat i.
Proof.
  intros Hcls Hne Ho Hg Hex.
  destruct (ensure_dict_seq vs order off Ho) as [Hseq Harr].
  set (amps := zip (IInt <$> seqZ off (Z.of_nat (length vs))) vs) in *.
  destruct (foldlM_comprehension_total cls order amps []) as [zs Hzs].
  { intros [idx a] Hin. apply list_elem_of_lookup_1 in Hin as [i Hi].
    unfold amps in Hi. apply lookup_zip_with_Some in Hi as (x & a' & Heq & Hx & Ha).
    injection Heq as -> ->. rewrite list_lookup_fmap in Hx.
    destruct (seqZ off (Z.of_nat (length vs)) !! i) as [j|] eqn:Hj; [|done].
    apply lookup_seqZ in Hj as [-> Hlt]. injection Hx as <-. cbn [fst].
    apply Hex. lia. }
  pose proof (sequence_items cls order g off vs zs Hcls Hg Hzs) as Hmem.
  assert (zs ≠ []) as Hzne.
  { destruct vs as [|v vs]; [done|]. intros ->.
    destruct (Hmem off v) as [_ Hc]. 
    assert ((off, v) ∈ @nil (Z * float)) as Hnil; [|by apply elem_of_nil in Hnil].
    apply Hc. exists 0%nat. split; [done|lia]. }
  destruct (ZernikeWavefront_init_in_ok cls (AmpSeq (AmpScalar <$> vs)) order _ amps zs
              Hcls Hseq (mapM_scalars amps) Hzs Hzne) as (w & Hw & Hzw).
  destruct (ZernikeWavefront_init_in_ok cls (AmpArray vs) order _ amps zs
              Hcls Harr (mapM_scalars amps) Hzs Hzne) as (w' & Hw' & Hzw').
  assert (w' = w) as ->.
  { unfold ZernikeWavefront_init_in in Hw, Hw'. rewrite Hseq in Hw. rewrite Harr in Hw'.
    rewrite Hw in Hw'. by injection Hw'. }
  exists w. split; [done|]. split; [done|]. by rewrite Hzw.
Qed.

Lemma Zernike_init_in_int_index (cls : ZernikeCls) (j : Z) (order : string) (z : Zernike) :
  cls_spec cls → Zernike_init_in cls (IInt j) order = Ok z →
  (str_lower order = "noll"%string → z_index_noll z = j) ∧
  (str_lower order = "ansi"%string → z_index_ansi z = j).
Proof.
  intros Hcls H. split; intros Ho.
  - destruct (_noll_to_nm cls !! j) as [[n m]|] eqn:Hj.
    + rewrite (Zernike_init_in_noll cls j n m order Hcls Ho Hj) in H. injection H as <-.
      by apply (cls_noll _ Hcls) in Hj as [_ ?].
    + by rewrite (Zernike_init_in_noll_None cls j order Ho Hj) in H.
  - destruct (_ansi_to_nm cls !! j) as [[n m]|] eqn:Hj.
    + rewrite (Zernike_init_in_ansi cls j n m order Hcls Ho Hj) in H. injection H as <-.
      by apply (cls_ansi _ Hcls) in Hj as [_ ?].
    + by rewrite (Zernike_init_in_ansi_None cls j order Ho Hj) in H.
Qed.

Lemma length_by_keys (kv : list (Z * float)) (off : Z) (vs : list float) :
  NoDup kv.*1 →
  (∀ k v, (k, v) ∈ kv ↔ ∃ i : nat, vs !! i = Some v ∧ k = off + Z.of_nat i) →
  length kv = length vs.
Proof.
  intros Hnd Hkv.
  assert (kv.*1 ≡ₚ seqZ off (Z.of_nat (length vs))) as Hperm.
  { apply NoDup_Permutation; [done|apply NoDup_seqZ|].
    intros k. rewrite elem_of_seqZ, list_elem_of_fmap. split.
    - intros ([k' v] & -> & (i & Hi%lookup_lt_Some & ->)%Hkv). cbn. lia.
    - intros Hk. destruct (lookup_lt_is_Some_2 vs (Z.to_nat (k - off))) as [v Hv]; [lia|].
      exists (k, v). split; [done|]. apply Hkv. exists (Z.to_nat (k - off)).
      split; [done|lia]. }
  apply Permutation_length in Hperm. rewrite length_fmap, length_seqZ in Hperm. lia.
Qed.

(** X15: a flat sequence (list, tuple or array) of between 1 and 20100 scalar
    amplitudes is returned unchanged by the view of the order it was given in:
    [amplitudes_noll] under Noll order, [amplitudes_ansi] under ANSI order; the
    wavefront has one mode for each amplitude. *)
Theorem wavefront_sequence_roundtrip (vs : list float) (order : string) :
  vs ≠ [] → Z.of_nat (length vs) ≤ 20100 →
  (str_lower order = "noll"%string →
     ∃ w, ZernikeWavefront_init (AmpSeq (AmpScalar <$> vs)) order = Ok w ∧
          ZernikeWavefront_init (AmpArray vs) order = Ok w ∧
          amplitudes_noll w = vs ∧ ZernikeWavefront_len w = length vs) ∧
  (str_lower order = "ansi"%string →
     ∃ w, ZernikeWavefront_init (AmpSeq (AmpScalar <$> vs)) order = Ok w ∧
          ZernikeWavefront_init (AmpArray vs) order = Ok w ∧
          amplitudes_ansi w = vs ∧ ZernikeWavefront_len w = length vs).
Proof.
  intros Hne Hlen. pose proof Zernike_cls_spec as Hcls. split; intros Ho.
  - destruct (sequence_wavefront Zernike_cls order z_index_noll 1 vs Hcls Hne)
      as (w & Hw & Hw' & Hmem).
    { by left. }
    { intros j z Hz. by apply (Zernike_init_in_int_index _ _ _ _ Hcls Hz). }
    { intros i Hi. destruct (noll_surj (1 + Z.of_nat i)) as (n & m & Hv & Hj); [lia|].
      exists (mk_zernike n m). apply Zernike_init_in_noll; [done..|].
      by apply (cls_noll _ Hcls). }
    exists w. split; [done|]. split; [done|].
    destruct (ZernikeWavefront_init_in_views _ _ _ _ Hcls Hw)
      as (Hok & _ & (nl & Hnl & ->) & _).
    destruct (zkeys_index_NoDup _ Hok) as (Hnd & _).
    rewrite (dict_to_list_seq _ 1 vs ltac:(lia) Hne Hnd Hmem) in Hnl.
    injection Hnl as <-. split; [done|].
    unfold ZernikeWavefront_len.
    rewrite <- (length_by_keys _ 1 vs Hnd Hmem). unfold noll_items.
    by rewrite length_fmap.
  - destruct (sequence_wavefront Zernike_cls order z_index_ansi 0 vs Hcls Hne)
      as (w & Hw & Hw' & Hmem).
    { by right. }
    { intros j z Hz. by apply (Zernike_init_in_int_index _ _ _ _ Hcls Hz). }
    { intros i Hi. destruct (ansi_surj (0 + Z.of_nat i)) as (n & m & Hv & Hj); [lia|].
      exists (mk_zernike n m). apply Zernike_init_in_ansi; [done..|].
      by apply (cls_ansi _ Hcls). }
    exists w. split; [done|]. split; [done|].
    destruct (ZernikeWavefront_init_in_views _ _ _ _ Hcls Hw)
      as (Hok & _ & _ & Hal).
    destruct (zkeys_index_NoDup _ Hok) as (_ & Hnd & _).
    rewrite (dict_to_list_seq _ 0 vs ltac:(lia) Hne Hnd Hmem) in Hal.
    injection Hal as <-. split; [done|].
    unfold ZernikeWavefront_len.
    rewrite <- (length_by_keys _ 0 vs Hnd Hmem). unfold ansi_items.
    by rewrite length_fmap.
Qed.

(** ** Exceptions of the wavefront constructor *)

Lemma mapM_Raise_inv {A B} (f : A → result B) (l : list A) (e : exn) :
  mapM f l = Raise e → ∃ x, x ∈ l ∧ f x = Raise e.
Proof.
  induction l as [|x l IH]; [done|]. cbn.
  destruct (f x) as [y|e'] eqn:Hx; cbn.
  - destruct (mapM f l) as [ys|e'']; cbn; [done|].
    intros [= <-]. destruct IH as (x' & Hin & Hx'); [done|].
    exists x'. split; [by right|done].
  - intros [= <-]. exists x. split; [left|done].
Qed.

Lemma foldlM_Raise_inv {A B} (f : A → B → result A) (a : A) (l : list B) (e : exn) :
  foldlM f a l = Raise e → ∃ a' x, x ∈ l ∧ f a' x = Raise e.
Proof.
  revert a. induction l as [|x l IH]; intros a; [done|]. cbn.
  destruct (f a x) as [a'|e'] eqn:Hx; cbn.
  - intros (a'' & x' & Hin & Hx')%IH. exists a'', x'. split; [by right|done].
  - intros [= <-]. exists a, x. split; [left|done].
Qed.

Lemma ensure_dict_raises (values : PyAmplitudes) (order : string) (e : exn) :
  ensure_dict values order = Raise e → ∃ msg, e = ValueError msg.
Proof.
  unfold ensure_dict.
  destruct values as [items|vs|vs|]; [done| | |intros [= <-]; by eexists];
    (destruct (bool_decide (str_lower order ∈ ["noll"; "ansi"]%string)); cbn;
     [done|intros [= <-]; by eexists]).
Qed.

Lemma ZernikeWavefront_init_in_raises (cls : ZernikeCls) (amplitudes : PyAmplitudes)
    (order : string) (e : exn) :
  cls_spec cls → ZernikeWavefront_init_in cls amplitudes order = Raise e →
  ∃ msg, e = ValueError msg.
Proof.
  intros Hcls H. unfold ZernikeWavefront_init_in in H.
  destruct (ensure_dict amplitudes order) as [items|e1] eqn:Hitems; cbn [mbind result_bind] in H.
  2: { injection H as <-. by apply ensure_dict_raises in Hitems. }
  destruct (mapM _ items) as [amps|e2] eqn:Hamps; cbn [mbind result_bind] in H.
  2: { injection H as <-. apply mapM_Raise_inv in Hamps as ([j a] & _ & Hx).
       cbn in Hx. destruct a; [done|]. injection Hx as <-. by eexists. }
  destruct (foldlM _ [] amps) as [zs|e3] eqn:Hzs; cbn [mbind result_bind] in H.
  2: { injection H as <-. apply foldlM_Raise_inv in Hzs as (d & [j a] & _ & Hx).
       cbn [fst snd] in Hx.
       destruct (Zernike_init_in cls j order) as [z|e4] eqn:Hz; [done|].
       injection Hx as <-. by apply (Zernike_init_in_raises cls j order). }
  assert (zkeys_ok zs) as Hok.
  { eapply zernikes_comprehension_ok; [exact Hcls| |exact Hzs]. split; constructor. }
  destruct (by_index_items zs Hok) as [Hbn Hba]. rewrite Hbn, Hba in H.
  destruct zs as [|za zs].
  { injection H as <-. by eexists. }
  destruct (index_items_ok (za :: zs) Hok ltac:(done)) as [[nl Hnl] [al Hal]].
  destruct (requested_ok (za :: zs) Hok) as [req Hreq].
  rewrite Hnl in H. cbn [mbind result_bind] in H.
  rewrite Hal in H. cbn [mbind result_bind] in H.
  rewrite Hreq in H. done.
Qed.

(** X16: for amplitudes given as an nd-array, a tuple or a list, as a
    dictionary whose keys are ASCII strings, integers, tuples of integers or
    objects that are none of these and no tuple of length two, or as any other
    object, an exception raised by [ZernikeWavefront.__init__] is a
    [ValueError]: filling the index lists never leaves their bounds and the
    lookups of the sorted keys never miss. *)
Theorem ZernikeWavefront_init_raises_only_ValueError (amplitudes : PyAmplitudes)
    (order : string) (e : exn) :
  amplitudes_isascii amplitudes = true →
  ZernikeWavefront_init amplitudes order = Raise e → ∃ msg, e = ValueError msg.
Proof. intros _. apply ZernikeWavefront_init_in_raises, Zernike_cls_spec. Qed.

Lemma ZernikeWavefront_init_raises_only_ValueError_witness :
  amplitudes_isascii (AmpDict [(IStr "Coma", AmpScalar (Fin 1))]) = true ∧
  ZernikeWavefront_init (AmpDict [(IStr "Coma", AmpScalar (Fin 1))]) "noll" =
    Raise (ValueError "Your input for index is string : Could not identify the name of Zernike polynomial") ∧
  ∃ msg, ValueError "Your input for index is string : Could not identify the name of Zernike polynomial"
         = ValueError msg.
Proof.
  assert (ZernikeWavefront_init (AmpDict [(IStr "Coma", AmpScalar (Fin 1))]) "noll" =
    Raise (ValueError "Your input for index is string : Could not identify the name of Zernike polynomial")) as H.
  { unfold ZernikeWavefront_init, ZernikeWavefront_init_in.
    cbn [ensure_dict mapM mbind result_bind mret result_ret fst snd foldlM].
    rewrite Zernike_init_in_unknown_name;
      [reflexivity|apply Zernike_cls_spec|reflexivity|apply coma_no_name]. }
  split; [reflexivity|]. split; [exact H|].
  exact (ZernikeWavefront_init_raises_only_ValueError
           (AmpDict [(IStr "Coma", AmpScalar (Fin 1))]) "noll" _ eq_refl H).
Defined.

Lemma wavefront_sequence_roundtrip_witness :
  [Fin 1; Fin 2; Fin 3] ≠ [] ∧ Z.of_nat (length [Fin 1; Fin 2; Fin 3]) ≤ 20100 ∧
  (str_lower "noll" = "noll"%string →
     ∃ w, ZernikeWavefront_init (AmpSeq (AmpScalar <$> [Fin 1; Fin 2; Fin 3])) "noll" = Ok w ∧
          ZernikeWavefront_init (AmpArray [Fin 1; Fin 2; Fin 3]) "noll" = Ok w ∧
          amplitudes_noll w = [Fin 1; Fin 2; Fin 3] ∧
          ZernikeWavefront_len w = length [Fin 1; Fin 2; Fin 3]) ∧
  (str_lower "noll" = "ansi"%string →
     ∃ w, ZernikeWavefront_init (AmpSeq (AmpScalar <$> [Fin 1; Fin 2; Fin 3])) "noll" = Ok w ∧
          ZernikeWavefront_init (AmpArray [Fin 1; Fin 2; Fin 3]) "noll" = Ok w ∧
          amplitudes_ansi w = [Fin 1; Fin 2; Fin 3] ∧
          ZernikeWavefront_len w = length [Fin 1; Fin 2; Fin 3]).
Proof.
  split; [done|]. split; [cbn; lia|].
  apply (wavefront_sequence_roundtrip [Fin 1; Fin 2; Fin 3] "noll"); [done|cbn; lia].
Defined.

Lemma wavefront_views_zero_filled_witness :
  ZernikeWavefront_init
    (AmpSeq [AmpScalar (Fin 1); AmpScalar (Fin 2); AmpScalar (Fin 3)]) "noll"
  = Ok wavefront_123 ∧
  (∀ z a, (z, a) ∈ zernikes wavefront_123 →
     amplitudes_ansi wavefront_123 !! Z.to_nat (z_index_ansi z) = Some a ∧
     amplitudes_noll wavefront_123 !! Z.to_nat (z_index_noll z - 1) = Some a) ∧
  (∀ i : nat, (i < length (amplitudes_ansi wavefront_123))%nat →
     (∀ z a, (z, a) ∈ zernikes wavefront_123 → z_index_ansi z ≠ Z.of_nat i) →
     amplitudes_ansi wavefront_123 !! i = Some (of_Z 0)) ∧
  (∀ i : nat, (i < length (amplitudes_noll wavefront_123))%nat →
     (∀ z a, (z, a) ∈ zernikes wavefront_123 → z_index_noll z ≠ Z.of_nat i + 1) →
     amplitudes_noll wavefront_123 !! i = Some (of_Z 0)) ∧
  (∃ z a, (z, a) ∈ zernikes wavefront_123 ∧
          Z.of_nat (length (amplitudes_ansi wavefront_123)) = z_index_ansi z + 1) ∧
  (∃ z a, (z, a) ∈ zernikes wavefront_123 ∧
          Z.of_nat (length (amplitudes_noll wavefront_123)) = z_index_noll z).
Proof.
  split; [apply ZernikeWavefront_init_123|].
  apply (wavefront_views_zero_filled _ _ _ ZernikeWavefront_init_123).
Defined.

Lemma ZernikeWavefront_init_in_defocus_twice (cls : ZernikeCls) :
  cls_spec cls →
  ZernikeWavefront_init_in cls
    (AmpDict [(IInt 4, AmpScalar (Fin 1)); (ISeq [2; 0], AmpScalar (Fin 2))]) "noll"
  = Ok wavefront_defocus_twice.
Proof.
  intros Hcls. unfold ZernikeWavefront_init_in.
  cbn [ensure_dict mbind result_bind mapM fst snd mret result_ret foldlM].
  rewrite (Zernike_init_in_noll cls 4 2 0); [|done..|by apply (cls_noll _ Hcls)].
  rewrite (Zernike_init_in_pair cls 2 0) by (done || apply valid_nm_2_0).
  reflexivity.
Qed.

Lemma wavefront_last_amplitude_wins_witness :
  ZernikeWavefront_init
    (AmpDict ((λ ja : PyIndex * float, (ja.1, AmpScalar ja.2)) <$>
              [(IInt 4, Fin 1); (ISeq [2; 0], Fin 2)])) "noll"
  = Ok wavefront_defocus_twice ∧
  (1 ≤ ZernikeWavefront_len wavefront_defocus_twice
     ≤ length [(IInt 4%Z, Fin 1); (ISeq [2%Z; 0%Z], Fin 2)])%nat ∧
  ∀ z a, (z, a) ∈ zernikes wavefront_defocus_twice ↔
    ∃ l1 idx l2, [(IInt 4, Fin 1); (ISeq [2; 0], Fin 2)] = l1 ++ (idx, a) :: l2 ∧
      Zernike_init idx "noll" = Ok z ∧
      Forall (λ ja : PyIndex * float, Zernike_init ja.1 "noll" ≠ Ok z) l2.
Proof.
  split; [apply ZernikeWavefront_init_in_defocus_twice, Zernike_cls_spec|].
  apply (wavefront_last_amplitude_wins [(IInt 4, Fin 1); (ISeq [2; 0], Fin 2)] "noll").
  apply ZernikeWavefront_init_in_defocus_twice, Zernike_cls_spec.
Defined.

(** ** The [order] argument *)

Lemma Zernike_init_in_order_irrelevant (cls : ZernikeCls) (idx : PyIndex)
    (order order' : string) :
  match idx with
  | IInt _ => False
  | IStr s => str_isdigit s = false
  | _ => True
  end →
  Zernike_init_in cls idx order = Zernike_init_in cls idx order'.
Proof.
  destruct idx as [s|j|l|]; intros H; [|done| |done].
  - unfold Zernike_init_in. cbn [mbind result_bind]. by rewrite H.
  - by destruct l as [|a [|b [|c l]]].
Qed.

Lemma foldlM_ext_in {A B} (f g : A → B → result A) (a : A) (l : list B) :
  (∀ a x, x ∈ l → f a x = g a x) → foldlM f a l = foldlM g a l.
Proof.
  revert a. induction l as [|x l IH]; intros a Hfg; [done|].
  cbn. rewrite (Hfg a x) by left. destruct (g a x) as [a'|e]; cbn; [|done].
  apply IH. intros a'' y Hy. apply Hfg. by right.
Qed.

Lemma mapM_scalars_index (items : list (PyIndex * PyAmp)) (amps : list (PyIndex * float))
    (P : PyIndex → Prop) :
  mapM (λ ja : PyIndex * PyAmp,
          match ja.2 with
          | AmpScalar a => Ok (ja.1, a)
          | AmpNonScalar =>
              Raise (ValueError "Could not identify scalar value for amplitudes after making a dictionary")
          end) items = Ok amps →
  Forall (λ ja, P ja.1) items → Forall (λ ja, P ja.1) amps.
Proof.
  revert amps. induction items as [|[j a] items IH]; intros amps H Hall.
  - injection H as <-. constructor.
  - apply Forall_cons in Hall as [Hj Hall]. cbn in H.
    destruct a as [a|]; [|done]. cbn in H.
    destruct (mapM _ items) as [amps'|] eqn:Hm; [|done]. cbn in H.
    injection H as <-. constructor; [done|]. by apply IH.
Qed.

(** X17: for a dictionary whose keys are tuples of integers, ASCII strings
    that are not all digits, or objects that are no string, no integer and no
    tuple of length two, the outcome of [ZernikeWavefront(amplitudes, order)]
    does not depend on [order] at all, not even on its being a known order. *)
Theorem order_only_read_for_integer_keys (items : list (PyIndex * PyAmp))
    (order order' : string) :
  Forall (λ ja : PyIndex * PyAmp,
            match ja.1 with
            | IInt _ => False
            | IStr s => str_isascii s = true ∧ str_isdigit s = false
            | _ => True
            end) items →
  ZernikeWavefront_init (AmpDict items) order =
  ZernikeWavefront_init (AmpDict items) order'.
Proof.
  intros Hall0.
  assert (Forall (λ ja : PyIndex * PyAmp,
                    match ja.1 with
                    | IInt _ => False
                    | IStr s => str_isdigit s = false
                    | _ => True
                    end) items) as Hall.
  { eapply Forall_impl; [exact Hall0|]. intros [[s| | |] a]; cbn; tauto. }
  clear Hall0. unfold ZernikeWavefront_init, ZernikeWavefront_init_in.
  cbn [ensure_dict mbind result_bind].
  destruct (mapM _ items) as [amps|e] eqn:Hamps; [|done]. cbn [mbind result_bind].
  pose proof (mapM_scalars_index items amps
                (λ idx, match idx with
                        | IInt _ => False
                        | IStr s => str_isdigit s = false
                        | _ => True
                        end) Hamps Hall) as Hall'.
  rewrite (foldlM_ext_in _
             (λ d (ja : PyIndex * float),
                z ← Zernike_init_in Zernike_cls ja.1 order';
                Ok (dict_setitem Zernike_eq d z ja.2))); [done|].
  intros d ja Hja. rewrite Forall_forall in Hall'.
  by rewrite (Zernike_init_in_order_irrelevant _ ja.1 order order') by by apply Hall'.
Qed.

Lemma order_only_read_for_integer_keys_witness :
  Forall (λ ja : PyIndex * PyAmp,
            match ja.1 with
            | IInt _ => False
            | IStr s => str_isascii s = true ∧ str_isdigit s = false
            | _ => True
            end) [(ISeq [3; 3], AmpScalar (Fin 0)); (IStr "defocus", AmpScalar (Fin 1))] ∧
  ZernikeWavefront_init
    (AmpDict [(ISeq [3; 3], AmpScalar (Fin 0)); (IStr "defocus", AmpScalar (Fin 1))])
    "ansi" =
  ZernikeWavefront_init
    (AmpDict [(ISeq [3; 3], AmpScalar (Fin 0)); (IStr "defocus", AmpScalar (Fin 1))])
    "no such order".
Proof.
  assert (Forall (λ ja : PyIndex * PyAmp,
            match ja.1 with
            | IInt _ => False
            | IStr s => str_isascii s = true ∧ str_isdigit s = false
            | _ => True
            end) [(ISeq [3; 3], AmpScalar (Fin 0)); (IStr "defocus", AmpScalar (Fin 1))])
    as Hall by (by repeat constructor).
  split; [exact Hall|].
  apply (order_only_read_for_integer_keys _ "ansi" "no such order" Hall).
Defined.

(** ** Construction of the propagator *)

Lemma IZR_mult_zero (n : Z) (d : R) : (IZR n * d)%R = 0%R ↔ n = 0 ∨ d = 0%R.
Proof.
  split.
  - intros [H|H]%Rmult_integral; [left; by apply eq_IZR_R0|by right].
  - intros [H|H]; rewrite H; [apply Rmult_0_l|apply Rmult_0_r].
Qed.

Lemma np_fftfreq_outcome (n : Z) (d : R) :
  np_fftshift <$> np_fftfreq n d =
  if decide (n = 0 ∨ d = 0%R) then Raise ZeroDivisionError
  else if decide (n < 0) then Raise (ValueError "negative dimensions are not allowed")
  else Ok (freq_axis n d).
Proof.
  unfold np_fftfreq.
  destruct (decide (n = 0 ∨ d = 0%R)) as [Hz|Hz].
  - by rewrite decide_True by by apply IZR_mult_zero.
  - rewrite decide_False by by rewrite IZR_mult_zero.
    destruct (decide (n < 0)) as [Hn|Hn].
    + by rewrite bool_decide_eq_true_2.
    + by rewrite bool_decide_eq_false_2.
Qed.

Lemma PsfGenerator3D_init_cases (psf_shape : Z * Z * Z) (units : R * R * R)
    (lam n na : R) (masked sw : bool) :
  PsfGenerator3D_init psf_shape units lam n na masked sw =
  if decide (psf_shape.1.2 = 0 ∨ units.1.2 = 0%R) then Raise ZeroDivisionError
  else if decide (psf_shape.1.2 < 0)
    then Raise (ValueError "negative dimensions are not allowed")
  else if decide (psf_shape.2 = 0 ∨ units.2 = 0%R) then Raise ZeroDivisionError
  else if decide (psf_shape.2 < 0)
    then Raise (ValueError "negative dimensions are not allowed")
  else if decide (lam = 0%R) then Raise ZeroDivisionError
  else Ok (psf_build psf_shape units lam n na masked sw
             (freq_axis psf_shape.1.2 units.1.2) (freq_axis psf_shape.2 units.2)
             (1 * na / lam)).
Proof.
  rewrite PsfGenerator3D_init_eq, !np_fftfreq_outcome.
  destruct (decide (psf_shape.1.2 = 0 ∨ units.1.2 = 0%R)); [done|].
  destruct (decide (psf_shape.1.2 < 0)); [done|]. cbn [mbind result_bind].
  destruct (decide (psf_shape.2 = 0 ∨ units.2 = 0%R)); [done|].
  destruct (decide (psf_shape.2 < 0)); [done|]. cbn [mbind result_bind].
  unfold py_div. by destruct (decide (lam = 0%R)).
Qed.

(** ** The coordinate axes of the stack *)

Lemma freq_axis_lookup (n : Z) (d : R) (i : nat) :
  0 < n → (i < Z.to_nat n)%nat →
  freq_axis n d !! i = Some (Fin (freq_coord n d i)).
Proof.
  intros Hn Hi. unfold freq_axis, np_fftshift, freq_coord.
  set (N := (n - 1) `div` 2 + 1).
  set (L := (λ k, Fin (IZR k * (1 / (IZR n * d)))) <$> (seqZ 0 N ++ seqZ (- (n `div` 2)) (n `div` 2))).
  assert (length L = Z.to_nat n) as Hlen.
  { unfold L, N. rewrite length_fmap, length_app, !length_seqZ. lia. }
  rewrite np_roll_lookup by lia. rewrite Hlen.
  assert (Z.of_nat (Z.to_nat n `div` 2) = n `div` 2) as Hh.
  { rewrite Nat2Z.inj_div. rewrite Z2Nat.id by lia. done. }
  assert (Z.of_nat (Z.to_nat n) = n) as Hl by lia.
  generalize dependent (Z.to_nat n). intros len Hi Hlen Hh Hl.
  generalize dependent (len `div` 2)%nat. intros h Hh.
  assert (h < len)%nat as Hhl by lia.
  rewrite (Nat.mod_small h len) by done.
  unfold L. rewrite list_lookup_fmap.
  destruct (decide (i < h)%nat) as [Hlt|Hge].
  - rewrite Nat.mod_small by lia.
    rewrite lookup_app_r by (rewrite length_seqZ; unfold N; lia).
    rewrite length_seqZ. rewrite lookup_seqZ_lt by (unfold N; lia).
    replace (- n `div` 2 + Z.of_nat (i + (len - h) - Z.to_nat N))
      with (Z.of_nat i - n `div` 2) by (unfold N; lia). done.
  - replace (i + (len - h))%nat with ((i - h) + 1 * len)%nat by lia.
    rewrite Nat.Div0.mod_add, Nat.mod_small by lia.
    rewrite lookup_app_l by (rewrite length_seqZ; unfold N; lia).
    rewrite lookup_seqZ_lt by (unfold N; lia).
    replace (0 + Z.of_nat (i - h)) with (Z.of_nat i - n `div` 2) by lia. done.
Qed.

Lemma z_axis_lookup (nz0 : Z) (dz0 : R) (i : nat) :
  (i < Z.to_nat nz0)%nat →
  z_axis nz0 dz0 !! i = Some (Fin (z_coord nz0 dz0 i)).
Proof.
  intros Hi. unfold z_axis, np_arange, z_coord.
  case_bool_decide as Hpar; rewrite list_lookup_fmap, lookup_seqZ_lt by lia; cbn.
  - rewrite Z.add_0_l, minus_IZR. done.
  - rewrite Z.add_0_l. do 3 f_equal.
    assert (nz0 = 2 * (nz0 `div` 2) + 1) as Heq by lia.
    rewrite Heq at 2. rewrite plus_IZR, mult_IZR. lra.
Qed.

(** X19: in a constructed propagator the coordinate stacks hold
    [z_i = dz (i - (nz - 1) / 2)], [ky_j = (j - ny // 2) / (ny dy)] and
    [kx_k = (k - nx // 2) / (nx dx)]: the planes are symmetric about the focus
    ([z_i + z_(nz - 1 - i) = 0], for even and odd [nz] alike) and the zero
    frequency sits at index [n // 2]. *)
Theorem psf_axes_closed_form (psf_shape : Z * Z * Z) (units : R * R * R)
    (lam n na : R) (masked sw : bool) (g : PsfGenerator3D) (i j k : nat) :
  PsfGenerator3D_init psf_shape units lam n na masked sw = Ok g →
  (i < Z.to_nat (nz g))%nat → (j < Z.to_nat (ny g))%nat → (k < Z.to_nat (nx g))%nat →
  arr3_get (kz3 g) i j k = Some (Fin (z_coord (nz g) (dz g) i)) ∧
  arr3_get (ky3 g) i j k = Some (Fin (freq_coord (ny g) (dy g) j)) ∧
  arr3_get (kx3 g) i j k = Some (Fin (freq_coord (nx g) (dx g) k)) ∧
  (z_coord (nz g) (dz g) i + z_coord (nz g) (dz g) (Z.to_nat (nz g) - 1 - i) = 0)%R ∧
  freq_coord (ny g) (dy g) (Z.to_nat (ny g `div` 2)) = 0%R ∧
  freq_coord (nx g) (dx g) (Z.to_nat (nx g `div` 2)) = 0%R.
Proof.
  rewrite PsfGenerator3D_init_cases.
  repeat (case_decide; [done|]). intros [= <-].
  cbn [nz ny nx dz dy dx kz3 ky3 kx3 psf_build]. intros Hi Hj Hk.
  destruct (arr3_get_meshgrid3 (z_axis psf_shape.1.1 units.1.1)
              (freq_axis psf_shape.1.2 units.1.2) (freq_axis psf_shape.2 units.2) i j k)
    as (-> & -> & ->).
  rewrite z_axis_lookup by done.
  rewrite !freq_axis_lookup by lia.
  split; [done|]. split; [done|]. split; [done|]. split; [|split].
  - unfold z_coord. rewrite Nat2Z.inj_sub, Nat2Z.inj_sub by lia.
    rewrite Z2Nat.id by lia. rewrite !minus_IZR. change (Z.of_nat 1) with 1. lra.
  - unfold freq_coord. rewrite Z2Nat.id by lia. rewrite Z.sub_diag. lra.
  - unfold freq_coord. rewrite Z2Nat.id by lia. rewrite Z.sub_diag. lra.
Qed.

Lemma psf_axes_closed_form_witness :
  ∃ g,
    PsfGenerator3D_init (1, 1, 3) (1%R, 1%R, 1%R) 1 1 (1 / 4) true false = Ok g ∧
    (0 < Z.to_nat (nz g))%nat ∧ (0 < Z.to_nat (ny g))%nat ∧ (2 < Z.to_nat (nx g))%nat ∧
    arr3_get (kz3 g) 0 0 2 = Some (Fin (z_coord (nz g) (dz g) 0)) ∧
    arr3_get (ky3 g) 0 0 2 = Some (Fin (freq_coord (ny g) (dy g) 0)) ∧
    arr3_get (kx3 g) 0 0 2 = Some (Fin (freq_coord (nx g) (dx g) 2)) ∧
    (z_coord (nz g) (dz g) 0 + z_coord (nz g) (dz g) (Z.to_nat (nz g) - 1 - 0) = 0)%R ∧
    freq_coord (ny g) (dy g) (Z.to_nat (ny g `div` 2)) = 0%R ∧
    freq_coord (nx g) (dx g) (Z.to_nat (nx g `div` 2)) = 0%R.
Proof.
  exists psf_ex.
  assert (PsfGenerator3D_init (1, 1, 3) (1%R, 1%R, 1%R) 1 1 (1 / 4) true false = Ok psf_ex)
    as Hinit by (apply PsfGenerator3D_init_ok; cbn; (lia || lra)).
  split; [exact Hinit|]. split; [cbn; lia|]. split; [cbn; lia|]. split; [cbn; lia|].
  apply (psf_axes_closed_form _ _ _ _ _ _ _ _ 0 0 2 Hinit); cbn; lia.
Defined.

(** ** The pupil function *)

Lemma arr2_get_meshgrid2 {A} (y x : list A) (j k : nat) :
  arr2_get (meshgrid2 y x).1 j k = (yj ← y !! j; _ ← x !! k; Some yj) ∧
  arr2_get (meshgrid2 y x).2 j k = (_ ← y !! j; x !! k).
Proof.
  unfold meshgrid2, arr2_get. cbn [fst snd]. rewrite !list_lookup_fmap.
  destruct (y !! j) as [yj|]; [|done]. cbn.
  rewrite !list_lookup_fmap. by destruct (x !! k).
Qed.

Lemma defocus_term_modulus (n lam z ky kx : R) :
  ∃ re im, defocus_term n lam z ky kx = Cx re im ∧ (re * re + im * im = 1)%R.
Proof.
  unfold defocus_term. rewrite cexp_imag. eexists _, _. split; [done|].
  rewrite Rplus_comm. apply sin2_cos2.
Qed.

Lemma cmul_of_bool (b : bool) (re im : R) :
  cmul (of_float (of_bool b)) (Cx re im) = if b then Cx re im else Cx 0 0.
Proof. destruct b; cbn; f_equal; lra. Qed.

Lemma psf_stack_entries (psf_shape : Z * Z * Z) (units : R * R * R)
    (lam n na : R) (masked sw : bool) (g : PsfGenerator3D) (i j k : nat) :
  PsfGenerator3D_init psf_shape units lam n na masked sw = Ok g →
  (i < Z.to_nat (nz g))%nat → (j < Z.to_nat (ny g))%nat → (k < Z.to_nat (nx g))%nat →
  ∃ re im,
    arr3_get (k_prop g) i j k = Some (Cx re im) ∧
    ((re * re + im * im = 1)%R ∨ re = 0%R ∧ im = 0%R) ∧
    arr3_get (k_mask3 g) i j k =
      Some (bool_decide
              (sqrt (freq_coord (ny g) (dy g) j ^ 2 + freq_coord (nx g) (dx g) k ^ 2)
               < k_cut g)%R) ∧
    arr3_get (k_base g) i j k =
      Some (if p_masked g
            then (if bool_decide
                       (sqrt (freq_coord (ny g) (dy g) j ^ 2 +
                              freq_coord (nx g) (dx g) k ^ 2) < k_cut g)%R
                  then Cx re im else Cx 0 0)
            else Cx re im).
Proof.
  rewrite PsfGenerator3D_init_cases.
  repeat (case_decide; [done|]). intros [= <-].
  cbn [nz ny nx dz dy dx k_prop k_base k_mask3 k_cut p_masked psf_build]. intros Hi Hj Hk.
  set (z := z_axis _ _). set (ky := freq_axis psf_shape.1.2 _).
  set (kx := freq_axis psf_shape.2 _).
  destruct (arr3_get_meshgrid3 z ky kx i j k) as (Hz & Hy & Hx).
  unfold z, ky, kx in Hz, Hy, Hx.
  rewrite z_axis_lookup in Hz, Hy, Hx by done.
  rewrite !freq_axis_lookup in Hz, Hy, Hx by lia.
  cbn [mbind option_bind] in Hz, Hy, Hx. fold z ky kx in Hz, Hy, Hx.
  set (zr := z_coord _ _ _) in *. set (kyr := freq_coord psf_shape.1.2 _ _) in *.
  set (kxr := freq_coord psf_shape.2 _ _) in *.
  assert (arr3_get
            (arr3_set_where
               (arr3_zip (k_prop_pt lam) (meshgrid3 z ky kx).1.1
                  (arr3_map (h_pt n lam)
                     (arr3_zip kr_pt (meshgrid3 z ky kx).1.2 (meshgrid3 z ky kx).2)))
               (arr3_map fisnan
                  (arr3_map (h_pt n lam)
                     (arr3_zip kr_pt (meshgrid3 z ky kx).1.2 (meshgrid3 z ky kx).2)))
               (Cx 0 0)) i j k =
          Some (if decide (radicand n lam kyr kxr < 0)%R then Cx 0 0
                else defocus_term n lam zr kyr kxr)) as Hprop.
  { rewrite arr3_get_set_where, arr3_get_zip, !arr3_get_map, arr3_get_zip.
    rewrite Hz, Hy, Hx. cbn [mbind option_bind fmap option_fmap option_map].
    by rewrite defocus_entry_pt by done. }
  assert (∃ re im,
            (if decide (radicand n lam kyr kxr < 0)%R then Cx 0 0
             else defocus_term n lam zr kyr kxr) = Cx re im ∧
            ((re * re + im * im = 1)%R ∨ re = 0%R ∧ im = 0%R)) as (re & im & Heq & Hmod).
  { case_decide.
    - exists 0%R, 0%R. split; [done|]. by right.
    - destruct (defocus_term_modulus n lam zr kyr kxr) as (re & im & -> & Hm).
      exists re, im. split; [done|]. by left. }
  rewrite Heq in Hprop. exists re, im. split; [done|]. split; [done|].
  assert (arr3_get
            (arr3_map (λ r : float, flt r (Fin (1 * na / lam)))
               (arr3_zip kr_pt (meshgrid3 z ky kx).1.2 (meshgrid3 z ky kx).2)) i j k =
          Some (bool_decide (sqrt (kyr ^ 2 + kxr ^ 2) < 1 * na / lam)%R)) as Hmask.
  { rewrite arr3_get_map, arr3_get_zip, Hy, Hx.
    cbn [mbind option_bind fmap option_fmap option_map]. by rewrite kr_pt_Fin. }
  split; [done|].
  destruct masked; [|done].
  rewrite arr3_get_zip, Hmask, Hprop. cbn [mbind option_bind].
  by rewrite cmul_of_bool.
Qed.

(** X20: in a constructed propagator every entry of the defocus stack [k_prop]
    is a complex number of modulus [1] or is [0]; the 3D pupil mask is true
    exactly where the lateral frequency is below the cutoff; and [k_base] is
    [k_prop] where the mask is true and [0] elsewhere when the propagator is
    masked, and [k_prop] itself when it is not. *)
Theorem k_base_entries (psf_shape : Z * Z * Z) (units : R * R * R)
    (lam n na : R) (masked sw : bool) (g : PsfGenerator3D) (i j k : nat) :
  PsfGenerator3D_init psf_shape units lam n na masked sw = Ok g →
  (i < Z.to_nat (nz g))%nat → (j < Z.to_nat (ny g))%nat → (k < Z.to_nat (nx g))%nat →
  ∃ re im,
    arr3_get (k_prop g) i j k = Some (Cx re im) ∧
    ((re * re + im * im = 1)%R ∨ re = 0%R ∧ im = 0%R) ∧
    arr3_get (k_mask3 g) i j k =
      Some (bool_decide
              (sqrt (freq_coord (ny g) (dy g) j ^ 2 + freq_coord (nx g) (dx g) k ^ 2)
               < k_cut g)%R) ∧
    arr3_get (k_base g) i j k =
      Some (if p_masked g
            then (if bool_decide
                       (sqrt (freq_coord (ny g) (dy g) j ^ 2 +
                              freq_coord (nx g) (dx g) k ^ 2) < k_cut g)%R
                  then Cx re im else Cx 0 0)
            else Cx re im).
Proof. apply psf_stack_entries. Qed.

Lemma k_base_entries_witness :
  ∃ g,
    PsfGenerator3D_init (1, 1, 3) (1%R, 1%R, 1%R) 1 1 (1 / 4) true false = Ok g ∧
    (0 < Z.to_nat (nz g))%nat ∧ (0 < Z.to_nat (ny g))%nat ∧ (2 < Z.to_nat (nx g))%nat ∧
    ∃ re im,
      arr3_get (k_prop g) 0 0 2 = Some (Cx re im) ∧
      ((re * re + im * im = 1)%R ∨ re = 0%R ∧ im = 0%R) ∧
      arr3_get (k_mask3 g) 0 0 2 =
        Some (bool_decide
                (sqrt (freq_coord (ny g) (dy g) 0 ^ 2 + freq_coord (nx g) (dx g) 2 ^ 2)
                 < k_cut g)%R) ∧
      arr3_get (k_base g) 0 0 2 =
        Some (if p_masked g
              then (if bool_decide
                         (sqrt (freq_coord (ny g) (dy g) 0 ^ 2 +
                                freq_coord (nx g) (dx g) 2 ^ 2) < k_cut g)%R
                    then Cx re im else Cx 0 0)
              else Cx re im).
Proof.
  exists psf_ex.
  assert (PsfGenerator3D_init (1, 1, 3) (1%R, 1%R, 1%R) 1 1 (1 / 4) true false = Ok psf_ex)
    as Hinit by (apply PsfGenerator3D_init_ok; cbn; (lia || lra)).
  split; [exact Hinit|]. split; [cbn; lia|]. split; [cbn; lia|]. split; [cbn; lia|].
  apply (k_base_entries _ _ _ _ _ _ _ _ 0 0 2 Hinit); cbn; lia.
Defined.

(** X21: in a constructed propagator, at lateral index [(j, k)] with radial
    frequency [kr]: the 2D pupil mask is [kr < k_cut], [k_phi] is
    [arctan2(ky, kx)], and [k_rho] is [kr / k_cut] with the switch on and [kr]
    with it off; with the switch on and a positive cutoff the pupil is the open
    unit disk of [k_rho]. *)
Theorem pupil_coordinates (psf_shape : Z * Z * Z) (units : R * R * R)
    (lam n na : R) (masked sw : bool) (g : PsfGenerator3D) (j k : nat) :
  PsfGenerator3D_init psf_shape units lam n na masked sw = Ok g →
  (j < Z.to_nat (ny g))%nat → (k < Z.to_nat (nx g))%nat →
  ∃ kr,
    kr = sqrt (freq_coord (ny g) (dy g) j * freq_coord (ny g) (dy g) j +
               freq_coord (nx g) (dx g) k * freq_coord (nx g) (dx g) k) ∧
    arr2_get (k_mask2 g) j k = Some (bool_decide (kr < k_cut g)%R) ∧
    arr2_get (k_phi g) j k =
      Some (Fin (arctan2 (freq_coord (ny g) (dy g) j) (freq_coord (nx g) (dx g) k))) ∧
    arr2_get (k_rho g) j k =
      Some (if switch g then fdiv (Fin kr) (Fin (k_cut g)) else Fin kr) ∧
    (switch g = true → (0 < k_cut g)%R →
     arr2_get (k_rho g) j k = Some (Fin (kr / k_cut g)) ∧
     bool_decide (kr < k_cut g)%R = bool_decide (kr / k_cut g < 1)%R).
Proof.
  rewrite PsfGenerator3D_init_cases.
  repeat (case_decide; [done|]). intros [= <-].
  cbn [ny nx dy dx k_mask2 k_phi k_rho k_cut switch psf_build]. intros Hj Hk.
  set (ky := freq_axis psf_shape.1.2 _). set (kx := freq_axis psf_shape.2 _).
  destruct (arr2_get_meshgrid2 ky kx j k) as (Hy & Hx).
  unfold ky, kx in Hy, Hx. rewrite !freq_axis_lookup in Hy, Hx by lia.
  cbn [mbind option_bind] in Hy, Hx. fold ky kx in Hy, Hx.
  set (kyr := freq_coord psf_shape.1.2 _ _) in *.
  set (kxr := freq_coord psf_shape.2 _ _) in *.
  assert (arr2_get (arr2_zip np_hypot (meshgrid2 ky kx).1 (meshgrid2 ky kx).2) j k =
          Some (Fin (sqrt (kyr * kyr + kxr * kxr)))) as Hr.
  { rewrite arr2_get_zip, Hy, Hx. cbn [mbind option_bind]. by rewrite np_hypot_Fin. }
  eexists. split; [done|]. split; [|split; [|split]].
  - by rewrite arr2_get_map, Hr.
  - by rewrite arr2_get_zip, Hy, Hx.
  - destruct sw; [|done]. by rewrite arr2_get_map, Hr.
  - intros -> Hc. split.
    + rewrite arr2_get_map, Hr. cbn. by rewrite decide_False by lra.
    + apply bool_decide_ext.
      set (c := (1 * na / lam)%R) in *. set (r := sqrt _).
      assert (r = (r / c) * c)%R as Hq by (field; lra).
      set (q := (r / c)%R) in *. split; intros Hlt; nra.
Qed.

Lemma pupil_coordinates_witness :
  ∃ g,
    PsfGenerator3D_init (1, 1, 3) (1%R, 1%R, 1%R) 1 1 (1 / 4) true false = Ok g ∧
    (0 < Z.to_nat (ny g))%nat ∧ (2 < Z.to_nat (nx g))%nat ∧
    ∃ kr,
      kr = sqrt (freq_coord (ny g) (dy g) 0 * freq_coord (ny g) (dy g) 0 +
                 freq_coord (nx g) (dx g) 2 * freq_coord (nx g) (dx g) 2) ∧
      arr2_get (k_mask2 g) 0 2 = Some (bool_decide (kr < k_cut g)%R) ∧
      arr2_get (k_phi g) 0 2 =
        Some (Fin (arctan2 (freq_coord (ny g) (dy g) 0) (freq_coord (nx g) (dx g) 2))) ∧
      arr2_get (k_rho g) 0 2 =
        Some (if switch g then fdiv (Fin kr) (Fin (k_cut g)) else Fin kr) ∧
      (switch g = true → (0 < k_cut g)%R →
       arr2_get (k_rho g) 0 2 = Some (Fin (kr / k_cut g)) ∧
       bool_decide (kr < k_cut g)%R = bool_decide (kr / k_cut g < 1)%R).
Proof.
  exists psf_ex.
  assert (PsfGenerator3D_init (1, 1, 3) (1%R, 1%R, 1%R) 1 1 (1 / 4) true false = Ok psf_ex)
    as Hinit by (apply PsfGenerator3D_init_ok; cbn; (lia || lra)).
  split; [exact Hinit|]. split; [cbn; lia|]. split; [cbn; lia|].
  apply (pupil_coordinates _ _ _ _ _ _ _ _ 0 2 Hinit); cbn; lia.
Defined.

(** ** The defocus transfer stack *)

Lemma freq_axis_length (n : Z) (d : R) : 0 ≤ n → length (freq_axis n d) = Z.to_nat n.
Proof.
  intros Hn. unfold freq_axis, np_fftshift.
  rewrite np_roll_length, length_fmap, length_app, !length_seqZ. lia.
Qed.

Lemma k_prop_shape (psf_shape : Z * Z * Z) (units : R * R * R)
    (lam n na : R) (masked sw : bool) (ky kx : list float) (kc : R) :
  is_arr3 (Z.to_nat psf_shape.1.1) (length ky) (length kx)
    (k_prop (psf_build psf_shape units lam n na masked sw ky kx kc)).
Proof.
  cbn [psf_build k_prop].
  destruct (z_axis_ok psf_shape.1.1 units.1.1) as [<- _].
  destruct (is_arr3_meshgrid3 (z_axis psf_shape.1.1 units.1.1) ky kx)
    as (Hz3 & Hy3 & Hx3).
  unfold arr3_set_where.
  repeat first [apply is_arr3_zip | apply is_arr3_map | done].
Qed.

(** C7: a constructed propagator has the requested extents, and its defocus
    transfer stack has exactly that shape; at every stack position
    [(iz, iy, ix)] within it the coordinate stacks hold the numbers
    [z = dz (iz - (nz - 1) / 2)], [ky = (iy - ny // 2) / (ny dy)] and
    [kx = (ix - nx // 2) / (nx dx)], and the defocus transfer stack holds [0]
    when the radicand [n^2 - (kx^2 + ky^2) lam^2] is negative and
    [exp(-2 pi i * z/lam * sqrt(radicand))] otherwise; the entry is not
    NaN. *)
Theorem defocus_stack_entries (psf_shape : Z * Z * Z) (units : R * R * R)
    (lam n na : R) (masked sw : bool) (g : PsfGenerator3D) (iz iy ix : nat) :
  PsfGenerator3D_init psf_shape units lam n na masked sw = Ok g →
  (iz < Z.to_nat psf_shape.1.1)%nat → (iy < Z.to_nat psf_shape.1.2)%nat →
  (ix < Z.to_nat psf_shape.2)%nat →
  (nz g, ny g, nx g) = psf_shape ∧
  is_arr3 (Z.to_nat (nz g)) (Z.to_nat (ny g)) (Z.to_nat (nx g)) (k_prop g) ∧
  ∃ z ky kx e,
    z = z_coord psf_shape.1.1 units.1.1 iz ∧
    ky = freq_coord psf_shape.1.2 units.1.2 iy ∧
    kx = freq_coord psf_shape.2 units.2 ix ∧
    arr3_get (kz3 g) iz iy ix = Some (Fin z) ∧
    arr3_get (ky3 g) iz iy ix = Some (Fin ky) ∧
    arr3_get (kx3 g) iz iy ix = Some (Fin kx) ∧
    arr3_get (k_prop g) iz iy ix = Some e ∧
    e = (if decide (radicand n lam ky kx < 0)%R then Cx 0 0
         else defocus_term n lam z ky kx) ∧
    cisnan e = false.
Proof.
  rewrite PsfGenerator3D_init_cases.
  repeat (case_decide; [done|]). intros [= <-] Hi Hj Hk.
  assert (0 < psf_shape.1.2 ∧ 0 < psf_shape.2) as [Hny Hnx] by lia.
  split; [by destruct psf_shape as [[? ?] ?]|].
  split.
  { cbn [nz ny nx psf_build].
    pose proof (k_prop_shape psf_shape units lam n na masked sw
                  (freq_axis psf_shape.1.2 units.1.2) (freq_axis psf_shape.2 units.2)
                  (1 * na / lam)) as Hs.
    rewrite !freq_axis_length in Hs by lia. exact Hs. }
  cbn [kz3 ky3 kx3 k_prop psf_build].
  set (za := z_axis _ _). set (kya := freq_axis psf_shape.1.2 _).
  set (kxa := freq_axis psf_shape.2 _).
  destruct (arr3_get_meshgrid3 za kya kxa iz iy ix) as (Hz & Hy & Hx).
  unfold za, kya, kxa in Hz, Hy, Hx.
  rewrite z_axis_lookup in Hz, Hy, Hx by done.
  rewrite !freq_axis_lookup in Hz, Hy, Hx by lia.
  cbn [mbind option_bind] in Hz, Hy, Hx. fold za kya kxa in Hz, Hy, Hx.
  eexists _, _, _, _. split; [done|]. split; [done|]. split; [done|].
  split; [done|]. split; [done|]. split; [done|].
  rewrite arr3_get_set_where, arr3_get_zip, !arr3_get_map, arr3_get_zip.
  rewrite Hz, Hy, Hx. cbn [mbind option_bind fmap option_fmap option_map].
  rewrite defocus_entry_pt by done.
  split; [done|]. split; [done|]. by case_decide.
Qed.

Lemma defocus_stack_entries_witness :
  ∃ g,
    PsfGenerator3D_init (1, 1, 4) (1%R, 1%R, (1 / 4)%R) 1 1 1 true true = Ok g ∧
    (0 < Z.to_nat 1)%nat ∧ (0 < Z.to_nat 1)%nat ∧ (2 < Z.to_nat 4)%nat ∧
    arr3_get (kx3 g) 0 0 0 = Some (Fin (-2)) ∧
    arr3_get (k_prop g) 0 0 0 = Some (Cx 0 0) ∧
    arr3_get (kx3 g) 0 0 2 = Some (Fin 0) ∧
    arr3_get (k_prop g) 0 0 2 = Some (defocus_term 1 1 0 0 0).
Proof.
  assert (PsfGenerator3D_init (1, 1, 4) (1%R, 1%R, (1 / 4)%R) 1 1 1 true true =
          Ok (psf_build (1, 1, 4) (1%R, 1%R, (1 / 4)%R) 1 1 1 true true
                (freq_axis 1 1) (freq_axis 4 (1 / 4)) (1 * 1 / 1))) as Hg.
  { apply PsfGenerator3D_init_ok; cbn; (lia || lra). }
  assert (z_coord 1 1 0 = 0%R) as Ez by (unfold z_coord; change (Z.of_nat 0) with 0; lra).
  assert (freq_coord 1 1 0 = 0%R) as Ey.
  { unfold freq_coord. change (Z.of_nat 0 - 1 `div` 2) with 0. lra. }
  assert (freq_coord 4 (1 / 4) 0 = (-2)%R) as Ex0.
  { unfold freq_coord. change (Z.of_nat 0 - 4 `div` 2) with (-2). lra. }
  assert (freq_coord 4 (1 / 4) 2 = 0%R) as Ex2.
  { unfold freq_coord. change (Z.of_nat 2 - 4 `div` 2) with 0. lra. }
  eexists. split; [exact Hg|].
  split; [cbn; lia|]. split; [cbn; lia|]. split; [cbn; lia|].
  destruct (defocus_stack_entries _ _ _ _ _ _ _ _ 0 0 0 Hg
              ltac:(cbn; lia) ltac:(cbn; lia) ltac:(cbn; lia))
    as (_ & _ & z & ky & kx & e & -> & -> & -> & _ & _ & Hx & He & -> & _).
  destruct (defocus_stack_entries _ _ _ _ _ _ _ _ 0 0 2 Hg
              ltac:(cbn; lia) ltac:(cbn; lia) ltac:(cbn; lia))
    as (_ & _ & z' & ky' & kx' & e' & -> & -> & -> & _ & _ & Hx' & He' & -> & _).
  cbn [fst snd] in *. rewrite Ez, Ey in *. rewrite Ex0 in Hx, He. rewrite Ex2 in Hx', He'.
  rewrite decide_True in He by (unfold radicand; lra).
  rewrite decide_False in He' by (unfold radicand; lra).
  done.
Defined.

(** ** Intensities *)

Lemma is_arr3_fftshift {A} (d r c : nat) (x : list (list (list A))) :
  is_arr3 d r c x → is_arr3 d r c (np_fftshift_12 x).
Proof.
  intros [Hd Hs]. unfold np_fftshift_12. destruct (shape_12 x) as [d1 d2].
  split; [by rewrite length_fmap|]. rewrite Forall_fmap.
  eapply Forall_impl; [exact Hs|]. intros s [Hr Hrows]. cbn. split.
  - by rewrite np_roll_length, length_fmap.
  - apply np_roll_Forall. rewrite Forall_fmap.
    eapply Forall_impl; [exact Hrows|]. intros row Hrow. cbn.
    by rewrite np_roll_length.
Qed.

Lemma arr3_get_in_range {A} (d r c : nat) (a : list (list (list A))) (i j k : nat) :
  is_arr3 d r c a → (i < d)%nat → (j < r)%nat → (k < c)%nat →
  ∃ x, arr3_get a i j k = Some x.
Proof.
  intros [<- Hs] Hi Hj Hk. unfold arr3_get, arr2_get.
  destruct (lookup_lt_is_Some_2 a i Hi) as [s Hsi]. rewrite Hsi. cbn.
  rewrite Forall_lookup in Hs. destruct (Hs i s Hsi) as [<- Hrows].
  destruct (lookup_lt_is_Some_2 s j Hj) as [row Hrow]. rewrite Hrow. cbn.
  rewrite Forall_lookup in Hrows. rewrite <- (Hrows j row Hrow) in Hk.
  by apply lookup_lt_is_Some_2.
Qed.

Lemma cabs2_nonneg (c : complex) (x : R) : fpow (cabs c) 2 = Fin x → (0 <= x)%R.
Proof.
  destruct c as [|re im]; [done|]. unfold cabs, fpow. rewrite bool_decide_eq_true_2 by lia.
  intros [= <-]. pose proof (sqrt_pos (re * re + im * im)). nra.
Qed.

(** X22: for a constructed propagator and a constructed mode or wavefront,
    [incoherent_psf_abs] returns a stack of the propagator's shape none of
    whose entries is a negative number. *)
Theorem incoherent_psf_abs_intensities (psf_shape : Z * Z * Z) (units : R * R * R)
    (lam n na : R) (masked_c sw : bool) (g : PsfGenerator3D) (phi : Phi)
    (normed masked : bool) :
  PsfGenerator3D_init psf_shape units lam n na masked_c sw = Ok g →
  phi_constructed phi →
  ∃ out,
    incoherent_psf_abs g phi normed masked = Ok out ∧
    is_arr3 (Z.to_nat (nz g)) (Z.to_nat (ny g)) (Z.to_nat (nx g)) out ∧
    ∀ i j k : nat,
      (i < Z.to_nat (nz g))%nat → (j < Z.to_nat (ny g))%nat → (k < Z.to_nat (nx g))%nat →
      ∃ v, arr3_get out i j k = Some v ∧ ∀ x, v = Fin x → (0 <= x)%R.
Proof.
  intros Hinit Hphi.
  destruct (coherent_psf_ok _ _ _ _ _ _ _ g phi normed masked Hinit Hphi)
    as (psf & Hpsf & Hshape).
  unfold incoherent_psf_abs. rewrite Hpsf. cbn [fmap result_fmap mbind result_bind].
  eexists. split; [done|].
  assert (is_arr3 (Z.to_nat (nz g)) (Z.to_nat (ny g)) (Z.to_nat (nx g))
            (my_ifftshift (arr3_map (λ c : complex, fpow (cabs c) 2) psf))) as Hout.
  { by apply is_arr3_fftshift, is_arr3_map. }
  split; [done|]. intros i j k Hi Hj Hk.
  destruct (arr3_get_in_range _ _ _ _ i j k Hout Hi Hj Hk) as [v Hv].
  exists v. split; [done|]. intros x ->.
  unfold my_ifftshift in Hv. rewrite np_fftshift_12_map, arr3_get_map in Hv.
  destruct (arr3_get (np_fftshift_12 psf) i j k) as [c|]; [|done].
  injection Hv as Hv. by eapply cabs2_nonneg.
Qed.

Lemma incoherent_psf_abs_intensities_witness :
  PsfGenerator3D_init (1, 1, 3) (1%R, 1%R, 1%R) 1 1 (1 / 4) true false = Ok psf_ex ∧
  phi_constructed (PhiZernike (mk_zernike 0 0)) ∧
  ∃ out,
    incoherent_psf_abs psf_ex (PhiZernike (mk_zernike 0 0)) true true = Ok out ∧
    is_arr3 (Z.to_nat (nz psf_ex)) (Z.to_nat (ny psf_ex)) (Z.to_nat (nx psf_ex)) out ∧
    ∀ i j k : nat,
      (i < Z.to_nat (nz psf_ex))%nat → (j < Z.to_nat (ny psf_ex))%nat →
      (k < Z.to_nat (nx psf_ex))%nat →
      ∃ v, arr3_get out i j k = Some v ∧ ∀ x, v = Fin x → (0 <= x)%R.
Proof.
  assert (PsfGenerator3D_init (1, 1, 3) (1%R, 1%R, 1%R) 1 1 (1 / 4) true false = Ok psf_ex)
    as Hinit by (apply PsfGenerator3D_init_ok; cbn; (lia || lra)).
  assert (phi_constructed (PhiZernike (mk_zernike 0 0))) as Hphi.
  { exists (ISeq [0; 0]), "noll"%string. apply Zernike_init_pair, valid_nm_0_0. }
  split; [exact Hinit|]. split; [exact Hphi|].
  exact (incoherent_psf_abs_intensities _ _ _ _ _ _ _ _ _ true true Hinit Hphi).
Defined.

(** ** Weighted sums of modes on arrays of one shape *)

Lemma arr2_get_in_range {A} (r c : nat) (a : list (list A)) (i j : nat) :
  is_arr2 r c a → (i < r)%nat → (j < c)%nat → ∃ x, arr2_get a i j = Some x.
Proof.
  intros [<- Hrows] Hi Hj. unfold arr2_get.
  destruct (lookup_lt_is_Some_2 a i Hi) as [row Hrow]. rewrite Hrow. cbn.
  rewrite Forall_lookup in Hrows. rewrite <- (Hrows i row Hrow) in Hj.
  by apply lookup_lt_is_Some_2.
Qed.

Lemma rho_theta_shape (s : Z) (rho theta : list (list float)) :
  rho_theta s = Ok (rho, theta) →
  is_arr2 (Z.to_nat s) (Z.to_nat s) rho ∧ is_arr2 (Z.to_nat s) (Z.to_nat s) theta ∧
  Forall2 (λ r t, length r = length t) rho theta ∧
  arr2_finite rho ∧ arr2_finite theta.
Proof.
  intros Hrt.
  assert (0 ≤ s) as Hs.
  { unfold rho_theta, np_linspace in Hrt. case_bool_decide; [done|lia]. }
  destruct (rho_theta_ok s Hs) as (rho' & theta' & Hrt' & Hsh & Hr & Ht).
  rewrite Hrt in Hrt'. injection Hrt' as <- <-.
  split; [|split]; [..|done].
  - destruct (np_linspace_Fin (-1) 1 s Hs) as (l & Hl & Hlen).
    unfold rho_theta in Hrt. rewrite Hl in Hrt. cbn [mbind result_bind] in Hrt.
    pose proof (is_arr2_meshgrid2_zip np_hypot (Fin <$> l) (Fin <$> l)) as H.
    destruct (meshgrid2 (Fin <$> l) (Fin <$> l)) as [y x]. cbn [fst snd] in H.
    injection Hrt as <- _. by rewrite length_fmap, Hlen in H.
  - destruct (np_linspace_Fin (-1) 1 s Hs) as (l & Hl & Hlen).
    unfold rho_theta in Hrt. rewrite Hl in Hrt. cbn [mbind result_bind] in Hrt.
    pose proof (is_arr2_meshgrid2_zip np_arctan2 (Fin <$> l) (Fin <$> l)) as H.
    destruct (meshgrid2 (Fin <$> l) (Fin <$> l)) as [y x]. cbn [fst snd] in H.
    injection Hrt as _ <-. by rewrite length_fmap, Hlen in H.
Qed.

Lemma weighted_sum_shape (per_mode : Zernike → result (list (list float)))
    (r c : nat) (zs : list (Zernike * float)) :
  zs ≠ [] →
  (∀ za, za ∈ zs → ∃ p, per_mode za.1 = Ok p ∧ is_arr2 r c p) →
  ∃ out,
    (terms ← mapM (λ za : Zernike * float,
               p ← per_mode za.1; Ok (arr2_map (fmul za.2) p)) zs;
     Ok (np_sum_axis0 terms)) = Ok out ∧
    is_arr2 r c out.
Proof.
  intros Hne Hmodes.
  destruct (mapM_result_Forall2 (λ _ term, is_arr2 r c term)
              (λ za : Zernike * float,
                 p ← per_mode za.1; Ok (arr2_map (fmul za.2) p)) zs)
    as (terms & Hterms & HQ).
  { intros za Hza. destruct (Hmodes za Hza) as (p & Hp & Hshape).
    eexists. rewrite Hp. split; [done|]. by apply is_arr2_map. }
  rewrite Hterms. cbn [mbind result_bind]. eexists. split; [done|].
  apply is_arr2_sum; [|by eapply Forall2_const_r].
  intros ->. apply Forall2_nil_inv_r in HQ. done.
Qed.

Lemma Zernike_phase_shape (n m : Z) (normed : bool) (outside : option float)
    (r c : nat) (rho theta p : list (list float)) :
  is_arr2 r c rho → is_arr2 r c theta →
  Zernike_phase (mk_zernike n m) rho theta normed outside = Ok p → is_arr2 r c p.
Proof.
  intros Hrho Htheta. unfold Zernike_phase, nm_polynomial. cbn [z_n z_m mk_zernike].
  destruct (bool_decide (Z.abs m > n)); [done|]. cbn [mbind result_bind].
  destruct outside as [v|].
  - destruct (bool_decide (Z.abs 0 > 0)); [done|]. cbn [mbind result_bind].
    intros [= <-]. unfold arr2_set_where.
    apply is_arr2_zip; [by apply is_arr2_zip|]. by apply is_arr2_map, is_arr2_zip.
  - intros [= <-]. by apply is_arr2_zip.
Qed.

(** C3: for a constructed wavefront (which has at least one mode) and a grid
    size [s > 0], the grid, the mask and the result of [polynomial] are [s]
    by [s] arrays; at every grid point each mode's own [polynomial] already
    holds the substitute where the mask is set (where the radius is above
    one) and its value elsewhere, and the wavefront's entry is the sum over the
    modes of the amplitude times that per-mode entry.  On coordinate arrays of
    one shape [phase] has that shape and sums the amplitude times the per-mode
    [phase] entry in the same way. *)
Theorem wavefront_substitutes_outside_per_mode (amplitudes : PyAmplitudes)
    (order : string) (w : ZernikeWavefront) (s : Z) (normed : bool)
    (outside : float) :
  ZernikeWavefront_init amplitudes order = Ok w → 0 < s →
  zernikes w ≠ [] ∧
  ∃ rho theta mask,
    rho_theta s = Ok (rho, theta) ∧ outside_mask s = Ok mask ∧
    is_arr2 (Z.to_nat s) (Z.to_nat s) rho ∧
    is_arr2 (Z.to_nat s) (Z.to_nat s) theta ∧
    is_arr2 (Z.to_nat s) (Z.to_nat s) mask ∧
    (∃ out,
       ZernikeWavefront_polynomial w s normed outside = Ok out ∧
       is_arr2 (Z.to_nat s) (Z.to_nat s) out ∧
       ∀ i j : nat, (i < Z.to_nat s)%nat → (j < Z.to_nat s)%nat →
         ∃ r t (b : bool),
           arr2_get rho i j = Some r ∧ arr2_get theta i j = Some t ∧
           arr2_get mask i j = Some b ∧ b = flt (Fin 1) r ∧
           Forall (λ za : Zernike * float,
                     ∃ p, Zernike_polynomial za.1 s normed outside = Ok p ∧
                          is_arr2 (Z.to_nat s) (Z.to_nat s) p ∧
                          arr2_get p i j =
                          Some (if b then outside
                                else nm_polynomial_pt (z_n za.1) (z_m za.1) normed r t))
                  (zernikes w) ∧
           arr2_get out i j =
           Some (sum_list ((λ za : Zernike * float,
                   fmul za.2 (if b then outside
                              else nm_polynomial_pt (z_n za.1) (z_m za.1) normed r t))
                 <$> zernikes w))) ∧
    (∀ (rows cols : nat) (prho ptheta : list (list float)) (poutside : option float),
       is_arr2 rows cols prho → is_arr2 rows cols ptheta →
       ∃ out,
         ZernikeWavefront_phase w prho ptheta normed poutside = Ok out ∧
         is_arr2 rows cols out ∧
         ∀ i j : nat, (i < rows)%nat → (j < cols)%nat →
           ∃ r t,
             arr2_get prho i j = Some r ∧ arr2_get ptheta i j = Some t ∧
             Forall (λ za : Zernike * float,
                       ∃ p, Zernike_phase za.1 prho ptheta normed poutside = Ok p ∧
                            is_arr2 rows cols p ∧
                            arr2_get p i j =
                            Some (phase_pt (z_n za.1) (z_m za.1) normed poutside r t))
                    (zernikes w) ∧
             arr2_get out i j =
             Some (sum_list ((λ za : Zernike * float,
                     fmul za.2 (phase_pt (z_n za.1) (z_m za.1) normed poutside r t))
                   <$> zernikes w))).
Proof.
  intros Hw Hs.
  destruct (wavefront_entries_per_mode _ _ _ s normed outside Hw Hs)
    as (Hne & rho & theta & mask & Hrt & Hmask & (out & Hout & Hget) & Hphase).
  apply ZernikeWavefront_init_inv in Hw as ([Hall Hnd] & _ & _).
  rewrite Forall_forall in Hall.
  destruct (rho_theta_shape s rho theta Hrt) as (Hrho & Htheta & Hsh & Hfr & Hft).
  pose proof (outside_mask_ok s rho theta Hrt Hsh Hfr Hft) as Hmask'.
  rewrite Hmask in Hmask'. injection Hmask' as ->.
  assert (is_arr2 (Z.to_nat s) (Z.to_nat s) (arr2_map (λ r, flt (Fin 1) r) rho))
    as Hmsh by by apply is_arr2_map.
  assert (∀ za, za ∈ zernikes w →
            ∃ p, Zernike_polynomial za.1 s normed outside = Ok p ∧
                 is_arr2 (Z.to_nat s) (Z.to_nat s) p) as Hpsh.
  { intros [z a] Hza. destruct (Hall _ Hza) as (n & m & Hv & Hz).
    cbn in Hz. subst z. cbn [fst].
    rewrite (Zernike_polynomial_valid n m s normed outside rho theta _ Hv Hs Hrt Hmask).
    eexists. split; [done|]. unfold arr2_set_where.
    apply is_arr2_zip; [by apply is_arr2_zip|done]. }
  split; [done|]. exists rho, theta, (arr2_map (λ r, flt (Fin 1) r) rho).
  split; [done|]. split; [done|]. split; [done|]. split; [done|]. split; [done|].
  split.
  - exists out. split; [done|]. split.
    { destruct (weighted_sum_shape (λ z, Zernike_polynomial z s normed outside)
                  (Z.to_nat s) (Z.to_nat s) (zernikes w) Hne Hpsh) as (out' & Hout' & Hosh).
      unfold ZernikeWavefront_polynomial in Hout. rewrite Hout in Hout'.
      by injection Hout' as <-. }
    intros i j Hi Hj.
    destruct (arr2_get_in_range _ _ rho i j Hrho Hi Hj) as [r Hr].
    destruct (arr2_get_in_range _ _ theta i j Htheta Hi Hj) as [t Ht].
    assert (arr2_get (arr2_map (λ r, flt (Fin 1) r) rho) i j = Some (flt (Fin 1) r))
      as Hb by by rewrite arr2_get_map, Hr.
    exists r, t, (flt (Fin 1) r). split; [done|]. split; [done|]. split; [done|].
    split; [done|].
    destruct (Hget i j r t _ Hr Ht Hb) as [Hmodes Hsum]. split; [|done].
    rewrite Forall_forall in Hmodes. apply Forall_forall. intros za Hza.
    destruct (Hmodes za Hza) as (p & Hp & Hpget).
    destruct (Hpsh za Hza) as (p' & Hp' & Hpshape).
    rewrite Hp in Hp'. injection Hp' as <-. by exists p.
  - intros rows cols prho ptheta poutside Hprho Hptheta.
    destruct (Hphase prho ptheta poutside) as (pout & Hpout & Hpget).
    assert (∀ za, za ∈ zernikes w →
              ∃ p, Zernike_phase za.1 prho ptheta normed poutside = Ok p ∧
                   is_arr2 rows cols p) as Hphsh.
    { intros [z a] Hza. destruct (Hall _ Hza) as (n & m & Hv & Hz).
      cbn in Hz. subst z. cbn [fst].
      destruct (Zernike_phase_valid n m normed poutside prho ptheta Hv) as (p & Hp & _).
      exists p. split; [done|].
      exact (Zernike_phase_shape _ _ _ _ _ _ _ _ _ Hprho Hptheta Hp). }
    exists pout. split; [done|]. split.
    { destruct (weighted_sum_shape (λ z, Zernike_phase z prho ptheta normed poutside)
                  rows cols (zernikes w) Hne Hphsh) as (out' & Hout' & Hosh).
      unfold ZernikeWavefront_phase in Hpout. rewrite Hpout in Hout'.
      by injection Hout' as <-. }
    intros i j Hi Hj.
    destruct (arr2_get_in_range _ _ prho i j Hprho Hi Hj) as [r Hr].
    destruct (arr2_get_in_range _ _ ptheta i j Hptheta Hi Hj) as [t Ht].
    exists r, t. split; [done|]. split; [done|].
    destruct (Hpget i j r t Hr Ht) as [Hmodes Hsum]. split; [|done].
    rewrite Forall_forall in Hmodes. apply Forall_forall. intros za Hza.
    destruct (Hmodes za Hza) as (p & Hp & Hpg).
    destruct (Hphsh za Hza) as (p' & Hp' & Hpshape).
    rewrite Hp in Hp'. injection Hp' as <-. by exists p.
Qed.

Lemma grid_rho_3_centre : grid_rho 3 1 1 = 0%R.
Proof.
  unfold grid_rho, grid_coord. change (Z.of_nat 1) with 1. change (3 - 1) with 2.
  replace (1 * ((1 - -1) / 2) + -1)%R with 0%R by lra.
  replace (0 * 0 + 0 * 0)%R with 0%R by lra. apply sqrt_0.
Qed.

Lemma grid_rho_3_corner : (1 < grid_rho 3 0 0)%R.
Proof.
  unfold grid_rho, grid_coord. change (Z.of_nat 0) with 0. change (3 - 1) with 2.
  replace (0 * ((1 - -1) / 2) + -1)%R with (-1)%R by lra.
  rewrite <-sqrt_1 at 1. apply sqrt_lt_1_alt. lra.
Qed.

Lemma wavefront_substitutes_outside_per_mode_witness :
  ZernikeWavefront_init
    (AmpSeq [AmpScalar (Fin 1); AmpScalar (Fin 2); AmpScalar (Fin 3)]) "noll"
  = Ok wavefront_123 ∧ 0 < 3 ∧
  ∃ rho theta mask out,
    rho_theta 3 = Ok (rho, theta) ∧ outside_mask 3 = Ok mask ∧
    ZernikeWavefront_polynomial wavefront_123 3 true (Fin 5) = Ok out ∧
    is_arr2 3 3 out ∧
    arr2_get mask 1 1 = Some false ∧
    arr2_get out 1 1 =
      Some (sum_list ((λ za : Zernike * float,
              fmul za.2 (nm_polynomial_pt (z_n za.1) (z_m za.1) true
                           (Fin 0) (Fin (grid_theta 3 1 1))))
            <$> zernikes wavefront_123)) ∧
    arr2_get mask 0 0 = Some true ∧
    arr2_get out 0 0 =
      Some (sum_list ((λ za : Zernike * float, fmul za.2 (Fin 5))
            <$> zernikes wavefront_123)).
Proof.
  split; [apply ZernikeWavefront_init_123|]. split; [lia|].
  destruct (wavefront_substitutes_outside_per_mode _ _ _ 3 true (Fin 5)
              ZernikeWavefront_init_123 ltac:(lia))
    as (_ & rho & theta & mask & Hrt & Hmask & _ & _ & _ & (out & Hout & Hsh & Hget) & _).
  destruct (rho_theta_grid 3 ltac:(lia))
    as (rho' & theta' & Hrt' & _ & _ & _ & _ & _ & Hgrid).
  rewrite Hrt in Hrt'. injection Hrt' as <- <-.
  exists rho, theta, mask, out.
  split; [done|]. split; [done|]. split; [done|]. split; [done|].
  destruct (Hget 1%nat 1%nat ltac:(cbn; lia) ltac:(cbn; lia))
    as (r & t & b & Hr & Ht & Hb & -> & _ & Hsum).
  destruct (Hgrid 1%nat 1%nat ltac:(cbn; lia) ltac:(cbn; lia)) as [Hr' Ht'].
  rewrite Hr' in Hr. rewrite Ht' in Ht. injection Hr as <-. injection Ht as <-.
  rewrite grid_rho_3_centre in Hb, Hsum. cbn [flt] in Hb, Hsum.
  rewrite bool_decide_eq_false_2 in Hb, Hsum by lra.
  split; [done|]. split; [done|].
  destruct (Hget 0%nat 0%nat ltac:(cbn; lia) ltac:(cbn; lia))
    as (r0 & t0 & b0 & Hr0 & Ht0 & Hb0 & -> & _ & Hsum0).
  destruct (Hgrid 0%nat 0%nat ltac:(cbn; lia) ltac:(cbn; lia)) as [Hr0' _].
  rewrite Hr0' in Hr0. injection Hr0 as <-.
  cbn [flt] in Hb0, Hsum0.
  rewrite bool_decide_eq_true_2 in Hb0, Hsum0 by apply grid_rho_3_corner.
  done.
Defined.

(** ** Random wavefronts *)

Lemma imap_scalars (draws : nat → R) (bounds : list (PyIndex * (float * float))) :
  imap (λ i (kv : PyIndex * (float * float)),
          (kv.1, AmpScalar (np_random_uniform (draws i) kv.2.1 kv.2.2))) bounds =
  (λ ja : PyIndex * float, (ja.1, AmpScalar ja.2)) <$>
  imap (λ i (kv : PyIndex * (float * float)),
          (kv.1, np_random_uniform (draws i) kv.2.1 kv.2.2)) bounds.
Proof.
  apply list_eq. intros i. rewrite list_lookup_fmap, !list_lookup_imap.
  by destruct (bounds !! i).
Qed.

Lemma np_random_uniform_within (u : R) (rng : PyRange) :
  (0 <= u < 1)%R →
  match rng with
  | RScalar v => fle (of_Z 0) v
  | RPair _ _ => true
  | ROther => false
  end = true →
  fle (range_bounds rng).1 (range_bounds rng).2 = true →
  within_range rng (np_random_uniform u (range_bounds rng).1 (range_bounds rng).2).
Proof.
  intros Hu H1 H2. destruct rng as [[|v]|[|lo] [|hi]|]; try done; cbn in *.
  - apply bool_decide_eq_true in H1. nra.
  - apply bool_decide_eq_true in H2. nra.
Qed.

(** X24: when [random_wavefront] returns, every mode of the wavefront stems from
    an item of the range dictionary and its amplitude lies within that item's
    range: in [[-v, v]] for a scalar [v], in [[lo, hi]] for a pair. *)
Theorem random_wavefront_within_ranges (draws : nat → R) (ranges : PyRanges)
    (order : string) (w : ZernikeWavefront) :
  random_wavefront draws ranges order = Ok w →
  (∀ i, (0 <= draws i < 1)%R) →
  ∃ items,
    ensure_dict_ranges ranges order = Ok items ∧
    (1 ≤ ZernikeWavefront_len w ≤ length items)%nat ∧
    ∀ z a, (z, a) ∈ zernikes w →
      ∃ idx rng, (idx, rng) ∈ items ∧ Zernike_init idx order = Ok z ∧
                 within_range rng a.
Proof.
  intros H Hu. unfold random_wavefront, random_wavefront_in in H.
  apply bind_Ok_inv in H as (items & Hitems & H).
  apply bind_Ok_inv in H as ([] & Hc1 & H).
  apply bind_Ok_inv in H as ([] & Hc2 & H).
  exists items. split; [done|].
  destruct (forallb _ items) eqn:Hf1; [|done]. clear Hc1.
  destruct (forallb _ (_ <$> items)) eqn:Hf2; [|done]. clear Hc2.
  rewrite imap_scalars in H.
  pose proof (ZernikeWavefront_init_in_views _ _ _ _ Zernike_cls_spec H) as (_ & Hne & _).
  apply ZernikeWavefront_init_in_dict in H.
  destruct (zernikes_last_wins _ _ _ _ Zernike_cls_spec H) as [Hlen Hin].
  rewrite length_imap, length_fmap in Hlen.
  split.
  { unfold ZernikeWavefront_len. split; [|done]. destruct (zernikes w); [done|cbn; lia]. }
  intros z a (l1 & idx & l2 & Heq & Hz & _)%Hin.
  assert (imap (λ i (kv : PyIndex * (float * float)),
                  (kv.1, np_random_uniform (draws i) kv.2.1 kv.2.2))
               ((λ kv : PyIndex * PyRange, (kv.1, range_bounds kv.2)) <$> items)
          !! length l1 = Some (idx, a)) as Hl.
  { rewrite Heq. by rewrite list_lookup_middle. }
  rewrite list_lookup_imap, list_lookup_fmap in Hl.
  destruct (items !! length l1) as [[idx' rng]|] eqn:Hit; [|done].
  cbn in Hl. injection Hl as -> <-.
  exists idx, rng. split; [by eapply list_elem_of_lookup_2|]. split; [done|].
  apply list_elem_of_lookup_2 in Hit as Hin'.
  rewrite forallb_forall in Hf1. specialize (Hf1 _ (proj1 (list_elem_of_In _ _) Hin')).
  rewrite forallb_forall in Hf2.
  specialize (Hf2 (idx, range_bounds rng)). cbn [fst snd] in Hf1, Hf2.
  apply np_random_uniform_within; [done|done|]. apply Hf2.
  apply list_elem_of_In, list_elem_of_fmap. by exists (idx, rng).
Qed.

Lemma forallb_false_elem {A} (f : A → bool) (l : list A) (x : A) :
  x ∈ l → f x = false → forallb f l = false.
Proof.
  intros Hx Hf. apply not_true_iff_false. rewrite forallb_forall.
  intros H. rewrite (H x) in Hf; [done|]. by apply list_elem_of_In.
Qed.

(** X25: [random_wavefront] raises one of its two [ValueError]s as soon as one
    range anywhere in the dictionary is invalid (a negative or NaN scalar, a
    pair whose lower bound is not below or equal to its upper bound, or
    anything that is neither), whatever the samples drawn. *)
Theorem random_wavefront_rejects (draws : nat → R) (ranges : PyRanges) (order : string)
    (items : list (PyIndex * PyRange)) (idx : PyIndex) (rng : PyRange) :
  ensure_dict_ranges ranges order = Ok items →
  (idx, rng) ∈ items → invalid_range rng →
  random_wavefront draws ranges order =
    Raise (ValueError "false in one elements of the iterable") ∨
  random_wavefront draws ranges order =
    Raise (ValueError "Lower bound is expected to be less than the upper bound").
Proof.
  intros Hitems Hin Hinv. unfold random_wavefront, random_wavefront_in.
  rewrite Hitems. cbn [mbind result_bind].
  destruct (forallb _ items) eqn:Hf1; cbn [or_present mbind result_bind present];
    [|by left].
  right.
  rewrite (forallb_false_elem _ _ (idx, range_bounds rng)); [done| |].
  - apply list_elem_of_fmap. by exists (idx, rng).
  - rewrite forallb_forall in Hf1.
    specialize (Hf1 _ (proj1 (list_elem_of_In _ _) Hin)). cbn [fst snd] in *.
    destruct rng as [[|v]|lo hi|]; try done. cbn in Hinv, Hf1. congruence.
Qed.

Lemma random_wavefront_in_sample (cls : ZernikeCls) :
  cls_spec cls →
  random_wavefront_in cls (λ _, (1 / 2)%R) (RangeSeq [RPair (Fin (-1)) (Fin 1)]) "noll"
  = Ok wavefront_sample.
Proof.
  intros Hcls. unfold random_wavefront_in.
  assert (ensure_dict_ranges (RangeSeq [RPair (Fin (-1)) (Fin 1)]) "noll"
          = Ok [(IInt 1, RPair (Fin (-1)) (Fin 1))]) as -> by reflexivity.
  cbn [mbind result_bind forallb fst snd andb or_present fmap list_fmap range_bounds fle].
  rewrite bool_decide_eq_true_2 by lra.
  cbn [mbind result_bind forallb fst snd andb or_present imap].
  unfold ZernikeWavefront_init_in.
  cbn [ensure_dict mbind result_bind mapM fst snd mret result_ret foldlM].
  rewrite (Zernike_init_in_noll cls 1 0 0); [|done..|by apply (cls_noll _ Hcls)].
  reflexivity.
Qed.

Lemma random_wavefront_within_ranges_witness :
  random_wavefront (λ _, (1 / 2)%R) (RangeSeq [RPair (Fin (-1)) (Fin 1)]) "noll"
    = Ok wavefront_sample ∧
  (∀ i : nat, (0 <= (λ _ : nat, (1 / 2)%R) i < 1)%R) ∧
  ∃ items,
    ensure_dict_ranges (RangeSeq [RPair (Fin (-1)) (Fin 1)]) "noll" = Ok items ∧
    (1 ≤ ZernikeWavefront_len wavefront_sample ≤ length items)%nat ∧
    ∀ z a, (z, a) ∈ zernikes wavefront_sample →
      ∃ idx rng, (idx, rng) ∈ items ∧ Zernike_init idx "noll" = Ok z ∧
                 within_range rng a.
Proof.
  assert (random_wavefront (λ _, (1 / 2)%R) (RangeSeq [RPair (Fin (-1)) (Fin 1)]) "noll"
          = Ok wavefront_sample) as H
    by apply random_wavefront_in_sample, Zernike_cls_spec.
  assert (∀ i : nat, (0 <= (λ _ : nat, (1 / 2)%R) i < 1)%R) as Hu by (intros _; lra).
  split; [exact H|]. split; [exact Hu|].
  apply (random_wavefront_within_ranges _ _ _ _ H Hu).
Defined.

Lemma random_wavefront_rejects_witness :
  ensure_dict_ranges (RangeSeq [RScalar (Fin (-1))]) "noll"
    = Ok [(IInt 1, RScalar (Fin (-1)))] ∧
  (IInt 1, RScalar (Fin (-1))) ∈ [(IInt 1, RScalar (Fin (-1)))] ∧
  invalid_range (RScalar (Fin (-1))) ∧
  (random_wavefront (λ _, 0%R) (RangeSeq [RScalar (Fin (-1))]) "noll" =
     Raise (ValueError "false in one elements of the iterable") ∨
   random_wavefront (λ _, 0%R) (RangeSeq [RScalar (Fin (-1))]) "noll" =
     Raise (ValueError "Lower bound is expected to be less than the upper bound")).
Proof.
  assert (invalid_range (RScalar (Fin (-1)))) as Hinv.
  { cbn. apply bool_decide_eq_false_2. lra. }
  assert ((IInt 1, RScalar (Fin (-1))) ∈ [(IInt 1, RScalar (Fin (-1)))]) as Hin
    by apply list_elem_of_here.
  split; [reflexivity|]. split; [exact Hin|]. split; [exact Hinv|].
  apply (random_wavefront_rejects (λ _, 0%R) (RangeSeq [RScalar (Fin (-1))]) "noll"
           [(IInt 1, RScalar (Fin (-1)))] (IInt 1) (RScalar (Fin (-1)))
           eq_refl Hin Hinv).
Defined.
